(** * ConstObject: the [Small<T>] handle of [main.cpp]

    A shallow embedding of the small-object-optimised handle: the
    compile-time classifier [inlined_object], the two [SmallImpl]
    representations, the per-thread [ParallelPool] obtained through [getPool],
    and the reference-counting protocol on [AtomicCounter] cells. *)

From stdpp Require Import gmap strings list fin_maps fin_sets numbers.
From Stdlib Require Import NArith Lia.

Set Default Proof Using "Type".
Local Open Scope N_scope.

(** * The program *)

(** ** Payload types, as the classifier sees them *)

(** [const], [volatile] or both. *)
Inductive cv_qualifier : Type :=
  | cv_const
  | cv_volatile
  | cv_const_volatile.

(** A payload type is [std::shared_ptr<U>], or any other complete object
    type without cv-qualifiers, or a type with cv-qualifiers added
    ([const T], [volatile T], [const volatile T]; qualifiers added to a
    qualified type combine, as they do in C++).  Of an object type other
    than [std::shared_ptr] the program inspects two compiler-provided facts
    only, [std::is_trivially_copyable_v<T>] and [sizeof(T)]; they are carried
    with the type's name. *)
Inductive cpp_type : Type :=
  | Object (name : string) (trivially_copyable : bool) (size : N)
  | SharedPtr (U : cpp_type)
  | Qualified (cv : cv_qualifier) (T : cpp_type).

Definition cv_qualifier_code (q : cv_qualifier) : nat :=
  match q with
  | cv_const => 0
  | cv_volatile => 1
  | cv_const_volatile => 2
  end.

Definition cv_qualifier_uncode (n : nat) : cv_qualifier :=
  match n with
  | O => cv_const
  | 1%nat => cv_volatile
  | _ => cv_const_volatile
  end.

Global Instance cv_qualifier_eq_dec : EqDecision cv_qualifier.
Proof. solve_decision. Defined.

Global Instance cv_qualifier_countable : Countable cv_qualifier.
Proof.
  refine (inj_countable' cv_qualifier_code cv_qualifier_uncode _).
  by intros [].
Defined.

(** A type as the type constructors around an unqualified object type,
    outermost first: [None] is [std::shared_ptr<_>], [Some q] a
    qualifier. *)
Fixpoint cpp_type_code (T : cpp_type)
    : list (option cv_qualifier) * (string * bool * N) :=
  match T with
  | Object n tc sz => ([], (n, tc, sz))
  | SharedPtr U => let '(ws, x) := cpp_type_code U in (None :: ws, x)
  | Qualified q U => let '(ws, x) := cpp_type_code U in (Some q :: ws, x)
  end.

Fixpoint cpp_type_wrap (ws : list (option cv_qualifier)) (T : cpp_type)
    : cpp_type :=
  match ws with
  | [] => T
  | None :: ws' => SharedPtr (cpp_type_wrap ws' T)
  | Some q :: ws' => Qualified q (cpp_type_wrap ws' T)
  end.

Definition cpp_type_uncode
    (c : list (option cv_qualifier) * (string * bool * N)) : cpp_type :=
  let '(ws, (n, tc, sz)) := c in cpp_type_wrap ws (Object n tc sz).

Global Instance cpp_type_eq_dec : EqDecision cpp_type.
Proof. solve_decision. Defined.

Global Instance cpp_type_countable : Countable cpp_type.
Proof.
  refine (inj_countable' cpp_type_code cpp_type_uncode _).
  intros T. induction T as [n tc sz|U IH|q U IH]; simpl; [reflexivity| |];
    destruct (cpp_type_code U) as [ws [[n tc] sz]]; simpl in *; by rewrite IH.
Defined.

(** Whether a partial operation returned. *)
Definition returns {A} (r : option A) : bool :=
  match r with Some _ => true | None => false end.

Module Classifier.

(** [constexpr size_t MAX_SMALL_SIZE = 64;] *)
Definition MAX_SMALL_SIZE : N := 64.

Section Traits.
(** [sizeof(std::shared_ptr<U>)] is fixed by the standard library in use;
    the classifier is studied for every possible value. *)
Variable sizeof_shared_ptr : cpp_type -> N.

(** [std::is_trivially_copyable_v<T>]: a [std::shared_ptr] has a
    user-provided copy constructor and destructor, hence never is; a
    cv-qualified type is trivially copyable when the type without the
    qualifier is. *)
Fixpoint is_trivially_copyable_v (T : cpp_type) : bool :=
  match T with
  | Object _ tc _ => tc
  | SharedPtr _ => false
  | Qualified _ T' => is_trivially_copyable_v T'
  end.

(** [sizeof(T)], which qualifiers do not change. *)
Fixpoint sizeof (T : cpp_type) : N :=
  match T with
  | Object _ _ sz => sz
  | SharedPtr U => sizeof_shared_ptr U
  | Qualified _ T' => sizeof T'
  end.

(** Whether [T] matches the pattern [std::shared_ptr<U>] of the partial
    specialisation at lines 90-91: deduction of [U] fails against a
    cv-qualified type. *)
Definition is_shared_ptr (T : cpp_type) : bool :=
  match T with
  | SharedPtr _ => true
  | Object _ _ _ | Qualified _ _ => false
  end.

(** The three declarations of [inlined_object]: the primary template
    (lines 81-82) and its two partial specialisations (lines 86-91). *)
Inductive inlined_object_decl : Type :=
  | primary_template
  | trivially_copyable_small
  | shared_handle.

(** [inlined_object<T>] names [inlined_object<T, void>].  The first
    partial specialisation matches it when its [std::enable_if_t]
    condition holds (otherwise substitution fails silently), the second
    when [T] is some [std::shared_ptr<U>]. *)
Definition matching_specializations (T : cpp_type) : list inlined_object_decl :=
  (if is_trivially_copyable_v T && (sizeof T <=? MAX_SMALL_SIZE)
   then [trivially_copyable_small] else [])
  ++ (if is_shared_ptr T then [shared_handle] else []).

(** No match instantiates the primary template, one match that
    specialisation; two matches of which neither is more specialised make
    the instantiation ill-formed. *)
Definition inlined_object (T : cpp_type) : option inlined_object_decl :=
  match matching_specializations T with
  | [] => Some primary_template
  | [d] => Some d
  | _ => None
  end.

(** [std::false_type] for the primary template, [std::true_type] for the
    specialisations. *)
Definition value (d : inlined_object_decl) : bool :=
  match d with
  | primary_template => false
  | trivially_copyable_small | shared_handle => true
  end.

Definition inlined_object_v (T : cpp_type) : option bool :=
  value <$> inlined_object T.

(** The two definitions of [SmallImpl]: the primary template (lines
    53-79) and the partial specialisation on
    [std::enable_if_t<inlined_object_v<T>>] (lines 96-113). *)
Inductive representation : Type :=
  | pooled
  | inline.

(** [static const bool inlined] of either definition. *)
Definition inlined (r : representation) : bool :=
  match r with
  | pooled => false
  | inline => true
  end.

(** [template<class T> using Small = SmallImpl<T, void>;] *)
Definition Small (T : cpp_type) : option representation :=
  b ← inlined_object_v T;
  Some (if b : bool then inline else pooled).

End Traits.

(** The payload types instantiated by [main]. *)
Definition int : cpp_type := Object "int" true 4.
Definition tt : cpp_type := Object "tt" true 1.
Definition std_string : cpp_type := Object "std::string" false 32.
Definition CopyCounter : cpp_type := Object "CopyCounter" false 1.

(** [std::remove_cv_t<T>]. *)
Fixpoint remove_cv (T : cpp_type) : cpp_type :=
  match T with
  | Qualified _ T' => remove_cv T'
  | _ => T
  end.

(** "[T] is a shared, reference-counted handle type ([std::shared_ptr])",
    in the words of the specification: a [std::shared_ptr<U>], with
    qualifiers or without. *)
Definition shared_handle_type (T : cpp_type) : bool :=
  match remove_cv T with
  | SharedPtr _ => true
  | _ => false
  end.

End Classifier.

(** ** The pooled representation *)

Module Pooled.

Abbreviation tid := nat (only parsing).    (* a thread *)
Abbreviation pid := nat (only parsing).    (* a [ParallelPool] object *)
Abbreviation addr := nat (only parsing).   (* a chunk of pool memory; [None] below is [nullptr] *)
Abbreviation hid := nat (only parsing).    (* the storage of a handle object *)

(** [std::atomic<size_t>] arithmetic wraps around at [2^64]. *)
Definition SIZE_MODULUS : N := 2 ^ 64.

Definition pre_increment (n : N) : N := (n + 1) mod SIZE_MODULUS.
Definition pre_decrement (n : N) : N := (n + (SIZE_MODULUS - 1)) mod SIZE_MODULUS.

(** A handle object occupies storage at a non-null address of the same
    64-bit address space. *)
Definition valid_storage (h : hid) : bool :=
  bool_decide (h ≠ O) && (N.of_nat h <? SIZE_MODULUS).

(** [boost::simple_segregated_storage::ordered_free], through which
    [boost::object_pool::free] returns a chunk: the free list stays in
    address order. *)
Fixpoint ordered_free (a : addr) (l : list addr) : list addr :=
  match l with
  | [] => [a]
  | b :: l' => if (a <? b)%nat then a :: l else b :: ordered_free a l'
  end.

(** What the machine records as it runs, most recent first. *)
Inductive event : Type :=
  | EvMakeShared (T : cpp_type) (t : tid) (p : pid)  (* [std::make_shared<ParallelPool<T>>()] *)
  | EvLock (t : tid) (p : pid)                       (* [std::lock_guard l(mutex)] *)
  | EvUnlock (t : tid) (p : pid)                     (* end of the guard's scope *)
  | EvNew (p : pid) (a : addr)                       (* placement new of the cell at [a] *)
  | EvDtor (p : pid) (a : addr)                      (* [a->~AtomicCounter<T>()] *)
  | EvFree (p : pid) (a : addr)                      (* chunk [a] back on the free list *)
  | EvPoolDtor (p : pid).                            (* [~ParallelPool<T>()] *)

(** The pool an event happens in. *)
Definition event_pool (e : event) : pid :=
  match e with
  | EvMakeShared _ _ p | EvLock _ p | EvUnlock _ p | EvNew p _
  | EvDtor p _ | EvFree p _ | EvPoolDtor p => p
  end.

Global Instance event_eq_dec : EqDecision event.
Proof. solve_decision. Defined.

Section Machine.
(** The values a payload of the pooled types can take. *)
Context {V : Type}.

(** [struct AtomicCounter { T data; std::atomic<size_t> uses; }] *)
Record AtomicCounter : Type := mkAtomicCounter {
  data : V;
  uses : N
}.

(** A constructed cell, with the pool whose block its chunk lies in. *)
Record cell : Type := mkCell {
  owner : pid;
  obj : AtomicCounter
}.

(** A [ParallelPool<T>] held by [std::shared_ptr]: the control block's
    use count, the free list of the [boost::object_pool] and the mutex.
    [elem] is the [T] of its type and [home] the thread whose
    [thread_local] variable created it. *)
Record ParallelPool : Type := mkParallelPool {
  elem : cpp_type;
  home : tid;
  use_count : nat;
  free_list : list addr;
  mutex : bool
}.

(** The pooled [SmallImpl<T, void>]. *)
Record SmallImpl : Type := mkSmallImpl {
  owner_ : pid;
  counter_ : option addr
}.

Record state : Type := mkState {
  tls : gmap (cpp_type * tid) pid;  (* [thread_local] [pool] of [getPool<T>], once initialised *)
  pools : gmap pid ParallelPool;    (* the live pools *)
  mem : gmap addr cell;             (* the constructed cells *)
  handles : gmap hid SmallImpl;     (* the live handles *)
  next_pool : pid;                  (* where [make_shared] puts the next pool *)
  brk : addr;                       (* next chunk of the backing allocator *)
  heap_limit : addr;                (* its end: no chunk at or beyond it *)
  log : list event
}.

Definition with_tls (f : gmap (cpp_type * tid) pid → gmap (cpp_type * tid) pid)
    (s : state) : state :=
  mkState (f (tls s)) (pools s) (mem s) (handles s)
          (next_pool s) (brk s) (heap_limit s) (log s).
Definition with_pools (f : gmap pid ParallelPool → gmap pid ParallelPool)
    (s : state) : state :=
  mkState (tls s) (f (pools s)) (mem s) (handles s)
          (next_pool s) (brk s) (heap_limit s) (log s).
Definition with_mem (f : gmap addr cell → gmap addr cell) (s : state) : state :=
  mkState (tls s) (pools s) (f (mem s)) (handles s)
          (next_pool s) (brk s) (heap_limit s) (log s).
Definition with_handles (f : gmap hid SmallImpl → gmap hid SmallImpl)
    (s : state) : state :=
  mkState (tls s) (pools s) (mem s) (f (handles s))
          (next_pool s) (brk s) (heap_limit s) (log s).
Definition emit (e : event) (s : state) : state :=
  mkState (tls s) (pools s) (mem s) (handles s)
          (next_pool s) (brk s) (heap_limit s) (e :: log s).

Definition set_use_count (n : nat) (P : ParallelPool) : ParallelPool :=
  mkParallelPool (elem P) (home P) n (free_list P) (mutex P).
Definition set_free_list (l : list addr) (P : ParallelPool) : ParallelPool :=
  mkParallelPool (elem P) (home P) (use_count P) l (mutex P).
Definition set_mutex (b : bool) (P : ParallelPool) : ParallelPool :=
  mkParallelPool (elem P) (home P) (use_count P) (free_list P) b.
Definition set_uses (n : N) (c : cell) : cell :=
  mkCell (owner c) (mkAtomicCounter (data (obj c)) n).

(** *** std::mutex *)

(** A second lock of a held mutex never returns. *)
Definition lock (t : tid) (p : pid) (s : state) : option state :=
  P ← pools s !! p;
  if mutex P then None
  else Some (emit (EvLock t p) (with_pools <[p := set_mutex true P]> s)).

Definition unlock (t : tid) (p : pid) (s : state) : option state :=
  P ← pools s !! p;
  Some (emit (EvUnlock t p) (with_pools <[p := set_mutex false P]> s)).

(** *** boost::object_pool<AtomicCounter<T>> *)

(** [malloc]: the first chunk of the free list; when the list is empty a
    new block is requested from the backing allocator, and the result is
    [nullptr] when that request fails. *)
Definition pool_malloc (p : pid) (s : state) : option (option addr * state) :=
  P ← pools s !! p;
  match free_list P with
  | a :: l => Some (Some a, with_pools <[p := set_free_list l P]> s)
  | [] =>
      if (brk s <? heap_limit s)%nat
      then Some (Some (brk s),
                 mkState (tls s) (pools s) (mem s) (handles s)
                         (next_pool s) (S (brk s)) (heap_limit s) (log s))
      else Some (None, s)
  end.

(** [construct]: [malloc], then placement new of
    [AtomicCounter<T>(args...)], whose constructor is
    [data(std::move(args)...), uses(1)]; a null chunk is returned as it
    is. *)
Definition pool_construct (p : pid) (v : V) (s : state)
    : option (option addr * state) :=
  '(ret, s1) ← pool_malloc p s;
  match ret with
  | None => Some (None, s1)
  | Some a =>
      Some (Some a,
            emit (EvNew p a)
                 (with_mem <[a := mkCell p (mkAtomicCounter v 1)]> s1))
  end.

(** [destroy]: the object's destructor, then [free]; only defined for an
    object of this pool. *)
Definition pool_destroy (p : pid) (a : addr) (s : state) : option state :=
  P ← pools s !! p;
  c ← mem s !! a;
  if bool_decide (owner c = p) then
    let s1 := emit (EvDtor p a) (with_mem (delete a) s) in
    Some (emit (EvFree p a)
               (with_pools <[p := set_free_list (ordered_free a (free_list P)) P]> s1))
  else None.

(** *** ParallelPool<T> (lines 16-45) *)

Definition ParallelPool_construct (t : tid) (p : pid) (v : V) (s : state)
    : option (option addr * state) :=
  s1 ← lock t p s;
  '(ret, s2) ← pool_construct p v s1;
  s3 ← unlock t p s2;
  Some (ret, s3).

Definition ParallelPool_destroy (t : tid) (p : pid) (a : addr) (s : state)
    : option state :=
  s1 ← lock t p s;
  s2 ← pool_destroy p a s1;
  unlock t p s2.

(** *** std::shared_ptr<ParallelPool<T>> *)

Definition shared_ptr_copy (p : pid) (s : state) : option state :=
  P ← pools s !! p;
  Some (with_pools <[p := set_use_count (S (use_count P)) P]> s).

(** [~ParallelPool<T>()]: the [boost::object_pool] destroys the objects
    still in its blocks and gives the blocks back. *)
Definition ParallelPool_dtor (p : pid) (s : state) : state :=
  let left_over := (map_to_list (filter (λ kv, owner kv.2 = p) (mem s))).*1 in
  mkState (tls s) (delete p (pools s))
          (filter (λ kv, owner kv.2 ≠ p) (mem s)) (handles s)
          (next_pool s) (brk s) (heap_limit s)
          ((EvDtor p <$> left_over) ++ EvPoolDtor p :: log s).

Definition shared_ptr_release (p : pid) (s : state) : option state :=
  P ← pools s !! p;
  match use_count P with
  | 1%nat => Some (ParallelPool_dtor p s)
  | n => Some (with_pools <[p := set_use_count (pred n) P]> s)
  end.

(** *** getPool<T> (lines 47-51) *)

(** Initialisation of the [thread_local] variable, run by the first call
    on a thread. *)
Definition thread_local_init (T : cpp_type) (t : tid) (s : state) : state :=
  match tls s !! (T, t) with
  | Some _ => s
  | None =>
      let p := next_pool s in
      emit (EvMakeShared T t p)
           (mkState (<[(T, t) := p]> (tls s))
                    (<[p := mkParallelPool T t 1 [] false]> (pools s))
                    (mem s) (handles s)
                    (S p) (brk s) (heap_limit s) (log s))
  end.

(** [return pool;] copies the [thread_local] pointer. *)
Definition getPool (T : cpp_type) (t : tid) (s : state) : option (pid * state) :=
  let s1 := thread_local_init T t s in
  p ← tls s1 !! (T, t);
  s2 ← shared_ptr_copy p s1;
  Some (p, s2).

(** *** SmallImpl<T, void>, primary template (lines 53-79) *)

(** [explicit SmallImpl(Args... args)], on thread [t], building the
    handle in storage [h]; [v] is the payload its arguments construct. *)
Definition SmallImpl_ctor (T : cpp_type) (t : tid) (h : hid) (v : V) (s : state)
    : option state :=
  if valid_storage h && bool_decide (handles s !! h = None) then
    '(p, s1) ← getPool T t s;
    '(c, s2) ← ParallelPool_construct t p v s1;
    Some (with_handles <[h := mkSmallImpl p c]> s2)
  else None.

(** [SmallImpl(const SmallImpl &item)]: [owner_(item.owner_)], then
    [counter_((++item.counter_->uses, item.counter_))]. *)
Definition SmallImpl_copy (t : tid) (h item : hid) (s : state) : option state :=
  if valid_storage h && bool_decide (handles s !! h = None) then
    i ← handles s !! item;
    s1 ← shared_ptr_copy (owner_ i) s;
    a ← counter_ i;
    c ← mem s1 !! a;
    let s2 := with_mem <[a := set_uses (pre_increment (uses (obj c))) c]> s1 in
    Some (with_handles <[h := mkSmallImpl (owner_ i) (counter_ i)]> s2)
  else None.

(** [~SmallImpl()]: the body, then the members' destructors. *)
Definition SmallImpl_dtor (t : tid) (h : hid) (s : state) : option state :=
  this ← handles s !! h;
  a ← counter_ this;
  c ← mem s !! a;
  let n := pre_decrement (uses (obj c)) in
  let s1 := with_mem <[a := set_uses n c]> s in
  s2 ← (if n =? 0 then ParallelPool_destroy t (owner_ this) a s1 else Some s1);
  s3 ← shared_ptr_release (owner_ this) s2;
  Some (with_handles (delete h) s3).

(** [const T &data() const]: the reference denotes the payload member of
    the cell, which lies at the cell's address. *)
Definition SmallImpl_data (h : hid) (s : state) : option addr :=
  this ← handles s !! h;
  counter_ this.

(** Reading through such a reference. *)
Definition deref (a : addr) (s : state) : option V :=
  c ← mem s !! a;
  Some (data (obj c)).

Definition read (h : hid) (s : state) : option V :=
  a ← SmallImpl_data h s;
  deref a s.

(** *** What threads do *)

Inductive op : Type :=
  | Construct (T : cpp_type) (t : tid) (h : hid) (v : V)  (* [Small<T> h(args...);] *)
  | Copy (t : tid) (h item : hid)                         (* [Small<T> h(item);] *)
  | Destroy (t : tid) (h : hid)                           (* the end of [h]'s lifetime *)
  | GetPool (T : cpp_type) (t : tid)                      (* [getPool<T>().get()] *)
  | ThreadExit (T : cpp_type) (t : tid).                  (* [t] ends: [getPool<T>]'s variable dies *)

Definition thread_of (o : op) : tid :=
  match o with
  | Construct _ t _ _ | Copy t _ _ | Destroy t _
  | GetPool _ t | ThreadExit _ t => t
  end.

Definition exec (o : op) (s : state) : option state :=
  match o with
  | Construct T t h v => SmallImpl_ctor T t h v s
  | Copy t h item => SmallImpl_copy t h item s
  | Destroy t h => SmallImpl_dtor t h s
  | GetPool T t =>
      '(p, s1) ← getPool T t s;
      shared_ptr_release p s1
  | ThreadExit T t =>
      p ← tls s !! (T, t);
      shared_ptr_release p (with_tls (delete (T, t)) s)
  end.

Fixpoint run (os : list op) (s : state) : option state :=
  match os with
  | [] => Some s
  | o :: os' => s' ← exec o s; run os' s'
  end.

(** The program starts with no pool, no cell and no handle; [limit]
    bounds what the backing allocator can give. *)
Definition init (limit : addr) : state :=
  mkState ∅ ∅ ∅ ∅ O 1%nat limit [].

(** The number of live handles whose [counter_] is [a], whose [owner_]
    is [p], and of [thread_local] variables holding [p]. *)
Definition refs (a : addr) (hs : gmap hid SmallImpl) : nat :=
  size (filter (λ kv, counter_ kv.2 = Some a) hs).
Definition owners (p : pid) (hs : gmap hid SmallImpl) : nat :=
  size (filter (λ kv, owner_ kv.2 = p) hs).
Definition locals (p : pid) (tl : gmap (cpp_type * tid) pid) : nat :=
  size (filter (λ kv, kv.2 = p) tl).

(** What the pooled constructor returns, in terms of the state [s1] left
    by the initialisation of the [thread_local] pool [p]. *)
Definition ctor_result (t : tid) (h : hid) (v : V) (p : pid) (P : ParallelPool)
    (s1 : state) : state :=
  match free_list P with
  | a :: l =>
      mkState (tls s1)
        (<[p := mkParallelPool (elem P) (home P) (S (use_count P)) l false]>
           (pools s1))
        (<[a := mkCell p (mkAtomicCounter v 1)]> (mem s1))
        (<[h := mkSmallImpl p (Some a)]> (handles s1))
        (next_pool s1) (brk s1) (heap_limit s1)
        (EvUnlock t p :: EvNew p a :: EvLock t p :: log s1)
  | [] =>
      if (brk s1 <? heap_limit s1)%nat then
        mkState (tls s1)
          (<[p := mkParallelPool (elem P) (home P) (S (use_count P)) [] false]>
             (pools s1))
          (<[brk s1 := mkCell p (mkAtomicCounter v 1)]> (mem s1))
          (<[h := mkSmallImpl p (Some (brk s1))]> (handles s1))
          (next_pool s1) (S (brk s1)) (heap_limit s1)
          (EvUnlock t p :: EvNew p (brk s1) :: EvLock t p :: log s1)
      else
        mkState (tls s1)
          (<[p := mkParallelPool (elem P) (home P) (S (use_count P))
                    (free_list P) false]> (pools s1))
          (mem s1)
          (<[h := mkSmallImpl p None]> (handles s1))
          (next_pool s1) (brk s1) (heap_limit s1)
          (EvUnlock t p :: EvLock t p :: log s1)
  end.

(** What the pooled destructor leaves. *)
Definition dtor_result (t : tid) (h : hid) (i : SmallImpl) (a : addr)
    (c : cell) (P : ParallelPool) (s : state) : state :=
  let p := owner_ i in
  let n := pre_decrement (uses (obj c)) in
  if (n =? 0)%N then
    match use_count P with
    | 1%nat =>
        mkState (tls s) (delete p (pools s)) (delete a (mem s))
          (delete h (handles s)) (next_pool s) (brk s) (heap_limit s)
          (EvPoolDtor p :: EvUnlock t p :: EvFree p a :: EvDtor p a
             :: EvLock t p :: log s)
    | uc =>
        mkState (tls s)
          (<[p := mkParallelPool (elem P) (home P) (pred uc)
                    (ordered_free a (free_list P)) false]> (pools s))
          (delete a (mem s)) (delete h (handles s))
          (next_pool s) (brk s) (heap_limit s)
          (EvUnlock t p :: EvFree p a :: EvDtor p a :: EvLock t p :: log s)
    end
  else
    mkState (tls s)
      (<[p := set_use_count (pred (use_count P)) P]> (pools s))
      (<[a := set_uses n c]> (mem s)) (delete h (handles s))
      (next_pool s) (brk s) (heap_limit s) (log s).

(** Whether [o] ends the lifetime of the only handle on the cell at [a],
    a cell of pool [p]. *)
Definition last_reference (o : op) (p : pid) (a : addr) (s : state) : bool :=
  match o with
  | Destroy _ h =>
      match handles s !! h with
      | Some i =>
          bool_decide (counter_ i = Some a ∧ owner_ i = p
                       ∧ refs a (handles s) = 1%nat)
      | None => false
      end
  | _ => false
  end.

(** How often an event occurs in a log, and whether the cell at [a]
    is a constructed object of pool [p]. *)
Definition occurrences (e : event) (l : list event) : nat :=
  count_occ event_eq_dec l e.
Definition constructed (p : pid) (a : addr) (s : state) : nat :=
  match mem s !! a with
  | Some c => if decide (owner c = p) then 1%nat else O
  | None => O
  end.

(** *** The invariant of the machine *)

Record handles_ok (s : state) : Prop := {
  handle_storage : ∀ h i, handles s !! h = Some i →
    h ≠ O ∧ N.of_nat h < SIZE_MODULUS;
  handle_owner : ∀ h i, handles s !! h = Some i →
    is_Some (pools s !! owner_ i);
  handle_counter : ∀ h i a, handles s !! h = Some i → counter_ i = Some a →
    ∃ c, mem s !! a = Some c ∧ owner c = owner_ i
}.

Record cells_ok (s : state) : Prop := {
  cell_uses : ∀ a c, mem s !! a = Some c →
    uses (obj c) = N.of_nat (refs a (handles s));
  cell_referenced : ∀ a c, mem s !! a = Some c → refs a (handles s) ≠ O;
  cell_below_brk : ∀ a c, mem s !! a = Some c → (a < brk s)%nat;
  brk_positive : (0 < brk s)%nat
}.

Record pools_ok (s : state) : Prop := {
  pool_use_count : ∀ p P, pools s !! p = Some P →
    use_count P = (owners p (handles s) + locals p (tls s))%nat;
  pool_unlocked : ∀ p P, pools s !! p = Some P → mutex P = false;
  pool_below_next : ∀ p P, pools s !! p = Some P → (p < next_pool s)%nat;
  pool_free_NoDup : ∀ p P, pools s !! p = Some P → NoDup (free_list P);
  pool_free_chunk : ∀ p P a, pools s !! p = Some P → a ∈ free_list P →
    (a < brk s)%nat ∧ mem s !! a = None;
  pool_free_disjoint : ∀ p1 p2 P1 P2 a, p1 ≠ p2 →
    pools s !! p1 = Some P1 → pools s !! p2 = Some P2 →
    a ∈ free_list P1 → a ∉ free_list P2;
  pool_local : ∀ T t p, tls s !! (T, t) = Some p →
    ∃ P, pools s !! p = Some P ∧ elem P = T ∧ home P = t
}.

Record log_ok (s : state) : Prop := {
  log_new_free : ∀ p a,
    occurrences (EvNew p a) (log s)
    = (occurrences (EvFree p a) (log s) + constructed p a s)%nat;
  log_dtor_free : ∀ p a,
    occurrences (EvDtor p a) (log s) = occurrences (EvFree p a) (log s)
}.

Record inv (s : state) : Prop := {
  inv_handles : handles_ok s;
  inv_cells : cells_ok s;
  inv_pools : pools_ok s;
  inv_log : log_ok s
}.

End Machine.

Arguments occurrences : simpl never.
Arguments with_tls {V} f s /.
Arguments with_pools {V} f s /.
Arguments with_mem {V} f s /.
Arguments with_handles {V} f s /.
Arguments emit {V} e s /.
Arguments ParallelPool_dtor : simpl never.
Arguments AtomicCounter : clear implicits.
Arguments cell : clear implicits.
Arguments state : clear implicits.
Arguments op : clear implicits.


(** *** Runs of [main] *)

(** [Small<std::string> s("kek");] on the main thread, thread [0], with
    the handle in storage [10]; then [auto s1 = s;] in storage [11]. *)
Definition kek_ops : list (op string) :=
  [Construct Classifier.std_string 0 10 "kek"%string].
Definition kek_copy_ops : list (op string) :=
  [Construct Classifier.std_string 0 10 "kek"%string; Copy 0 11 10].

(** The state a run from the start ends in ([init] itself if it does not
    return). *)
Definition after (limit : nat) (os : list (op string)) : state string :=
  default (init limit) (run os (init limit)).

(** [Small<std::string>("Alien string")] constructed when the backing
    allocator has no chunk for the pool. *)
Definition out_of_memory : state string :=
  default (init 1)
    (exec (Construct Classifier.std_string 0 10 "Alien string"%string) (init 1)).

End Pooled.

(** ** Destructors racing on one cell *)

Module Race.
Import Pooled.

(** Where a thread stands in [~SmallImpl()] (lines 66-70); between two
    points lies one access to shared memory. *)
Inductive pc : Type :=
  | AtDecrement      (* before [--counter_->uses] *)
  | AtLock           (* the decrement gave zero; before [std::lock_guard l(mutex)] *)
  | AtDestroy        (* holding the lock; before [pool.destroy(counter_)] *)
  | AtUnlock         (* before the guard's destructor *)
  | AtReleaseOwner   (* the body is done; before [~owner_] *)
  | Finished.

Global Instance pc_eq_dec : EqDecision pc.
Proof. solve_decision. Defined.

(** What the racing destructors share: the cell's counter, whether the
    cell is still a constructed object, the holder of its pool's mutex;
    and, as a record of the run, the events so far and the threads whose
    decrement returned zero (both most recent first). *)
Record shared : Type := mkShared {
  uses : N;
  cell_live : bool;
  mutex : option tid;
  log : list event;
  observed_zero : list tid
}.

Record config : Type := mkConfig {
  cell : shared;
  pcs : gmap tid pc
}.

Inductive outcome : Type :=
  | Next (c : config)
  | Blocked          (* the mutex is held by another thread *)
  | Ended            (* no such thread, or its destructor has returned *)
  | Undefined.       (* an access to a destroyed cell *)

Section Destructor.
(** The pool [owner_] points to and the cell [counter_] points to. *)
Variables (p : pid) (a : addr).

(** One step of thread [t].  [--counter_->uses] on a
    [std::atomic<size_t>] is a single read-modify-write whose value is
    the new count, so decrement and test are one step. *)
Definition step (t : tid) (c : config) : outcome :=
  let m := cell c in
  match pcs c !! t with
  | None | Some Finished => Ended
  | Some AtDecrement =>
      if cell_live m then
        let n := pre_decrement (uses m) in
        if n =? 0 then
          Next (mkConfig
                  (mkShared n (cell_live m) (mutex m) (log m)
                            (t :: observed_zero m))
                  (<[t := AtLock]> (pcs c)))
        else
          Next (mkConfig
                  (mkShared n (cell_live m) (mutex m) (log m) (observed_zero m))
                  (<[t := AtReleaseOwner]> (pcs c)))
      else Undefined
  | Some AtLock =>
      match mutex m with
      | Some _ => Blocked
      | None =>
          Next (mkConfig
                  (mkShared (uses m) (cell_live m) (Some t)
                            (EvLock t p :: log m) (observed_zero m))
                  (<[t := AtDestroy]> (pcs c)))
      end
  | Some AtDestroy =>
      if cell_live m then
        Next (mkConfig
                (mkShared (uses m) false (mutex m)
                          (EvFree p a :: EvDtor p a :: log m) (observed_zero m))
                (<[t := AtUnlock]> (pcs c)))
      else Undefined
  | Some AtUnlock =>
      Next (mkConfig
              (mkShared (uses m) (cell_live m) None
                        (EvUnlock t p :: log m) (observed_zero m))
              (<[t := AtReleaseOwner]> (pcs c)))
  | Some AtReleaseOwner =>
      Next (mkConfig m (<[t := Finished]> (pcs c)))
  end.

(** A schedule names the thread that moves next. *)
Fixpoint run (sched : list tid) (c : config) : option config :=
  match sched with
  | [] => Some c
  | t :: sched' =>
      match step t c with
      | Next c' => run sched' c'
      | _ => None
      end
  end.
End Destructor.

(** The threads that have not decremented yet. *)
Definition waiting (c : config) : nat :=
  size (filter (λ kv, kv.2 = AtDecrement) (pcs c)).

(** Between the zero and the end of the release; holding the mutex;
    past [pool.destroy]. *)
Definition in_release (x : pc) : bool :=
  match x with AtLock | AtDestroy | AtUnlock => true | _ => false end.
Definition holds_lock (x : pc) : bool :=
  match x with AtDestroy | AtUnlock => true | _ => false end.
Definition after_destroy (x : pc) : bool :=
  match x with AtUnlock | AtReleaseOwner | Finished => true | _ => false end.

(** [n] live handles share the cell, and some of them are being
    destroyed, each by a thread of its own that has not started yet. *)
Definition starting (n : nat) (c : config) : bool :=
  (uses (cell c) =? N.of_nat n)
  && (N.of_nat n <? SIZE_MODULUS)
  && cell_live (cell c)
  && bool_decide (mutex (cell c) = None)
  && bool_decide (log (cell c) = [])
  && bool_decide (observed_zero (cell c) = [])
  && bool_decide (map_Forall (λ _ x, x = AtDecrement) (pcs c))
  && (size (pcs c) <=? n)%nat.

Record race_inv (p : pid) (a : addr) (n : nat) (c : config) : Prop := {
  race_threads : (size (pcs c) ≤ n)%nat;
  race_bound : N.of_nat n < SIZE_MODULUS;
  race_uses : uses (cell c) = N.of_nat (n + waiting c - size (pcs c));
  race_none : uses (cell c) ≠ 0 ∨ waiting c = size (pcs c) →
              observed_zero (cell c) = [];
  race_one : uses (cell c) = 0 → waiting c ≠ size (pcs c) →
             ∃ t x, observed_zero (cell c) = [t] ∧ pcs c !! t = Some x
                    ∧ x ≠ AtDecrement;
  race_release : ∀ t x, pcs c !! t = Some x → in_release x = true →
                 observed_zero (cell c) = [t];
  race_mutex : ∀ t, mutex (cell c) = Some t ↔
                    ∃ x, pcs c !! t = Some x ∧ holds_lock x = true;
  race_live : cell_live (cell c) = false ↔
              ∃ t x, observed_zero (cell c) = [t] ∧ pcs c !! t = Some x
                     ∧ after_destroy x = true;
  race_log : occurrences (EvDtor p a) (log (cell c))
             = (if cell_live (cell c) then 0 else 1)%nat
             ∧ occurrences (EvFree p a) (log (cell c))
               = (if cell_live (cell c) then 0 else 1)%nat
}.

(** Three handles share the cell [1] of pool [0]; the threads [1], [2] and
    [3] destroy one each. *)
Definition three_destructors : config :=
  mkConfig (mkShared 3 true None [] [])
           (<[1%nat := AtDecrement]>
              (<[2%nat := AtDecrement]> (<[3%nat := AtDecrement]> ∅))).

(** All three decrement before anything else happens; thread [3], whose
    decrement gave zero, releases the cell; then all return. *)
Definition decrements_first : list tid :=
  [1; 2; 3; 3; 3; 3; 3; 1; 2]%nat.

End Race.

(** ** The inline representation *)

Module Inline.
Import Classifier.

(** A value of an inline-eligible payload type: the object representation
    of a trivially copyable object, or a [std::shared_ptr], which is empty
    or shares ownership through the control block at some address. *)
Inductive payload : Type :=
  | Trivial (bits : N)
  | SharedPointer (block : option nat).

Definition has_type (T : cpp_type) (v : payload) : bool :=
  match T, v with
  | SharedPtr _, SharedPointer _ => true
  | Object _ true _, Trivial _ => true
  | Qualified _ T', Trivial _ => is_trivially_copyable_v T'
  | _, _ => false
  end.

(** The payload's copy constructor, on the use counts of the live control
    blocks: bitwise for a trivially copyable type;
    [shared_ptr(const shared_ptr &r)] yields an empty pointer for an empty
    [r] and otherwise shares ownership with [r], one more owner. *)
Definition copy_construct (v : payload) (w : gmap nat nat) : payload * gmap nat nat :=
  match v with
  | Trivial b => (Trivial b, w)
  | SharedPointer None => (SharedPointer None, w)
  | SharedPointer (Some b) => (SharedPointer (Some b), alter S b w)
  end.

(** [std::shared_ptr::use_count()]: the number of owners, [0] when empty. *)
Definition use_count (v : payload) (w : gmap nat nat) : nat :=
  match v with
  | SharedPointer (Some b) => default O (w !! b)
  | _ => O
  end.

(** [SmallImpl<T, std::enable_if_t<inlined_object_v<T>>>] (lines 96-113). *)
Record SmallImpl : Type := mkSmallImpl { data_ : payload }.

(** [explicit SmallImpl(Args... args) : data_(std::move(args)...)], [v]
    being the payload the arguments construct. *)
Definition SmallImpl_ctor (v : payload) : SmallImpl := mkSmallImpl v.

(** What a read hands out: an object of its own, or a reference to the
    object at some place. *)
Inductive access : Type :=
  | by_value (v : payload)
  | by_reference (place : nat).

(** [T data() const noexcept { return data_; }]: the returned object is
    copy-initialised from the member. *)
Definition data (this : SmallImpl) (w : gmap nat nat) : access * gmap nat nat :=
  let '(v, w') := copy_construct (data_ this) w in (by_value v, w').

(** [explicit operator T() const noexcept { return data_; }] *)
Definition operator_T (this : SmallImpl) (w : gmap nat nat) : access * gmap nat nat :=
  let '(v, w') := copy_construct (data_ this) w in (by_value v, w').

End Inline.

(** ** Programs of [main] *)

Module Scenarios.
Import Pooled.

Section Loop.
Context {V : Type}.

(** The loop of [bigTest] (lines 154-156):
    [for (i < n) { Small<T> s(args...); }], run by thread [t] with the
    handle in storage [h]. *)
Fixpoint bigTest_loop (T : cpp_type) (t : tid) (h : hid) (v : V) (n : nat)
    : list (op V) :=
  match n with
  | O => []
  | S n' => Construct T t h v :: Destroy t h :: bigTest_loop T t h v n'
  end.

(** The pool of thread [t] for [T] has a chunk on its free list. *)
Definition has_free_chunk (T : cpp_type) (t : tid) (s : state V) : Prop :=
  ∃ p P, tls s !! (T, t) = Some p ∧ pools s !! p = Some P ∧ free_list P ≠ [].

(** The state a run from [s] ends in ([s] itself if it does not return). *)
Definition after_run (os : list (op V)) (s : state V) : state V :=
  default s (run os s).
End Loop.

(** After [Small<std::string> s("kek");] (storage [10]): a second thread
    copies [s], and constructs and destroys a handle of its own. *)
Definition second_thread : list (op string) :=
  [Copy 1 11 10; Construct Classifier.std_string 1 12 "s1"%string; Destroy 1 12].

(** [Small<std::string>("lol")] (line 143) on the main thread, kept in
    storage [10]. *)
Definition lol_state : state string :=
  default (init 4)
    (exec (Construct Classifier.std_string 0 10 "lol"%string) (init 4)).

(** One round of [bigTest] on the main thread, from the start. *)
Definition one_round : state string :=
  after 4 (bigTest_loop Classifier.std_string 0 10 "s1"%string 1).

End Scenarios.

(** ** Copies and destructions racing on one cell *)

Module Sharing.
Import Pooled.

(** What a thread does, one after the other, with the handles it has on
    the cell: copy one ([Small<T> c(h);], line 64) or end the lifetime of
    one (lines 66-70). *)
Inductive action : Type :=
  | Dup
  | Drop.

(** Where a thread stands; between two points lies one access to shared
    memory. *)
Inductive pc : Type :=
  | Idle             (* between two actions *)
  | AtIncrement      (* copying: [owner_] is initialised; before [++item.counter_->uses] *)
  | AtLock           (* destroying: the decrement gave zero; before [std::lock_guard l(mutex)] *)
  | AtDestroy        (* holding the lock; before [pool.destroy(counter_)] *)
  | AtUnlock         (* before the guard's destructor *)
  | AtReleaseOwner.  (* the destructor's body is done; before [~owner_] *)

Global Instance action_eq_dec : EqDecision action.
Proof. solve_decision. Defined.
Global Instance sharing_pc_eq_dec : EqDecision pc.
Proof. solve_decision. Defined.

(** A thread: where it stands, how many complete handles on the cell it
    has, and what it still has to do. *)
Record thread : Type := mkThread {
  at_pc : pc;
  own : nat;
  todo : list action
}.

(** What the threads share: the cell's counter and whether the cell is
    still a constructed object; the use count of the
    [std::shared_ptr<ParallelPool<T>>] control block and whether the pool
    still exists; the holder of the pool's mutex; and, as a record of the
    run, the events so far and the threads whose decrement returned zero
    (both most recent first). *)
Record shared : Type := mkShared {
  uses : N;
  cell_live : bool;
  pool_count : nat;
  pool_live : bool;
  mutex : option tid;
  log : list event;
  observed_zero : list tid
}.

(** [pinned] handles on the cell stay alive during the race, in the hands
    of code that does not take part (as [shared] of [main], lines
    164-175); [locals] [thread_local] variables hold the pool. *)
Record config : Type := mkConfig {
  cell : shared;
  pinned : nat;
  locals : nat;
  threads : gmap tid thread
}.

Inductive outcome : Type :=
  | Next (c : config)
  | Blocked          (* the mutex is held by another thread *)
  | Ended            (* no such thread, or it has nothing left to do *)
  | Misuse           (* the thread's program uses a handle it does not have *)
  | Undefined.       (* an access to a destroyed cell or pool *)

Definition update (t : tid) (th : thread) (m : shared) (c : config) : config :=
  mkConfig m (pinned c) (locals c) (<[t := th]> (threads c)).

Section Handle.
(** The pool [owner_] points to and the cell [counter_] points to. *)
Variables (p : pid) (a : addr).

(** One step of thread [t].  The copy constructor initialises [owner_]
    (one atomic increment of the control block's use count) and then
    increments [uses]; the destructor decrements [uses] and tests the new
    value in one atomic operation, releases the cell if it is zero, and
    then destroys [owner_] (one atomic decrement of the use count, whose
    zero destroys the pool). *)
Definition step (t : tid) (c : config) : outcome :=
  let m := cell c in
  match threads c !! t with
  | None => Ended
  | Some th =>
      match at_pc th with
      | Idle =>
          match todo th with
          | [] => Ended
          | Dup :: rest =>
              if (own th =? 0)%nat && (pinned c =? 0)%nat then Misuse
              else if pool_live m then
                Next (update t (mkThread AtIncrement (own th) rest)
                        (mkShared (uses m) (cell_live m) (S (pool_count m))
                                  (pool_live m) (mutex m) (log m) (observed_zero m))
                        c)
              else Undefined
          | Drop :: rest =>
              match own th with
              | O => Misuse
              | S k =>
                  if cell_live m then
                    let n := pre_decrement (uses m) in
                    if n =? 0 then
                      Next (update t (mkThread AtLock k rest)
                              (mkShared n (cell_live m) (pool_count m)
                                        (pool_live m) (mutex m) (log m)
                                        (t :: observed_zero m))
                              c)
                    else
                      Next (update t (mkThread AtReleaseOwner k rest)
                              (mkShared n (cell_live m) (pool_count m)
                                        (pool_live m) (mutex m) (log m)
                                        (observed_zero m))
                              c)
                  else Undefined
              end
          end
      | AtIncrement =>
          if cell_live m then
            Next (update t (mkThread Idle (S (own th)) (todo th))
                    (mkShared (pre_increment (uses m)) (cell_live m) (pool_count m)
                              (pool_live m) (mutex m) (log m) (observed_zero m))
                    c)
          else Undefined
      | AtLock =>
          if pool_live m then
            match mutex m with
            | Some _ => Blocked
            | None =>
                Next (update t (mkThread AtDestroy (own th) (todo th))
                        (mkShared (uses m) (cell_live m) (pool_count m)
                                  (pool_live m) (Some t)
                                  (EvLock t p :: log m) (observed_zero m))
                        c)
            end
          else Undefined
      | AtDestroy =>
          if pool_live m && cell_live m then
            Next (update t (mkThread AtUnlock (own th) (todo th))
                    (mkShared (uses m) false (pool_count m)
                              (pool_live m) (mutex m)
                              (EvFree p a :: EvDtor p a :: log m) (observed_zero m))
                    c)
          else Undefined
      | AtUnlock =>
          if pool_live m then
            Next (update t (mkThread AtReleaseOwner (own th) (todo th))
                    (mkShared (uses m) (cell_live m) (pool_count m)
                              (pool_live m) None
                              (EvUnlock t p :: log m) (observed_zero m))
                    c)
          else Undefined
      | AtReleaseOwner =>
          if pool_live m then
            match pool_count m with
            | 1%nat =>
                Next (update t (mkThread Idle (own th) (todo th))
                        (mkShared (uses m) (cell_live m) O false (mutex m)
                                  (EvPoolDtor p :: log m) (observed_zero m))
                        c)
            | k =>
                Next (update t (mkThread Idle (own th) (todo th))
                        (mkShared (uses m) (cell_live m) (pred k)
                                  (pool_live m) (mutex m) (log m) (observed_zero m))
                        c)
            end
          else Undefined
      end
  end.

(** A schedule names the thread that moves next. *)
Fixpoint run (sched : list tid) (c : config) : option config :=
  match sched with
  | [] => Some c
  | t :: sched' =>
      match step t c with
      | Next c' => run sched' c'
      | _ => None
      end
  end.
End Handle.

(** The sum of [f] over the threads. *)
Definition total (f : thread → nat) (ths : gmap tid thread) : nat :=
  map_fold (λ _ th acc, (f th + acc)%nat) O ths.

(** The live handles on the cell, and the owners of the pool. *)
Definition live_handles (c : config) : nat :=
  (pinned c + total own (threads c))%nat.
Definition busy (th : thread) : nat :=
  match at_pc th with Idle => O | _ => 1%nat end.
Definition pool_owners (c : config) : nat :=
  (locals c + pinned c + total (λ th, own th + busy th)%nat (threads c))%nat.

(** The handles a thread has or can still come to have. *)
Definition potential (th : thread) : nat :=
  (own th + (if decide (at_pc th = AtIncrement) then 1 else 0)
   + count_occ action_eq_dec (todo th) Dup)%nat.

(** A program uses only handles the thread has at that point: a copy
    needs a source, the thread's own or a pinned one. *)
Fixpoint well_formed (pinned own : nat) (prog : list action) : bool :=
  match prog with
  | [] => true
  | Dup :: rest =>
      negb ((own =? 0)%nat && (pinned =? 0)%nat) && well_formed pinned (S own) rest
  | Drop :: rest =>
      match own with
      | O => false
      | S k => well_formed pinned k rest
      end
  end.

Definition well_formed_thread (pinned : nat) (th : thread) : bool :=
  match at_pc th with
  | AtIncrement =>
      negb ((own th =? 0)%nat && (pinned =? 0)%nat)
      && well_formed pinned (S (own th)) (todo th)
  | _ => well_formed pinned (own th) (todo th)
  end.

Definition in_release (x : pc) : bool :=
  match x with AtLock | AtDestroy | AtUnlock => true | _ => false end.
Definition holds_lock (x : pc) : bool :=
  match x with AtDestroy | AtUnlock => true | _ => false end.
Definition before_destroy (x : pc) : bool :=
  match x with AtLock | AtDestroy => true | _ => false end.

(** A bound on the steps a thread still takes: six for each action not
    yet started, and the rest of the action it is in. *)
Definition work (th : thread) : nat :=
  (6 * length (todo th)
   + match at_pc th with
     | Idle => 0
     | AtIncrement | AtReleaseOwner => 1
     | AtUnlock => 2
     | AtDestroy => 3
     | AtLock => 4
     end)%nat.

(** Nothing left to do. *)
Definition quiescent (c : config) : bool :=
  bool_decide (map_Forall (λ _ th, at_pc th = Idle ∧ todo th = []) (threads c)).

(** The cell is alive with as many handles as its counter says, the pool
    with as many owners as its count says, and no thread has started. *)
Definition starting (c : config) : bool :=
  (uses (cell c) =? N.of_nat (live_handles c))
  && negb (live_handles c =? 0)%nat
  && (N.of_nat (pinned c + total potential (threads c)) <? SIZE_MODULUS)
  && cell_live (cell c) && pool_live (cell c)
  && (pool_count (cell c) =? pool_owners c)%nat
  && bool_decide (mutex (cell c) = None)
  && bool_decide (log (cell c) = [])
  && bool_decide (observed_zero (cell c) = [])
  && bool_decide (map_Forall (λ _ th, at_pc th = Idle
                                       ∧ well_formed (pinned c) (own th) (todo th) = true)
                             (threads c)).

Record sharing_inv (p : pid) (a : addr) (c : config) : Prop := {
  sh_uses : uses (cell c) = N.of_nat (live_handles c);
  sh_bound : N.of_nat (pinned c + total potential (threads c)) < SIZE_MODULUS;
  sh_pool : pool_count (cell c) = pool_owners c;
  sh_pool_live : pool_live (cell c) = negb (pool_count (cell c) =? 0)%nat;
  sh_programs : ∀ t th, threads c !! t = Some th →
                well_formed_thread (pinned c) th = true;
  sh_alive : live_handles c ≠ O →
             observed_zero (cell c) = [] ∧ cell_live (cell c) = true;
  sh_quiet : observed_zero (cell c) = [] → log (cell c) = [];
  sh_zero : live_handles c = O →
            ∃ t th, observed_zero (cell c) = [t] ∧ threads c !! t = Some th
                    ∧ cell_live (cell c) = before_destroy (at_pc th);
  sh_release : ∀ t th, threads c !! t = Some th → in_release (at_pc th) = true →
               observed_zero (cell c) = [t] ∧ live_handles c = O;
  sh_mutex : ∀ t, mutex (cell c) = Some t ↔
                  ∃ th, threads c !! t = Some th ∧ holds_lock (at_pc th) = true;
  sh_log : occurrences (EvDtor p a) (log (cell c))
           = (if cell_live (cell c) then 0 else 1)%nat
           ∧ occurrences (EvFree p a) (log (cell c))
             = (if cell_live (cell c) then 0 else 1)%nat
           ∧ occurrences (EvPoolDtor p) (log (cell c))
             = (if pool_live (cell c) then 0 else 1)%nat
}.

(** [sharedTest] (lines 165-175): [main] keeps [shared]; two threads each
    make and destroy a temporary copy of it, twice. *)
Definition sharedTest : config :=
  mkConfig (mkShared 1 true 2 true None [] [])
           1 1
           (<[1%nat := mkThread Idle 0 [Dup; Drop; Dup; Drop]]>
              (<[2%nat := mkThread Idle 0 [Dup; Drop; Dup; Drop]]> ∅)).
Definition sharedTest_schedule : list tid :=
  [1; 2; 2; 1; 1; 2; 1; 2; 2; 1; 1; 1; 2; 2; 2; 1]%nat.

End Sharing.

(** ** Raw chunks: [ParallelPool::malloc] and [ParallelPool::free] *)

Module RawChunks.
Import Pooled.

Section Raw.
Context {V : Type}.

(** The program's state together with the chunks that [malloc] has handed
    out and that have not been given back: memory of the pool they come
    from, holding no object. *)
Record raw_state : Type := mkRaw {
  program : state V;
  raw : gmap addr pid
}.

(** [boost::object_pool::free]: the chunk goes back on the free list, in
    address order, and no destructor runs.  Only defined for a chunk of
    this pool that is in use, as raw memory or under an object. *)
Definition pool_free (p : pid) (a : addr) (r : raw_state) : option raw_state :=
  let s := program r in
  P ← pools s !! p;
  let P' := set_free_list (ordered_free a (free_list P)) P in
  if bool_decide (raw r !! a = Some p) then
    Some (mkRaw (emit (EvFree p a) (with_pools <[p := P']> s)) (delete a (raw r)))
  else
    c ← mem s !! a;
    if bool_decide (owner c = p) then
      Some (mkRaw (emit (EvFree p a)
                     (with_pools <[p := P']> (with_mem (delete a) s)))
                  (raw r))
    else None.

(** [ParallelPool::malloc] (lines 34-38). *)
Definition ParallelPool_malloc (t : tid) (p : pid) (r : raw_state)
    : option (option addr * raw_state) :=
  s1 ← lock t p (program r);
  '(ret, s2) ← pool_malloc p s1;
  s3 ← unlock t p s2;
  Some (ret, mkRaw s3 (match ret with
                       | Some a => <[a := p]> (raw r)
                       | None => raw r
                       end)).

(** [ParallelPool::free] (lines 22-26). *)
Definition ParallelPool_free (t : tid) (p : pid) (a : addr) (r : raw_state)
    : option raw_state :=
  s1 ← lock t p (program r);
  r2 ← pool_free p a (mkRaw s1 (raw r));
  s3 ← unlock t p (program r2);
  Some (mkRaw s3 (raw r2)).

End Raw.

Arguments raw_state : clear implicits.

(** After [Small<std::string> s("kek");] in [main]: a [malloc] on the
    pool of the main thread, and a second one. *)
Definition kek_raw : raw_state string := mkRaw (after 4 kek_ops) ∅.
Definition kek_malloc : option addr * raw_state string :=
  default (None, kek_raw) (ParallelPool_malloc 0 0 kek_raw).
Definition kek_malloc_again : option addr * raw_state string :=
  default (None, kek_raw) (ParallelPool_malloc 1 0 kek_malloc.2).

End RawChunks.

(** * Properties of the program *)

(** ** The classifier *)

Section ClassifierFacts.
Import Classifier.
Variable sizeof_shared_ptr : cpp_type -> N.

Lemma matching_specializations_short (T : cpp_type) :
  (length (matching_specializations sizeof_shared_ptr T) <= 1)%nat.
Proof.
  destruct T as [n tc sz|U|q T']; unfold matching_specializations; simpl.
  - destruct (tc && (sz <=? MAX_SMALL_SIZE)); simpl; lia.
  - lia.
  - case_match; simpl; lia.
Qed.

(** A type with a qualifier is classified by the first specialisation
    alone. *)
Lemma Small_Qualified (q : cv_qualifier) (T : cpp_type) :
  Small sizeof_shared_ptr (Qualified q T)
  = Some (if is_trivially_copyable_v T
             && (sizeof sizeof_shared_ptr T <=? 64)
          then inline else pooled).
Proof.
  unfold Small, inlined_object_v, inlined_object, matching_specializations.
  simpl. change MAX_SMALL_SIZE with 64.
  by destruct (is_trivially_copyable_v T && (sizeof sizeof_shared_ptr T <=? 64)).
Qed.

Lemma not_trivially_copyable_shared_handle (T : cpp_type) :
  shared_handle_type T = true → is_trivially_copyable_v T = false.
Proof.
  unfold shared_handle_type.
  induction T as [n tc sz|U _|q T' IH]; simpl; [done|done|exact IH].
Qed.

(** C1: for every payload type the facade resolves to exactly one
    representation, and its flag [Small<T>::inlined] is true exactly when
    [T] is trivially copyable with [sizeof(T) <= 64], or [T] is
    [std::shared_ptr<U>] itself, without [const] or [volatile], whatever
    its size; every other type gets the pooled representation, among them
    every const- or volatile-qualified [std::shared_ptr].  The bound is
    64 bytes: a trivially copyable type of 64 bytes is inline, one of 65
    pooled; and of the types [main] instantiates, [int], [tt] and
    [std::shared_ptr<tt>] are inline, [std::string] and [CopyCounter]
    pooled. *)
Theorem Small_inlined_iff (T : cpp_type) :
  ∃ r : representation,
    Small sizeof_shared_ptr T = Some r
    ∧ (inlined r = true ↔
         (is_trivially_copyable_v T = true
          ∧ sizeof sizeof_shared_ptr T <= 64)
         ∨ (∃ U, T = SharedPtr U))
    ∧ (r = inline ∨ r = pooled)
    ∧ (r = pooled ↔ inlined r = false)
    ∧ (shared_handle_type T = true →
         (r = inline ↔ ∃ U, T = SharedPtr U)
         ∧ (r = pooled ↔ ∃ q T', T = Qualified q T'))
    ∧ (∀ name,
         Small sizeof_shared_ptr (Object name true 64) = Some inline
         ∧ Small sizeof_shared_ptr (Object name true 65) = Some pooled
         ∧ Small sizeof_shared_ptr (Object name false 1) = Some pooled)
    ∧ Small sizeof_shared_ptr int = Some inline
    ∧ Small sizeof_shared_ptr tt = Some inline
    ∧ Small sizeof_shared_ptr (SharedPtr tt) = Some inline
    ∧ Small sizeof_shared_ptr std_string = Some pooled
    ∧ Small sizeof_shared_ptr CopyCounter = Some pooled.
Proof.
  assert (∃ r : representation,
            Small sizeof_shared_ptr T = Some r
            ∧ (inlined r = true ↔
                 (is_trivially_copyable_v T = true
                  ∧ sizeof sizeof_shared_ptr T <= 64)
                 ∨ (∃ U, T = SharedPtr U))
            ∧ (r = inline ∨ r = pooled)
            ∧ (r = pooled ↔ inlined r = false)
            ∧ (shared_handle_type T = true →
                 (r = inline ↔ ∃ U, T = SharedPtr U)
                 ∧ (r = pooled ↔ ∃ q T', T = Qualified q T')))
    as (r & Hr & Hiff & Hcases & Hpooled & Hshared).
  { destruct T as [n tc sz|U|q T'].
    - unfold Small, inlined_object_v, inlined_object, matching_specializations.
      simpl. change MAX_SMALL_SIZE with 64. destruct tc; simpl.
      + destruct (N.leb_spec sz 64) as [Hle|Hgt]; simpl.
        * exists inline. split_and!; [done| |by left|done|done].
          split; [intros _; left; done|done].
        * exists pooled. split_and!; [done| |by right|done|done].
          split; [done|]. intros [[_ Hle]|[U HU]]; [lia|done].
      + exists pooled. split_and!; [done| |by right|done|done].
        split; [done|]. intros [[Htc _]|[U HU]]; done.
    - exists inline. split_and!; [done| |by left|done|].
      + split; [intros _; right; by exists U|done].
      + intros _. split; [split; [by exists U|done]|].
        split; [done|]. by intros (q & T' & ?).
    - rewrite Small_Qualified. simpl.
      destruct (is_trivially_copyable_v T') eqn:Htc; simpl.
      + destruct (N.leb_spec (sizeof sizeof_shared_ptr T') 64) as [Hle|Hgt].
        * exists inline. split_and!; [done| |by left|done|].
          -- split; [intros _; by left|done].
          -- intros Hsh. apply not_trivially_copyable_shared_handle in Hsh.
             simpl in Hsh. congruence.
        * exists pooled. split_and!; [done| |by right|done|].
          -- split; [done|]. intros [[_ Hle]|[U HU]]; [lia|done].
          -- intros _. split; [split; [done|by intros (U & ?)]|].
             split; [by exists q, T'|done].
      + exists pooled. split_and!; [done| |by right|done|].
        * split; [done|]. intros [[? _]|[U HU]]; done.
        * intros _. split; [split; [done|by intros (U & ?)]|].
          split; [by exists q, T'|done]. }
  exists r. split_and!; try done.
Qed.

(** The flag is not true of every shared handle type: the code pools
    [const std::shared_ptr<tt>], which the partial specialisation for
    [std::shared_ptr<T>] does not match. *)
Lemma const_shared_ptr_is_pooled :
  shared_handle_type (Qualified cv_const (SharedPtr tt)) = true
  ∧ Small (λ _, 16) (Qualified cv_const (SharedPtr tt)) = Some pooled
  ∧ inlined pooled = false.
Proof. split_and!; reflexivity. Qed.

End ClassifierFacts.

(** ** Counting the entries of a finite map that satisfy a predicate *)

Section FilterSize.
Context `{Countable K} {A : Type}.
Context (P : K * A → Prop) `{!∀ x, Decision (P x)}.
Implicit Types m : gmap K A.
Local Open Scope nat_scope.

Lemma size_filter_insert m k x :
  m !! k = None →
  size (filter P (<[k := x]> m))
  = size (filter P m) + (if decide (P (k, x)) then 1 else 0).
Proof.
  intros Hk. rewrite map_filter_insert. case_decide.
  - rewrite map_size_insert_None; [lia|].
    apply map_lookup_filter_None. by left.
  - by rewrite delete_id, Nat.add_0_r.
Qed.

Lemma size_filter_delete m k x :
  m !! k = Some x →
  size (filter P m)
  = size (filter P (delete k m)) + (if decide (P (k, x)) then 1 else 0).
Proof.
  intros Hk. rewrite <-(insert_delete_id m k x) at 1 by done.
  apply size_filter_insert, lookup_delete_eq.
Qed.

Lemma size_filter_update m k x y :
  m !! k = Some x → (P (k, x) ↔ P (k, y)) →
  size (filter P (<[k := y]> m)) = size (filter P m).
Proof.
  intros Hk HP. rewrite <-insert_delete_eq.
  rewrite size_filter_insert by apply lookup_delete_eq.
  rewrite (size_filter_delete m k x) by done.
  repeat case_decide; tauto || lia.
Qed.

Lemma size_filter_zero m :
  size (filter P m) = 0 ↔ ∀ k x, m !! k = Some x → ¬ P (k, x).
Proof. rewrite map_size_empty_iff, map_empty_filter. done. Qed.

Lemma size_filter_pos m k x :
  m !! k = Some x → P (k, x) → size (filter P m) ≠ 0.
Proof. intros Hk HP Hz. by eapply size_filter_zero. Qed.

Lemma size_filter_witness m :
  size (filter P m) ≠ 0 → ∃ k x, m !! k = Some x ∧ P (k, x).
Proof.
  intros Hn. apply map_size_ne_0_lookup in Hn as [k [x Hx]].
  apply map_lookup_filter_Some in Hx as [Hk HP]. eauto.
Qed.

Lemma size_filter_le m : size (filter P m) ≤ size m.
Proof. apply map_subseteq_size, map_filter_subseteq. Qed.

Lemma size_filter_one m k x :
  m !! k = Some x → P (k, x) → size (filter P m) = 1 →
  ∀ k' x', m !! k' = Some x' → P (k', x') → k' = k.
Proof.
  intros Hk HP Hone k' x' Hk' HP'.
  destruct (decide (k' = k)) as [|Hne]; [done|exfalso].
  rewrite (size_filter_delete m k x), decide_True in Hone by done.
  assert (size (filter P (delete k m)) ≠ 0); [|lia].
  eapply size_filter_pos; [|exact HP']. by rewrite lookup_delete_ne.
Qed.
End FilterSize.

(** Fewer than [n] distinct positive numbers lie below [n]. *)
Lemma size_bounded_keys {A} (m : gmap nat A) (n : nat) :
  (∀ k x, m !! k = Some x → k ≠ O ∧ (k < n)%nat) → (size m < n ∨ m = ∅)%nat.
Proof.
  intros Hm. destruct n as [|n].
  { right. apply map_empty. intros k. destruct (m !! k) eqn:E; [|done].
    destruct (Hm _ _ E). lia. }
  left. rewrite <-size_dom.
  assert (dom m ⊆ (set_seq 1 n : gset nat)) as Hsub.
  { intros k Hk. apply elem_of_dom in Hk as [x Hx].
    destruct (Hm _ _ Hx). apply elem_of_set_seq. lia. }
  apply subseteq_size in Hsub. rewrite size_set_seq in Hsub. lia.
Qed.

Section FilterReplace.
Context `{Countable K} {A : Type}.
Context (P : K * A → Prop) `{!∀ x, Decision (P x)}.
Local Open Scope nat_scope.

Lemma size_filter_replace (m : gmap K A) k x y :
  m !! k = Some x →
  size (filter P (<[k := y]> m)) + (if decide (P (k, x)) then 1 else 0)
  = size (filter P m) + (if decide (P (k, y)) then 1 else 0).
Proof.
  intros Hk. rewrite <-insert_delete_eq.
  rewrite size_filter_insert by apply lookup_delete_eq.
  rewrite (size_filter_delete P m k x) by done. lia.
Qed.
End FilterReplace.

Lemma returns_default {A} (d : A) (r : option A) :
  returns r = true → r = Some (default d r).
Proof. by destruct r. Qed.

(** ** The pooled machine keeps its invariant *)

Module PooledFacts.
Import Pooled.

Section Facts.
Context {V : Type}.
Implicit Types s : state V.
Implicit Types hs : gmap hid SmallImpl.
Implicit Types tl : gmap (cpp_type * tid) pid.
Local Open Scope nat_scope.

Lemma refs_insert a hs h i :
  hs !! h = None →
  refs a (<[h := i]> hs)
  = refs a hs + (if decide (counter_ i = Some a) then 1 else 0).
Proof. intros. unfold refs. by rewrite size_filter_insert. Qed.

Lemma refs_delete a hs h i :
  hs !! h = Some i →
  refs a hs
  = refs a (delete h hs) + (if decide (counter_ i = Some a) then 1 else 0).
Proof. intros. unfold refs. by rewrite (size_filter_delete _ hs h i). Qed.

Lemma owners_insert p hs h i :
  hs !! h = None →
  owners p (<[h := i]> hs)
  = owners p hs + (if decide (owner_ i = p) then 1 else 0).
Proof. intros. unfold owners. by rewrite size_filter_insert. Qed.

Lemma owners_delete p hs h i :
  hs !! h = Some i →
  owners p hs
  = owners p (delete h hs) + (if decide (owner_ i = p) then 1 else 0).
Proof. intros. unfold owners. by rewrite (size_filter_delete _ hs h i). Qed.

Lemma locals_insert p tl k q :
  tl !! k = None →
  locals p (<[k := q]> tl) = locals p tl + (if decide (q = p) then 1 else 0).
Proof. intros. unfold locals. by rewrite size_filter_insert. Qed.

Lemma locals_delete p tl k q :
  tl !! k = Some q →
  locals p tl = locals p (delete k tl) + (if decide (q = p) then 1 else 0).
Proof. intros. unfold locals. by rewrite (size_filter_delete _ tl k q). Qed.

Lemma refs_zero a hs :
  (∀ h i, hs !! h = Some i → counter_ i ≠ Some a) → refs a hs = 0.
Proof. intros Hn. apply size_filter_zero. intros h i Hh. exact (Hn h i Hh). Qed.

Lemma owners_zero p hs :
  (∀ h i, hs !! h = Some i → owner_ i ≠ p) → owners p hs = 0.
Proof. intros Hn. apply size_filter_zero. intros h i Hh. exact (Hn h i Hh). Qed.

Lemma locals_zero p tl :
  (∀ k q, tl !! k = Some q → q ≠ p) → locals p tl = 0.
Proof. intros Hn. apply size_filter_zero. intros k q Hk. exact (Hn k q Hk). Qed.

Lemma refs_pos a hs h i :
  hs !! h = Some i → counter_ i = Some a → refs a hs ≠ 0.
Proof. intros Hh Hc. by eapply (size_filter_pos _ hs h i). Qed.

Lemma refs_witness a hs :
  refs a hs ≠ 0 → ∃ h i, hs !! h = Some i ∧ counter_ i = Some a.
Proof. apply size_filter_witness. Qed.

Lemma owners_pos p hs h i :
  hs !! h = Some i → owner_ i = p → owners p hs ≠ 0.
Proof. intros Hh Hc. by eapply (size_filter_pos _ hs h i). Qed.

Lemma locals_pos p tl k :
  tl !! k = Some p → locals p tl ≠ 0.
Proof. intros Hk. by eapply (size_filter_pos _ tl k p). Qed.

Lemma refs_le_size a hs : refs a hs ≤ size hs.
Proof. apply size_filter_le. Qed.

(** The live handles are fewer than [2^64]. *)
Lemma SIZE_MODULUS_eq : SIZE_MODULUS = 18446744073709551616%N.
Proof. reflexivity. Qed.

Lemma handles_bounded s :
  handles_ok s → (N.of_nat (size (handles s)) < SIZE_MODULUS)%N.
Proof.
  intros [Hst _ _].
  assert (∀ h i, handles s !! h = Some i → h ≠ 0 ∧ h < N.to_nat SIZE_MODULUS)
    as Hkeys.
  { intros h i Hh. destruct (Hst _ _ Hh). lia. }
  destruct (size_bounded_keys _ _ Hkeys) as [Hlt|He].
  - lia.
  - rewrite He, map_size_empty, SIZE_MODULUS_eq. lia.
Qed.

Lemma init_inv limit : inv (init (V := V) limit).
Proof.
  split; split; simpl; try (intros; simplify_map_eq; done); lia.
Qed.


Lemma pre_decrement_of_nat n :
  1 ≤ n → (N.of_nat n < SIZE_MODULUS)%N →
  pre_decrement (N.of_nat n) = N.of_nat (n - 1).
Proof.
  intros H1 H2. unfold pre_decrement.
  replace (N.of_nat n + (SIZE_MODULUS - 1))%N
    with (N.of_nat (n - 1) + 1 * SIZE_MODULUS)%N
    by (rewrite SIZE_MODULUS_eq in *; lia).
  rewrite N.Div0.mod_add. apply N.mod_small. lia.
Qed.

Lemma pre_increment_of_nat n :
  (N.of_nat (S n) < SIZE_MODULUS)%N →
  pre_increment (N.of_nat n) = N.of_nat (S n).
Proof.
  intros H2. unfold pre_increment.
  rewrite N.mod_small; lia.
Qed.

Lemma live_handle s h i a :
  inv s → handles s !! h = Some i → counter_ i = Some a →
  ∃ c P,
    mem s !! a = Some c ∧ owner c = owner_ i
    ∧ pools s !! owner_ i = Some P ∧ mutex P = false
    ∧ uses (obj c) = N.of_nat (refs a (handles s))
    ∧ 1 ≤ refs a (handles s)
    ∧ (N.of_nat (refs a (handles s)) < SIZE_MODULUS)%N
    ∧ use_count P = owners (owner_ i) (handles s) + locals (owner_ i) (tls s)
    ∧ 1 ≤ owners (owner_ i) (handles s).
Proof.
  intros [Hh Hc Hp _] Hi Ha.
  destruct (handle_counter _ Hh _ _ _ Hi Ha) as (c & Hm & Ho).
  destruct (handle_owner _ Hh _ _ Hi) as [P HP].
  exists c, P. split_and!; try done.
  - eapply pool_unlocked; eauto.
  - eapply cell_uses; eauto.
  - pose proof (refs_pos _ _ _ _ Hi Ha). lia.
  - pose proof (handles_bounded _ Hh). pose proof (refs_le_size a (handles s)). lia.
  - eapply pool_use_count; eauto.
  - pose proof (owners_pos (owner_ i) _ _ _ Hi eq_refl). lia.
Qed.


Lemma occurrences_cons e e' (l : list event) :
  occurrences e (e' :: l)
  = (if decide (e' = e) then 1 else 0) + occurrences e l.
Proof.
  unfold occurrences. simpl. destruct (event_eq_dec e' e) as [->|Hne].
  - by rewrite decide_True.
  - by rewrite decide_False.
Qed.

Lemma occurrences_cons_ne e e' (l : list event) :
  e' ≠ e → occurrences e (e' :: l) = occurrences e l.
Proof. intros. by rewrite occurrences_cons, decide_False. Qed.

Ltac log_tac :=
  repeat first [ rewrite occurrences_cons_ne by discriminate
               | rewrite occurrences_cons ];
  repeat case_decide; simplify_eq; try congruence; try lia.

Lemma elem_of_ordered_free x a (l : list nat) :
  x ∈ ordered_free a l ↔ x = a ∨ x ∈ l.
Proof.
  induction l as [|b l IH]; simpl.
  - rewrite list_elem_of_singleton, elem_of_nil. tauto.
  - destruct (a <? b).
    + by rewrite (elem_of_cons (b :: l)).
    + rewrite !elem_of_cons, IH. tauto.
Qed.

Lemma NoDup_ordered_free a (l : list nat) :
  a ∉ l → NoDup l → NoDup (ordered_free a l).
Proof.
  induction l as [|b l IH]; simpl; intros Ha Hnd.
  - apply NoDup_singleton.
  - destruct (a <? b); [by constructor|].
    inversion_clear Hnd as [|? ? Hb Hnd'].
    apply not_elem_of_cons in Ha as [? ?].
    constructor; [|by apply IH].
    rewrite elem_of_ordered_free. intros [->|?]; done.
Qed.

Lemma pool_dtor_clean p s :
  (∀ a c, mem s !! a = Some c → owner c ≠ p) →
  ParallelPool_dtor p s
  = mkState (tls s) (delete p (pools s)) (mem s) (handles s)
            (next_pool s) (brk s) (heap_limit s) (EvPoolDtor p :: log s).
Proof.
  intros Hnone. unfold ParallelPool_dtor.
  assert (filter (λ kv, owner kv.2 = p) (mem s) = ∅) as ->.
  { apply map_empty_filter. intros a c Hc. simpl. by eapply Hnone. }
  rewrite map_to_list_empty. simpl. f_equal.
  apply map_filter_id. intros a c Hc. simpl. by eapply Hnone.
Qed.

Lemma thread_local_init_inv T t s : inv s → inv (thread_local_init T t s).
Proof.
  intros Hinv. unfold thread_local_init.
  destruct (tls s !! (T, t)) as [p|] eqn:Htl; [done|].
  destruct Hinv as [Hh Hc Hp Hl].
  assert (pools s !! next_pool s = None) as Hfresh.
  { destruct (pools s !! next_pool s) as [P|] eqn:E; [|done].
    apply (pool_below_next _ Hp) in E. lia. }
  assert (owners (next_pool s) (handles s) = 0) as Hown.
  { apply owners_zero. intros h i Hi Heq.
    destruct (handle_owner _ Hh _ _ Hi) as [P HP]. congruence. }
  assert (locals (next_pool s) (tls s) = 0) as Hloc.
  { apply locals_zero. intros [T' t'] q Hq Heq.
    destruct (pool_local _ Hp _ _ _ Hq) as (P & HP & _). congruence. }
  split; split; simpl.
  - apply Hh.
  - intros h i Hi. apply lookup_insert_is_Some'. right.
    eapply handle_owner; eauto.
  - apply Hh.
  - apply Hc.
  - apply Hc.
  - apply Hc.
  - apply Hc.
  - intros p P [[<- <-]|[Hne HP]]%lookup_insert_Some; simpl.
    + rewrite locals_insert, decide_True by done. lia.
    + rewrite locals_insert, decide_False by done.
      rewrite (pool_use_count _ Hp _ _ HP). lia.
  - intros p P [[<- <-]|[Hne HP]]%lookup_insert_Some; simpl; [done|].
    eapply pool_unlocked; eauto.
  - intros p P [[<- <-]|[Hne HP]]%lookup_insert_Some; simpl; [lia|].
    apply (pool_below_next _ Hp) in HP. lia.
  - intros p P [[<- <-]|[Hne HP]]%lookup_insert_Some; simpl; [constructor|].
    eapply pool_free_NoDup; eauto.
  - intros p P a [[<- <-]|[Hne HP]]%lookup_insert_Some; simpl.
    + by intros ?%elem_of_nil.
    + eapply pool_free_chunk; eauto.
  - intros p1 p2 P1 P2 a Hne [[<- <-]|[Hne1 HP1]]%lookup_insert_Some
      [[<- <-]|[Hne2 HP2]]%lookup_insert_Some; simpl;
      try (by intros ?%elem_of_nil); try (intros _; by intros ?%elem_of_nil).
    exact (pool_free_disjoint _ Hp _ _ _ _ a Hne HP1 HP2).
  - intros T' t' p [[[= <- <-] <-]|[Hne Hq]]%lookup_insert_Some.
    + eexists. rewrite lookup_insert_eq. done.
    + destruct (pool_local _ Hp _ _ _ Hq) as (P & HP & ?).
      exists P. rewrite lookup_insert_ne by congruence. done.
  - intros p a. log_tac. apply Hl.
  - intros p a. log_tac. apply Hl.
Qed.

(** A handle never refers to a chunk that holds no cell. *)
Lemma refs_unconstructed s a :
  handles_ok s → mem s !! a = None → refs a (handles s) = 0.
Proof.
  intros Hh Hm. apply refs_zero. intros h i Hi Ha.
  destruct (handle_counter _ Hh _ _ _ Hi Ha) as (c & Hc & _). congruence.
Qed.

Lemma alloc_inv s p P a fl' brk' t h v :
  inv s → pools s !! p = Some P →
  handles s !! h = None → h ≠ 0 → (N.of_nat h < SIZE_MODULUS)%N →
  mem s !! a = None → a < brk' → brk s ≤ brk' →
  fl' ⊆ free_list P → NoDup fl' → a ∉ fl' →
  (∀ p' P', p' ≠ p → pools s !! p' = Some P' → a ∉ free_list P') →
  inv (mkState (tls s)
         (<[p := mkParallelPool (elem P) (home P) (S (use_count P)) fl' false]>
            (pools s))
         (<[a := mkCell p (mkAtomicCounter v 1)]> (mem s))
         (<[h := mkSmallImpl p (Some a)]> (handles s))
         (next_pool s) brk' (heap_limit s)
         (EvUnlock t p :: EvNew p a :: EvLock t p :: log s)).
Proof.
  intros [Hh Hc Hp Hl] HP Hfresh Hh0 Hhb Ha Habrk Hbrk Hsub Hnd Hafl Hother.
  pose proof (refs_unconstructed _ a Hh Ha) as Hrefs.
  split; split; simpl.
  - intros h' i [[<- <-]|[Hne Hi]]%lookup_insert_Some; [done|].
    eapply handle_storage; eauto.
  - intros h' i [[<- <-]|[Hne Hi]]%lookup_insert_Some; simpl;
      apply lookup_insert_is_Some'; [by left|right].
    eapply handle_owner; eauto.
  - intros h' i a' [[<- <-]|[Hne Hi]]%lookup_insert_Some Ha'; simpl in *.
    + simplify_eq. rewrite lookup_insert_eq. eauto.
    + destruct (handle_counter _ Hh _ _ _ Hi Ha') as (c & Hc' & Ho).
      exists c. rewrite lookup_insert_ne by congruence. done.
  - intros a' c [[<- <-]|[Hne Hc']]%lookup_insert_Some; simpl.
    + rewrite refs_insert, decide_True, Hrefs by done. done.
    + rewrite refs_insert, decide_False by (simpl; congruence).
      rewrite (cell_uses _ Hc _ _ Hc'). f_equal. lia.
  - intros a' c [[<- <-]|[Hne Hc']]%lookup_insert_Some; simpl.
    + rewrite refs_insert, decide_True by done. lia.
    + rewrite refs_insert by done.
      pose proof (cell_referenced _ Hc _ _ Hc'). lia.
  - intros a' c [[<- <-]|[Hne Hc']]%lookup_insert_Some; [done|].
    pose proof (cell_below_brk _ Hc _ _ Hc'). lia.
  - pose proof (brk_positive _ Hc). lia.
  - intros p' P' [[<- <-]|[Hne HP']]%lookup_insert_Some; simpl.
    + rewrite owners_insert, decide_True by done.
      rewrite (pool_use_count _ Hp _ _ HP). lia.
    + rewrite owners_insert, decide_False by (simpl; congruence).
      rewrite (pool_use_count _ Hp _ _ HP'). lia.
  - intros p' P' [[<- <-]|[Hne HP']]%lookup_insert_Some; simpl; [done|].
    eapply pool_unlocked; eauto.
  - intros p' P' [[<- <-]|[Hne HP']]%lookup_insert_Some; simpl;
      eapply pool_below_next; eauto.
  - intros p' P' [[<- <-]|[Hne HP']]%lookup_insert_Some; simpl; [done|].
    eapply pool_free_NoDup; eauto.
  - intros p' P' a' [[<- <-]|[Hne HP']]%lookup_insert_Some Hin; simpl in *.
    + destruct (pool_free_chunk _ Hp _ _ a' HP (Hsub _ Hin)) as [? ?].
      split; [lia|]. rewrite lookup_insert_ne; [done|]. intros <-. done.
    + destruct (pool_free_chunk _ Hp _ _ a' HP' Hin) as [? ?].
      split; [lia|]. rewrite lookup_insert_ne; [done|]. intros <-.
      by eapply Hother.
  - intros p1 p2 P1 P2 a' Hne [[<- <-]|[Hne1 HP1]]%lookup_insert_Some
      [[<- <-]|[Hne2 HP2]]%lookup_insert_Some; simpl; try done.
    + intros Hin. exact (pool_free_disjoint _ Hp _ _ _ _ a' Hne HP HP2 (Hsub _ Hin)).
    + intros Hin Hin'.
      exact (pool_free_disjoint _ Hp _ _ _ _ a' Hne HP1 HP Hin (Hsub _ Hin')).
    + exact (pool_free_disjoint _ Hp _ _ _ _ a' Hne HP1 HP2).
  - intros T' t' q Hq. destruct (pool_local _ Hp _ _ _ Hq) as (P' & HP' & ? & ?).
    destruct (decide (q = p)) as [->|Hne].
    + rewrite lookup_insert_eq. simplify_eq. by eexists.
    + rewrite lookup_insert_ne by done. eauto.
  - intros p' a'. pose proof (log_new_free _ Hl p' a') as Hnf.
    unfold constructed in *. simpl.
    destruct (decide (a' = a)) as [->|Hne].
    + rewrite lookup_insert_eq. rewrite Ha in Hnf. simpl.
      log_tac.
    + rewrite lookup_insert_ne by done. log_tac.
  - intros p' a'. pose proof (log_dtor_free _ Hl p' a'). log_tac.
Qed.

Lemma null_handle_inv s p P t h :
  inv s → pools s !! p = Some P →
  handles s !! h = None → h ≠ 0 → (N.of_nat h < SIZE_MODULUS)%N →
  inv (mkState (tls s)
         (<[p := mkParallelPool (elem P) (home P) (S (use_count P))
                   (free_list P) false]> (pools s))
         (mem s)
         (<[h := mkSmallImpl p None]> (handles s))
         (next_pool s) (brk s) (heap_limit s)
         (EvUnlock t p :: EvLock t p :: log s)).
Proof.
  intros [Hh Hc Hp Hl] HP Hfresh Hh0 Hhb.
  split; split; simpl.
  - intros h' i [[<- <-]|[Hne Hi]]%lookup_insert_Some; [done|].
    eapply handle_storage; eauto.
  - intros h' i [[<- <-]|[Hne Hi]]%lookup_insert_Some; simpl;
      apply lookup_insert_is_Some'; [by left|right].
    eapply handle_owner; eauto.
  - intros h' i a' [[<- <-]|[Hne Hi]]%lookup_insert_Some Ha'; simpl in *;
      [done|]. eapply handle_counter; eauto.
  - intros a' c Hc'. rewrite refs_insert, decide_False by done.
    rewrite (cell_uses _ Hc _ _ Hc'). f_equal. lia.
  - intros a' c Hc'. rewrite refs_insert by done.
    pose proof (cell_referenced _ Hc _ _ Hc'). lia.
  - apply Hc.
  - apply Hc.
  - intros p' P' [[<- <-]|[Hne HP']]%lookup_insert_Some; simpl.
    + rewrite owners_insert, decide_True by done.
      rewrite (pool_use_count _ Hp _ _ HP). lia.
    + rewrite owners_insert, decide_False by (simpl; congruence).
      rewrite (pool_use_count _ Hp _ _ HP'). lia.
  - intros p' P' [[<- <-]|[Hne HP']]%lookup_insert_Some; simpl; [done|].
    eapply pool_unlocked; eauto.
  - intros p' P' [[<- <-]|[Hne HP']]%lookup_insert_Some; simpl;
      eapply pool_below_next; eauto.
  - intros p' P' [[<- <-]|[Hne HP']]%lookup_insert_Some; simpl;
      eapply pool_free_NoDup; eauto.
  - intros p' P' a' [[<- <-]|[Hne HP']]%lookup_insert_Some Hin; simpl in *;
      eapply pool_free_chunk; eauto.
  - intros p1 p2 P1 P2 a' Hne [[<- <-]|[Hne1 HP1]]%lookup_insert_Some
      [[<- <-]|[Hne2 HP2]]%lookup_insert_Some; simpl; try done.
    + exact (pool_free_disjoint _ Hp _ _ _ _ a' Hne HP HP2).
    + exact (pool_free_disjoint _ Hp _ _ _ _ a' Hne HP1 HP).
    + exact (pool_free_disjoint _ Hp _ _ _ _ a' Hne HP1 HP2).
  - intros T' t' q Hq. destruct (pool_local _ Hp _ _ _ Hq) as (P' & HP' & ? & ?).
    destruct (decide (q = p)) as [->|Hne].
    + rewrite lookup_insert_eq. simplify_eq. by eexists.
    + rewrite lookup_insert_ne by done. eauto.
  - intros p' a'. pose proof (log_new_free _ Hl p' a') as Hnf.
    unfold constructed in *. simpl. log_tac.
  - intros p' a'. pose proof (log_dtor_free _ Hl p' a'). log_tac.
Qed.

Lemma copy_inv s h item i a c P :
  inv s → handles s !! item = Some i → counter_ i = Some a →
  mem s !! a = Some c → pools s !! owner_ i = Some P →
  handles s !! h = None → h ≠ 0 → (N.of_nat h < SIZE_MODULUS)%N →
  inv (mkState (tls s)
         (<[owner_ i := set_use_count (S (use_count P)) P]> (pools s))
         (<[a := set_uses (pre_increment (uses (obj c))) c]> (mem s))
         (<[h := mkSmallImpl (owner_ i) (counter_ i)]> (handles s))
         (next_pool s) (brk s) (heap_limit s) (log s)).
Proof.
  intros Hinv Hi Ha Hm HP Hfresh Hh0 Hhb.
  destruct (live_handle _ _ _ _ Hinv Hi Ha)
    as (c' & P' & Hm' & Ho & HP' & Hmx & Hu & Hr1 & Hrb & Huc & Ho1).
  simplify_eq. destruct Hinv as [Hh Hc Hp Hl].
  set (s' := mkState _ _ _ _ _ _ _ _).
  assert (handles_ok s') as Hh'.
  { split; simpl.
    - intros h' i' [[<- <-]|[Hne Hi']]%lookup_insert_Some; [done|].
      eapply handle_storage; eauto.
    - intros h' i' [[<- <-]|[Hne Hi']]%lookup_insert_Some; simpl;
        apply lookup_insert_is_Some'; [by left|right].
      eapply handle_owner; eauto.
    - intros h' i' a' Hi'' Ha'.
      assert (∃ c0, mem s !! a' = Some c0 ∧ owner c0 = owner_ i') as (c0 & Hc0 & Ho0).
      { apply lookup_insert_Some in Hi'' as [[<- <-]|[Hne Hi']]; simpl in *.
        - rewrite Ha in Ha'. simplify_eq. eauto.
        - eapply handle_counter; eauto. }
      destruct (decide (a' = a)) as [->|Hne].
      + rewrite lookup_insert_eq. simplify_eq. eauto.
      + rewrite lookup_insert_ne by done. eauto. }
  pose proof (handles_bounded _ Hh') as Hbound. simpl in Hbound.
  pose proof (refs_le_size a (handles s')) as Hle. simpl in Hle.
  rewrite refs_insert, decide_True in Hle by done.
  split; [done|split; simpl|split; simpl|split; simpl].
  - intros a' c' [[<- <-]|[Hne Hc']]%lookup_insert_Some; simpl.
    + rewrite refs_insert, Ha, decide_True, Hu by done.
      rewrite pre_increment_of_nat by lia. f_equal. lia.
    + rewrite refs_insert, decide_False by (simpl; congruence).
      rewrite (cell_uses _ Hc _ _ Hc'). f_equal. lia.
  - intros a' c' Hc'. rewrite refs_insert by done.
    assert (refs a' (handles s) ≠ 0); [|lia].
    apply lookup_insert_Some in Hc' as [[<- <-]|[Hne Hc']]; [lia|].
    eapply cell_referenced; eauto.
  - intros a' c' [[<- <-]|[Hne Hc']]%lookup_insert_Some;
      eapply cell_below_brk; eauto.
  - apply Hc.
  - intros p' P' [[<- <-]|[Hne HP']]%lookup_insert_Some; simpl.
    + rewrite owners_insert, decide_True by done. lia.
    + rewrite owners_insert, decide_False by (simpl; congruence).
      rewrite (pool_use_count _ Hp _ _ HP'). lia.
  - intros p' P' [[<- <-]|[Hne HP']]%lookup_insert_Some; simpl;
      eapply pool_unlocked; eauto.
  - intros p' P' [[<- <-]|[Hne HP']]%lookup_insert_Some; simpl;
      eapply pool_below_next; eauto.
  - intros p' P' [[<- <-]|[Hne HP']]%lookup_insert_Some; simpl;
      eapply pool_free_NoDup; eauto.
  - intros p' P' a' HP'' Hin.
    assert ((a' < brk s) ∧ mem s !! a' = None) as [? Hnone].
    { apply lookup_insert_Some in HP'' as [[<- <-]|[Hne HP']];
        eapply pool_free_chunk; eauto. }
    split; [done|]. rewrite lookup_insert_ne; [done|]. congruence.
  - intros p1 p2 P1 P2 a' Hne [[<- <-]|[Hne1 HP1]]%lookup_insert_Some
      [[<- <-]|[Hne2 HP2]]%lookup_insert_Some; simpl; try done.
    + exact (pool_free_disjoint _ Hp _ _ _ _ a' Hne HP HP2).
    + exact (pool_free_disjoint _ Hp _ _ _ _ a' Hne HP1 HP).
    + exact (pool_free_disjoint _ Hp _ _ _ _ a' Hne HP1 HP2).
  - intros T' t' q Hq. destruct (pool_local _ Hp _ _ _ Hq) as (P' & HP' & ? & ?).
    destruct (decide (q = owner_ i)) as [->|Hne].
    + rewrite lookup_insert_eq. simplify_eq. by eexists.
    + rewrite lookup_insert_ne by done. eauto.
  - intros p' a'. pose proof (log_new_free _ Hl p' a') as Hnf.
    unfold constructed in *. simpl.
    destruct (decide (a' = a)) as [->|Hne].
    + rewrite lookup_insert_eq. rewrite Hm in Hnf. done.
    + rewrite lookup_insert_ne by done. done.
  - apply Hl.
Qed.

(** Destruction of a handle that is not the last one of its cell. *)
Lemma dtor_shared_inv s h i a c P n :
  inv s → handles s !! h = Some i → counter_ i = Some a →
  mem s !! a = Some c → pools s !! owner_ i = Some P →
  2 ≤ refs a (handles s) → n = N.of_nat (refs a (handles s) - 1) →
  inv (mkState (tls s)
         (<[owner_ i := set_use_count (pred (use_count P)) P]> (pools s))
         (<[a := set_uses n c]> (mem s))
         (delete h (handles s))
         (next_pool s) (brk s) (heap_limit s) (log s)).
Proof.
  intros Hinv Hi Ha Hm HP Hr2 ->.
  destruct (live_handle _ _ _ _ Hinv Hi Ha)
    as (c' & P' & Hm' & Ho & HP' & Hmx & Hu & Hr1 & Hrb & Huc & Ho1).
  simplify_eq. destruct Hinv as [Hh Hc Hp Hl].
  pose proof (refs_delete a _ _ _ Hi) as Hrd. rewrite decide_True in Hrd by done.
  pose proof (owners_delete (owner_ i) _ _ _ Hi) as Hod.
  rewrite decide_True in Hod by done.
  assert (∃ h' i', h' ≠ h ∧ handles s !! h' = Some i' ∧ counter_ i' = Some a)
    as (h2 & i2 & Hne2 & Hi2 & Ha2).
  { destruct (refs_witness a (delete h (handles s))) as (h' & i' & Hi' & Ha');
      [lia|]. apply lookup_delete_Some in Hi' as [? ?]. eauto. }
  assert (owner_ i2 = owner_ i) as Ho2.
  { destruct (handle_counter _ Hh _ _ _ Hi2 Ha2) as (c2 & ? & ?). congruence. }
  assert (2 ≤ owners (owner_ i) (handles s)) as Hown2.
  { assert (owners (owner_ i) (delete h (handles s)) ≠ 0); [|lia].
    eapply owners_pos; [|exact Ho2]. by rewrite lookup_delete_ne. }
  split; split; simpl.
  - intros h' i' [Hne Hi']%lookup_delete_Some. eapply handle_storage; eauto.
  - intros h' i' [Hne Hi']%lookup_delete_Some.
    apply lookup_insert_is_Some'. right. eapply handle_owner; eauto.
  - intros h' i' a' [Hne Hi']%lookup_delete_Some Ha'.
    destruct (handle_counter _ Hh _ _ _ Hi' Ha') as (c' & Hc' & Ho').
    destruct (decide (a' = a)) as [->|Hna].
    + rewrite lookup_insert_eq. simplify_eq. eauto.
    + rewrite lookup_insert_ne by done. eauto.
  - intros a' c' [[<- <-]|[Hne Hc']]%lookup_insert_Some; simpl.
    + f_equal. lia.
    + rewrite (cell_uses _ Hc _ _ Hc'). f_equal.
      rewrite (refs_delete a' _ _ _ Hi), decide_False by congruence. lia.
  - intros a' c' [[<- <-]|[Hne Hc']]%lookup_insert_Some; [lia|].
    pose proof (cell_referenced _ Hc _ _ Hc').
    rewrite (refs_delete a' _ _ _ Hi), decide_False in * by congruence. lia.
  - intros a' c' [[<- <-]|[Hne Hc']]%lookup_insert_Some;
      eapply cell_below_brk; eauto.
  - apply Hc.
  - intros p' P' [[<- <-]|[Hne HP']]%lookup_insert_Some; simpl; [lia|].
    rewrite (pool_use_count _ Hp _ _ HP').
    rewrite (owners_delete p' _ _ _ Hi), decide_False by done. lia.
  - intros p' P' [[<- <-]|[Hne HP']]%lookup_insert_Some; simpl;
      eapply pool_unlocked; eauto.
  - intros p' P' [[<- <-]|[Hne HP']]%lookup_insert_Some; simpl;
      eapply pool_below_next; eauto.
  - intros p' P' [[<- <-]|[Hne HP']]%lookup_insert_Some; simpl;
      eapply pool_free_NoDup; eauto.
  - intros p' P' a' HP'' Hin.
    assert ((a' < brk s) ∧ mem s !! a' = None) as [? Hnone].
    { apply lookup_insert_Some in HP'' as [[<- <-]|[Hne HP']];
        eapply pool_free_chunk; eauto. }
    split; [done|]. rewrite lookup_insert_ne; [done|]. congruence.
  - intros p1 p2 P1 P2 a' Hne [[<- <-]|[Hne1 HP1]]%lookup_insert_Some
      [[<- <-]|[Hne2' HP2]]%lookup_insert_Some; simpl; try done.
    + exact (pool_free_disjoint _ Hp _ _ _ _ a' Hne HP HP2).
    + exact (pool_free_disjoint _ Hp _ _ _ _ a' Hne HP1 HP).
    + exact (pool_free_disjoint _ Hp _ _ _ _ a' Hne HP1 HP2).
  - intros T' t' q Hq. destruct (pool_local _ Hp _ _ _ Hq) as (P' & HP' & ? & ?).
    destruct (decide (q = owner_ i)) as [->|Hne].
    + rewrite lookup_insert_eq. simplify_eq. by eexists.
    + rewrite lookup_insert_ne by done. eauto.
  - intros p' a'. pose proof (log_new_free _ Hl p' a') as Hnf.
    unfold constructed in *. simpl.
    destruct (decide (a' = a)) as [->|Hne].
    + rewrite lookup_insert_eq. rewrite Hm in Hnf. done.
    + rewrite lookup_insert_ne by done. done.
  - apply Hl.
Qed.

(** The last handle of a cell in state [s]: facts used twice below. *)
Lemma last_handle s h i a :
  inv s → handles s !! h = Some i → counter_ i = Some a →
  refs a (handles s) = 1 →
  (∀ h' i', h' ≠ h → handles s !! h' = Some i' → counter_ i' ≠ Some a)
  ∧ (∀ p P, pools s !! p = Some P → a ∉ free_list P).
Proof.
  intros Hinv Hi Ha Hone. split.
  - intros h' i' Hne Hi' Ha'. apply Hne.
    exact (size_filter_one _ _ _ _ Hi Ha Hone h' i' Hi' Ha').
  - intros p P HP Hin.
    destruct (live_handle _ _ _ _ Hinv Hi Ha) as (c & _ & Hm & _).
    destruct (pool_free_chunk _ (inv_pools _ Hinv) _ _ _ HP Hin). congruence.
Qed.

(** Destruction of the last handle of a cell whose pool stays. *)
Lemma dtor_last_inv s t h i a c P :
  inv s → handles s !! h = Some i → counter_ i = Some a →
  mem s !! a = Some c → pools s !! owner_ i = Some P →
  refs a (handles s) = 1 → use_count P ≠ 1 →
  inv (mkState (tls s)
         (<[owner_ i := mkParallelPool (elem P) (home P) (pred (use_count P))
                          (ordered_free a (free_list P)) false]> (pools s))
         (delete a (mem s))
         (delete h (handles s))
         (next_pool s) (brk s) (heap_limit s)
         (EvUnlock t (owner_ i) :: EvFree (owner_ i) a
            :: EvDtor (owner_ i) a :: EvLock t (owner_ i) :: log s)).
Proof.
  intros Hinv Hi Ha Hm HP Hone Huc1.
  destruct (live_handle _ _ _ _ Hinv Hi Ha)
    as (c' & P' & Hm' & Ho & HP' & Hmx & Hu & Hr1 & Hrb & Huc & Ho1).
  destruct (last_handle _ _ _ _ Hinv Hi Ha Hone) as [Honly Hnotfree].
  simplify_eq. destruct Hinv as [Hh Hc Hp Hl].
  pose proof (owners_delete (owner_ i) _ _ _ Hi) as Hod.
  rewrite decide_True in Hod by done.
  split; split; simpl.
  - intros h' i' [Hne Hi']%lookup_delete_Some. eapply handle_storage; eauto.
  - intros h' i' [Hne Hi']%lookup_delete_Some.
    apply lookup_insert_is_Some'. right. eapply handle_owner; eauto.
  - intros h' i' a' [Hne Hi']%lookup_delete_Some Ha'.
    destruct (handle_counter _ Hh _ _ _ Hi' Ha') as (c' & Hc' & Ho').
    exists c'. rewrite lookup_delete_ne; [done|].
    intros <-. by eapply Honly.
  - intros a' c' [Hne Hc']%lookup_delete_Some.
    rewrite (cell_uses _ Hc _ _ Hc'). f_equal.
    rewrite (refs_delete a' _ _ _ Hi), decide_False by congruence. lia.
  - intros a' c' [Hne Hc']%lookup_delete_Some.
    pose proof (cell_referenced _ Hc _ _ Hc').
    rewrite (refs_delete a' _ _ _ Hi), decide_False in * by congruence. lia.
  - intros a' c' [Hne Hc']%lookup_delete_Some. eapply cell_below_brk; eauto.
  - apply Hc.
  - intros p' P' [[<- <-]|[Hne HP']]%lookup_insert_Some; simpl; [lia|].
    rewrite (pool_use_count _ Hp _ _ HP').
    rewrite (owners_delete p' _ _ _ Hi), decide_False by done. lia.
  - intros p' P' [[<- <-]|[Hne HP']]%lookup_insert_Some; simpl; [done|].
    eapply pool_unlocked; eauto.
  - intros p' P' [[<- <-]|[Hne HP']]%lookup_insert_Some; simpl;
      eapply pool_below_next; eauto.
  - intros p' P' [[<- <-]|[Hne HP']]%lookup_insert_Some; simpl.
    + apply NoDup_ordered_free; [by eapply Hnotfree|].
      eapply pool_free_NoDup; eauto.
    + eapply pool_free_NoDup; eauto.
  - intros p' P' a' [[<- <-]|[Hne HP']]%lookup_insert_Some Hin; simpl in *.
    + apply elem_of_ordered_free in Hin as [->|Hin].
      * rewrite lookup_delete_eq. split; [|done]. eapply cell_below_brk; eauto.
      * destruct (pool_free_chunk _ Hp _ _ _ HP Hin).
        split; [done|]. rewrite lookup_delete_ne; [done|]. congruence.
    + destruct (pool_free_chunk _ Hp _ _ _ HP' Hin).
      split; [done|]. rewrite lookup_delete_ne; [done|]. congruence.
  - intros p1 p2 P1 P2 a' Hne [[<- <-]|[Hne1 HP1]]%lookup_insert_Some
      [[<- <-]|[Hne2' HP2]]%lookup_insert_Some; simpl; try done.
    + intros [->|Hin]%elem_of_ordered_free; [by eapply Hnotfree|].
      exact (pool_free_disjoint _ Hp _ _ _ _ a' Hne HP HP2 Hin).
    + intros Hin [->|Hin']%elem_of_ordered_free;
        [by eapply (Hnotfree p1)|].
      exact (pool_free_disjoint _ Hp _ _ _ _ a' Hne HP1 HP Hin Hin').
    + exact (pool_free_disjoint _ Hp _ _ _ _ a' Hne HP1 HP2).
  - intros T' t' q Hq. destruct (pool_local _ Hp _ _ _ Hq) as (P' & HP' & ? & ?).
    destruct (decide (q = owner_ i)) as [->|Hne].
    + rewrite lookup_insert_eq. simplify_eq. by eexists.
    + rewrite lookup_insert_ne by done. eauto.
  - intros p' a'. pose proof (log_new_free _ Hl p' a') as Hnf.
    unfold constructed in *. simpl.
    destruct (decide (a' = a)) as [->|Hne].
    + rewrite lookup_delete_eq. rewrite Hm in Hnf. log_tac.
    + rewrite lookup_delete_ne by done. log_tac.
  - intros p' a'. pose proof (log_dtor_free _ Hl p' a'). log_tac.
Qed.

(** Destruction of the last handle of a cell, the last user of its pool. *)
Lemma dtor_last_pool_inv s t h i a c P :
  inv s → handles s !! h = Some i → counter_ i = Some a →
  mem s !! a = Some c → pools s !! owner_ i = Some P →
  refs a (handles s) = 1 → use_count P = 1 →
  inv (mkState (tls s)
         (delete (owner_ i) (pools s))
         (delete a (mem s))
         (delete h (handles s))
         (next_pool s) (brk s) (heap_limit s)
         (EvPoolDtor (owner_ i) :: EvUnlock t (owner_ i)
            :: EvFree (owner_ i) a :: EvDtor (owner_ i) a
            :: EvLock t (owner_ i) :: log s)).
Proof.
  intros Hinv Hi Ha Hm HP Hone Huc1.
  destruct (live_handle _ _ _ _ Hinv Hi Ha)
    as (c' & P' & Hm' & Ho & HP' & Hmx & Hu & Hr1 & Hrb & Huc & Ho1).
  destruct (last_handle _ _ _ _ Hinv Hi Ha Hone) as [Honly Hnotfree].
  simplify_eq. destruct Hinv as [Hh Hc Hp Hl].
  assert (owners (owner_ i) (handles s) = 1) as Hown by lia.
  assert (locals (owner_ i) (tls s) = 0) as Hloc by lia.
  assert (∀ h' i', h' ≠ h → handles s !! h' = Some i' → owner_ i' ≠ owner_ i)
    as Hsole.
  { intros h' i' Hne Hi' Ho'. apply Hne.
    exact (size_filter_one _ _ _ _ Hi eq_refl Hown h' i' Hi' Ho'). }
  split; split; simpl.
  - intros h' i' [Hne Hi']%lookup_delete_Some. eapply handle_storage; eauto.
  - intros h' i' [Hne Hi']%lookup_delete_Some.
    rewrite lookup_delete_ne by (intros Heq; by eapply Hsole).
    eapply handle_owner; eauto.
  - intros h' i' a' [Hne Hi']%lookup_delete_Some Ha'.
    destruct (handle_counter _ Hh _ _ _ Hi' Ha') as (c' & Hc' & Ho').
    exists c'. rewrite lookup_delete_ne; [done|].
    intros <-. by eapply Honly.
  - intros a' c' [Hne Hc']%lookup_delete_Some.
    rewrite (cell_uses _ Hc _ _ Hc'). f_equal.
    rewrite (refs_delete a' _ _ _ Hi), decide_False by congruence. lia.
  - intros a' c' [Hne Hc']%lookup_delete_Some.
    pose proof (cell_referenced _ Hc _ _ Hc').
    rewrite (refs_delete a' _ _ _ Hi), decide_False in * by congruence. lia.
  - intros a' c' [Hne Hc']%lookup_delete_Some. eapply cell_below_brk; eauto.
  - apply Hc.
  - intros p' P' [Hne HP']%lookup_delete_Some.
    rewrite (pool_use_count _ Hp _ _ HP').
    rewrite (owners_delete p' _ _ _ Hi), decide_False by done. lia.
  - intros p' P' [Hne HP']%lookup_delete_Some. eapply pool_unlocked; eauto.
  - intros p' P' [Hne HP']%lookup_delete_Some. eapply pool_below_next; eauto.
  - intros p' P' [Hne HP']%lookup_delete_Some. eapply pool_free_NoDup; eauto.
  - intros p' P' a' [Hne HP']%lookup_delete_Some Hin.
    destruct (pool_free_chunk _ Hp _ _ _ HP' Hin).
    split; [done|]. rewrite lookup_delete_ne; [done|]. congruence.
  - intros p1 p2 P1 P2 a' Hne [Hne1 HP1]%lookup_delete_Some
      [Hne2 HP2]%lookup_delete_Some.
    exact (pool_free_disjoint _ Hp _ _ _ _ a' Hne HP1 HP2).
  - intros T' t' q Hq. destruct (pool_local _ Hp _ _ _ Hq) as (P' & HP' & ? & ?).
    exists P'. rewrite lookup_delete_ne; [done|].
    intros <-. by apply (locals_pos _ _ _ Hq).
  - intros p' a'. pose proof (log_new_free _ Hl p' a') as Hnf.
    unfold constructed in *. simpl.
    destruct (decide (a' = a)) as [->|Hne].
    + rewrite lookup_delete_eq. rewrite Hm in Hnf. log_tac.
    + rewrite lookup_delete_ne by done. log_tac.
  - intros p' a'. pose proof (log_dtor_free _ Hl p' a'). log_tac.
Qed.

(** The [thread_local] pointer dies, other users of its pool remain. *)
Lemma exit_inv s T t p P :
  inv s → tls s !! (T, t) = Some p → pools s !! p = Some P →
  use_count P ≠ 1 →
  inv (mkState (delete (T, t) (tls s))
         (<[p := set_use_count (pred (use_count P)) P]> (pools s))
         (mem s) (handles s)
         (next_pool s) (brk s) (heap_limit s) (log s)).
Proof.
  intros [Hh Hc Hp Hl] Ht HP Huc1.
  pose proof (locals_delete p _ _ _ Ht) as Hld.
  rewrite decide_True in Hld by done.
  split; split; simpl; try apply Hh; try apply Hc; try apply Hl.
  - intros h' i' Hi'. apply lookup_insert_is_Some'. right.
    eapply handle_owner; eauto.
  - intros p' P' [[<- <-]|[Hne HP']]%lookup_insert_Some; simpl.
    + rewrite (pool_use_count _ Hp _ _ HP). lia.
    + rewrite (pool_use_count _ Hp _ _ HP').
      rewrite (locals_delete p' _ _ _ Ht), decide_False by done. lia.
  - intros p' P' [[<- <-]|[Hne HP']]%lookup_insert_Some; simpl;
      eapply pool_unlocked; eauto.
  - intros p' P' [[<- <-]|[Hne HP']]%lookup_insert_Some; simpl;
      eapply pool_below_next; eauto.
  - intros p' P' [[<- <-]|[Hne HP']]%lookup_insert_Some; simpl;
      eapply pool_free_NoDup; eauto.
  - intros p' P' a' [[<- <-]|[Hne HP']]%lookup_insert_Some Hin; simpl in *;
      eapply pool_free_chunk; eauto.
  - intros p1 p2 P1 P2 a' Hne [[<- <-]|[Hne1 HP1]]%lookup_insert_Some
      [[<- <-]|[Hne2' HP2]]%lookup_insert_Some; simpl; try done.
    + exact (pool_free_disjoint _ Hp _ _ _ _ a' Hne HP HP2).
    + exact (pool_free_disjoint _ Hp _ _ _ _ a' Hne HP1 HP).
    + exact (pool_free_disjoint _ Hp _ _ _ _ a' Hne HP1 HP2).
  - intros T' t' q [Hne Hq]%lookup_delete_Some.
    destruct (pool_local _ Hp _ _ _ Hq) as (P' & HP' & ? & ?).
    destruct (decide (q = p)) as [->|Hnq].
    + rewrite lookup_insert_eq. simplify_eq. by eexists.
    + rewrite lookup_insert_ne by done. eauto.
Qed.

(** The [thread_local] pointer dies as the last user of its pool. *)
Lemma exit_pool_inv s T t p P :
  inv s → tls s !! (T, t) = Some p → pools s !! p = Some P →
  use_count P = 1 →
  inv (mkState (delete (T, t) (tls s)) (delete p (pools s))
         (mem s) (handles s)
         (next_pool s) (brk s) (heap_limit s) (EvPoolDtor p :: log s)).
Proof.
  intros [Hh Hc Hp Hl] Ht HP Huc1.
  pose proof (locals_delete p _ _ _ Ht) as Hld.
  rewrite decide_True in Hld by done.
  pose proof (pool_use_count _ Hp _ _ HP) as Huc.
  assert (owners p (handles s) = 0) as Hown by lia.
  assert (∀ h i, handles s !! h = Some i → owner_ i ≠ p) as Hnone.
  { intros h i Hi Ho. by apply (owners_pos _ _ _ _ Hi Ho). }
  split; split; simpl; try apply Hh; try apply Hc.
  - intros h' i' Hi'. rewrite lookup_delete_ne by (intros Heq; by eapply Hnone).
    eapply handle_owner; eauto.
  - intros p' P' [Hne HP']%lookup_delete_Some.
    rewrite (pool_use_count _ Hp _ _ HP').
    rewrite (locals_delete p' _ _ _ Ht), decide_False by done. lia.
  - intros p' P' [Hne HP']%lookup_delete_Some. eapply pool_unlocked; eauto.
  - intros p' P' [Hne HP']%lookup_delete_Some. eapply pool_below_next; eauto.
  - intros p' P' [Hne HP']%lookup_delete_Some. eapply pool_free_NoDup; eauto.
  - intros p' P' a' [Hne HP']%lookup_delete_Some Hin.
    eapply pool_free_chunk; eauto.
  - intros p1 p2 P1 P2 a' Hne [Hne1 HP1]%lookup_delete_Some
      [Hne2 HP2]%lookup_delete_Some.
    exact (pool_free_disjoint _ Hp _ _ _ _ a' Hne HP1 HP2).
  - intros T' t' q [Hne Hq]%lookup_delete_Some.
    destruct (pool_local _ Hp _ _ _ Hq) as (P' & HP' & He & Hho).
    exists P'. rewrite lookup_delete_ne; [done|].
    intros <-. assert (locals p (delete (T, t) (tls s)) ≠ 0); [|lia].
    eapply locals_pos. by rewrite lookup_delete_ne.
  - intros p' a'. pose proof (log_new_free _ Hl p' a') as Hnf.
    unfold constructed in *. simpl. log_tac.
  - intros p' a'. pose proof (log_dtor_free _ Hl p' a'). log_tac.
Qed.

Lemma filter_owner_none (m : gmap nat (cell V)) p :
  (∀ a c, m !! a = Some c → owner c ≠ p) →
  filter (λ kv, owner kv.2 ≠ p) m = m
  ∧ (map_to_list (filter (λ kv, owner kv.2 = p) m)).*1 = [].
Proof.
  intros Hnone. split.
  - apply map_filter_id. intros a c Hc. simpl. by eapply Hnone.
  - assert (filter (λ kv, owner kv.2 = p) m = ∅) as ->.
    { apply map_empty_filter. intros a c Hc. simpl. by eapply Hnone. }
    by rewrite map_to_list_empty.
Qed.

Lemma thread_local_init_lookup T t s :
  inv s →
  ∃ p P, tls (thread_local_init T t s) !! (T, t) = Some p
         ∧ pools (thread_local_init T t s) !! p = Some P
         ∧ elem P = T ∧ home P = t ∧ mutex P = false
         ∧ 1 ≤ use_count P.
Proof.
  intros Hinv. pose proof (thread_local_init_inv T t s Hinv) as Hinv1.
  assert (∃ p, tls (thread_local_init T t s) !! (T, t) = Some p) as [p Hp].
  { unfold thread_local_init. destruct (tls s !! (T, t)) as [p|] eqn:E.
    - eauto.
    - simpl. rewrite lookup_insert_eq. eauto. }
  destruct (pool_local _ (inv_pools _ Hinv1) _ _ _ Hp) as (P & HP & ? & ?).
  exists p, P. split_and!; try done.
  - eapply pool_unlocked; [apply Hinv1|done].
  - rewrite (pool_use_count _ (inv_pools _ Hinv1) _ _ HP).
    pose proof (locals_pos _ _ _ Hp). lia.
Qed.

Lemma getPool_spec T t s :
  inv s →
  ∃ p P, tls (thread_local_init T t s) !! (T, t) = Some p
         ∧ pools (thread_local_init T t s) !! p = Some P
         ∧ elem P = T ∧ home P = t ∧ mutex P = false
         ∧ 1 ≤ use_count P
         ∧ getPool T t s
           = Some (p, with_pools <[p := set_use_count (S (use_count P)) P]>
                        (thread_local_init T t s)).
Proof.
  intros Hinv.
  destruct (thread_local_init_lookup T t s Hinv) as (p & P & Hp & HP & ? & ? & ? & ?).
  exists p, P. split_and!; try done.
  unfold getPool. rewrite Hp. simpl. unfold shared_ptr_copy. rewrite HP. done.
Qed.

Lemma with_pools_id s p P :
  pools s !! p = Some P → with_pools <[p := P]> s = s.
Proof.
  intros HP. destruct s. unfold with_pools. simpl in *. f_equal.
  by apply insert_id.
Qed.

Lemma exec_GetPool T t s :
  inv s → exec (GetPool T t) s = Some (thread_local_init T t s).
Proof.
  intros Hinv.
  destruct (getPool_spec T t s Hinv) as (p & P & Hp & HP & ? & ? & ? & Huc & Hget).
  simpl. rewrite Hget. simpl. unfold shared_ptr_release. simpl.
  rewrite lookup_insert_eq. simpl.
  destruct (use_count P) as [|n] eqn:E; [lia|]. f_equal.
  destruct (thread_local_init T t s) as [tl ps m hs np b lim lg].
  unfold with_pools. simpl in *. f_equal.
  rewrite insert_insert_eq. apply insert_id. rewrite HP. f_equal.
  destruct P. simpl in *. by subst.
Qed.

Lemma thread_local_init_handles T t s :
  handles (thread_local_init T t s) = handles s.
Proof. unfold thread_local_init. by destruct (tls s !! (T, t)). Qed.

Lemma state_eq s s' :
  tls s = tls s' → pools s = pools s' → mem s = mem s' →
  handles s = handles s' → next_pool s = next_pool s' → brk s = brk s' →
  heap_limit s = heap_limit s' → log s = log s' → s = s'.
Proof. destruct s, s'. simpl. by intros -> -> -> -> -> -> -> ->. Qed.

Lemma SmallImpl_ctor_spec T t h v s :
  inv s → valid_storage h = true → handles s !! h = None →
  ∃ p P, tls (thread_local_init T t s) !! (T, t) = Some p
         ∧ pools (thread_local_init T t s) !! p = Some P
         ∧ elem P = T ∧ home P = t
         ∧ SmallImpl_ctor T t h v s
           = Some (ctor_result t h v p P (thread_local_init T t s)).
Proof.
  intros Hinv Hv Hfresh.
  destruct (getPool_spec T t s Hinv) as (p & P & Hp & HP & ? & ? & Hmx & Huc & Hget).
  exists p, P. split_and!; try done.
  unfold SmallImpl_ctor. rewrite Hv, bool_decide_true by done. simpl.
  rewrite Hget. simpl.
  unfold ParallelPool_construct, lock. simpl. rewrite lookup_insert_eq. simpl.
  rewrite Hmx. simpl.
  unfold pool_construct, pool_malloc. simpl. rewrite lookup_insert_eq. simpl.
  unfold ctor_result.
  destruct (free_list P) as [|a l] eqn:Efl; simpl.
  - destruct (brk (thread_local_init T t s) <? heap_limit (thread_local_init T t s))
      eqn:Elim; simpl.
    + unfold unlock. simpl. rewrite lookup_insert_eq. simpl.
      f_equal. apply state_eq; simpl; try done.
      rewrite !insert_insert_eq. f_equal.
      unfold set_mutex, set_use_count. simpl. by rewrite Efl.
    + unfold unlock. simpl. rewrite lookup_insert_eq. simpl.
      f_equal. apply state_eq; simpl; try done.
      rewrite !insert_insert_eq. f_equal.
      unfold set_mutex, set_use_count. simpl. by rewrite Efl.
  - unfold unlock. simpl. rewrite lookup_insert_eq. simpl.
    f_equal. apply state_eq; simpl; try done.
    rewrite !insert_insert_eq. f_equal.
Qed.

Lemma valid_storage_true h :
  valid_storage h = true ↔ h ≠ 0 ∧ (N.of_nat h < SIZE_MODULUS)%N.
Proof.
  unfold valid_storage.
  rewrite andb_true_iff, bool_decide_eq_true, N.ltb_lt. done.
Qed.

Lemma ctor_result_inv t h v p P s1 :
  inv s1 → pools s1 !! p = Some P →
  valid_storage h = true → handles s1 !! h = None →
  inv (ctor_result t h v p P s1).
Proof.
  intros Hinv HP [Hh0 Hhb]%valid_storage_true Hfresh. unfold ctor_result.
  pose proof (inv_pools _ Hinv) as Hp. pose proof (inv_cells _ Hinv) as Hc.
  destruct (free_list P) as [|a l] eqn:Efl.
  - destruct (brk s1 <? heap_limit s1) eqn:Elim.
    + apply alloc_inv; try done; try lia.
      * destruct (mem s1 !! brk s1) as [c|] eqn:E; [|done].
        apply (cell_below_brk _ Hc) in E. lia.
      * intros x Hx. by apply elem_of_nil in Hx.
      * constructor.
      * apply not_elem_of_nil.
      * intros p' P' _ HP' Hin.
        destruct (pool_free_chunk _ Hp _ _ _ HP' Hin). lia.
    + rewrite <-Efl. by apply null_handle_inv.
  - pose proof (pool_free_NoDup _ Hp _ _ HP) as Hnd. rewrite Efl in Hnd.
    inversion_clear Hnd as [|? ? Hal Hndl].
    assert (a ∈ free_list P) as Hin by (rewrite Efl; left).
    destruct (pool_free_chunk _ Hp _ _ _ HP Hin).
    apply alloc_inv; try done.
    + rewrite Efl. intros x Hx. by right.
    + intros p' P' Hne HP' Hin'.
      exact (pool_free_disjoint _ Hp _ _ _ _ a Hne HP' HP Hin' Hin).
Qed.

Lemma SmallImpl_copy_spec t h item i a s :
  inv s → valid_storage h = true → handles s !! h = None →
  handles s !! item = Some i → counter_ i = Some a →
  ∃ c P, mem s !! a = Some c ∧ pools s !! owner_ i = Some P
         ∧ SmallImpl_copy t h item s
           = Some (mkState (tls s)
                     (<[owner_ i := set_use_count (S (use_count P)) P]> (pools s))
                     (<[a := set_uses (pre_increment (uses (obj c))) c]> (mem s))
                     (<[h := mkSmallImpl (owner_ i) (counter_ i)]> (handles s))
                     (next_pool s) (brk s) (heap_limit s) (log s)).
Proof.
  intros Hinv Hv Hfresh Hi Ha.
  destruct (live_handle _ _ _ _ Hinv Hi Ha) as (c & P & Hm & Ho & HP & _).
  exists c, P. split_and!; try done.
  unfold SmallImpl_copy. rewrite Hv, bool_decide_true by done. simpl.
  rewrite Hi. simpl. unfold shared_ptr_copy. rewrite HP. simpl.
  rewrite Ha. simpl. rewrite Hm. simpl. done.
Qed.

Lemma SmallImpl_dtor_spec t h i a s :
  inv s → handles s !! h = Some i → counter_ i = Some a →
  ∃ c P, mem s !! a = Some c ∧ owner c = owner_ i
         ∧ pools s !! owner_ i = Some P
         ∧ pre_decrement (uses (obj c)) = N.of_nat (refs a (handles s) - 1)
         ∧ 1 ≤ refs a (handles s)
         ∧ SmallImpl_dtor t h s = Some (dtor_result t h i a c P s).
Proof.
  intros Hinv Hi Ha.
  destruct (live_handle _ _ _ _ Hinv Hi Ha)
    as (c & P & Hm & Ho & HP & Hmx & Hu & Hr1 & Hrb & Huc & Ho1).
  exists c, P. split_and!; try done.
  { rewrite Hu. by apply pre_decrement_of_nat. }
  unfold SmallImpl_dtor, dtor_result. rewrite Hi. simpl. rewrite Ha. simpl.
  rewrite Hm. simpl.
  destruct (pre_decrement (uses (obj c)) =? 0)%N eqn:En.
  - unfold ParallelPool_destroy, lock. simpl. rewrite HP. simpl.
    rewrite Hmx. simpl.
    unfold pool_destroy. simpl. rewrite !lookup_insert_eq. simpl.
    rewrite bool_decide_true by done. simpl.
    unfold unlock. simpl. rewrite !lookup_insert_eq. simpl.
    unfold shared_ptr_release. simpl. rewrite !lookup_insert_eq. simpl.
    destruct (use_count P) as [|[|n]] eqn:Euc; simpl.
    + f_equal. apply state_eq; simpl; try done.
      * rewrite !insert_insert_eq. f_equal.
      * by rewrite delete_insert_eq.
    + rewrite !delete_insert_eq.
      destruct (filter_owner_none (delete a (mem s)) (owner_ i)) as [-> ->];
        [|done].
      intros a' c' [Hne Hc']%lookup_delete_Some.
      { destruct (refs_witness a' (handles s)) as (h' & i' & Hi' & Ha').
        { eapply cell_referenced; [apply Hinv|done]. }
        destruct (handle_counter _ (inv_handles _ Hinv) _ _ _ Hi' Ha')
          as (c2 & Hc2 & Ho2).
        assert (owners (owner_ i) (handles s) = 1) as Hown by lia.
        intros Ho'. assert (h' = h); [|congruence].
        apply (size_filter_one _ _ _ _ Hi eq_refl Hown h' i' Hi'). simpl.
        congruence. }
    + f_equal. apply state_eq; simpl; try done.
      * rewrite !insert_insert_eq. f_equal.
      * by rewrite delete_insert_eq.
  - unfold shared_ptr_release. simpl. rewrite HP. simpl.
    destruct (use_count P) as [|[|n]] eqn:Euc; simpl.
    + done.
    + exfalso. apply N.eqb_neq in En. rewrite Hu in En.
      rewrite pre_decrement_of_nat in En by done.
      assert (2 ≤ refs a (handles s)) as Hr2 by lia.
      pose proof (refs_delete a _ _ _ Hi) as Hrd.
      rewrite decide_True in Hrd by done.
      destruct (refs_witness a (delete h (handles s))) as (h' & i' & Hi' & Ha');
        [lia|]. apply lookup_delete_Some in Hi' as [Hne Hi'].
      destruct (handle_counter _ (inv_handles _ Hinv) _ _ _ Hi' Ha')
        as (c2 & Hc2 & Ho2).
      assert (owners (owner_ i) (handles s) = 1) as Hown by lia.
      apply Hne. symmetry.
      apply (size_filter_one _ _ _ _ Hi eq_refl Hown h' i' Hi'). simpl.
      congruence.
    + done.
Qed.

Lemma dtor_result_inv t h i a c P s :
  inv s → handles s !! h = Some i → counter_ i = Some a →
  mem s !! a = Some c → pools s !! owner_ i = Some P →
  inv (dtor_result t h i a c P s).
Proof.
  intros Hinv Hi Ha Hm HP.
  destruct (live_handle _ _ _ _ Hinv Hi Ha)
    as (c' & P' & Hm' & Ho & HP' & Hmx & Hu & Hr1 & Hrb & Huc & Ho1).
  simplify_eq. unfold dtor_result. rewrite Hu.
  rewrite pre_decrement_of_nat by done.
  destruct (N.of_nat (refs a (handles s) - 1) =? 0)%N eqn:En.
  - apply N.eqb_eq in En.
    assert (refs a (handles s) = 1) as Hone by lia.
    destruct (use_count P) as [|[|n]] eqn:Euc; [lia| |].
    + by eapply dtor_last_pool_inv.
    + replace (S n) with (pred (use_count P)) by (rewrite Euc; done).
      eapply dtor_last_inv; try done. lia.
  - apply N.eqb_neq in En. eapply dtor_shared_inv; try done. lia.
Qed.

Lemma exec_ThreadExit T t p s :
  inv s → tls s !! (T, t) = Some p →
  ∃ P, pools s !! p = Some P
       ∧ exec (ThreadExit T t) s
         = Some (match use_count P with
                 | 1 =>
                     mkState (delete (T, t) (tls s)) (delete p (pools s))
                       (mem s) (handles s) (next_pool s) (brk s)
                       (heap_limit s) (EvPoolDtor p :: log s)
                 | uc =>
                     mkState (delete (T, t) (tls s))
                       (<[p := set_use_count (pred uc) P]> (pools s))
                       (mem s) (handles s) (next_pool s) (brk s)
                       (heap_limit s) (log s)
                 end).
Proof.
  intros Hinv Ht.
  destruct (pool_local _ (inv_pools _ Hinv) _ _ _ Ht) as (P & HP & _).
  exists P. split; [done|]. simpl. rewrite Ht. simpl.
  unfold shared_ptr_release. simpl. rewrite HP. simpl.
  destruct (use_count P) as [|[|n]] eqn:Euc; try done.
  unfold ParallelPool_dtor. simpl.
  destruct (filter_owner_none (mem s) p) as [-> ->]; [|done].
  intros a c Hc Ho.
  destruct (refs_witness a (handles s)) as (h' & i' & Hi' & Ha').
  { eapply cell_referenced; [apply Hinv|done]. }
  destruct (handle_counter _ (inv_handles _ Hinv) _ _ _ Hi' Ha')
    as (c2 & Hc2 & Ho2).
  pose proof (pool_use_count _ (inv_pools _ Hinv) _ _ HP) as Huc.
  pose proof (locals_pos _ _ _ Ht).
  assert (owners p (handles s) ≠ 0); [|lia].
  eapply owners_pos; [exact Hi'|]. congruence.
Qed.

(** Every operation that executes keeps the invariant. *)
Lemma exec_inv o s s' : inv s → exec o s = Some s' → inv s'.
Proof.
  intros Hinv Hex. destruct o as [T t h v|t h item|t h|T t|T t].
  - simpl in Hex. unfold SmallImpl_ctor in Hex.
    destruct (valid_storage h) eqn:Hv; [|done].
    destruct (bool_decide (handles s !! h = None)) eqn:Hf; [|done].
    apply bool_decide_eq_true in Hf.
    destruct (SmallImpl_ctor_spec T t h v s Hinv Hv Hf)
      as (p & P & Hp & HP & _ & _ & Hspec).
    unfold SmallImpl_ctor in Hspec.
    rewrite Hv, bool_decide_true in Hspec by done. simpl in *.
    rewrite Hspec in Hex. simplify_eq.
    apply ctor_result_inv; try done.
    + by apply thread_local_init_inv.
    + by rewrite thread_local_init_handles.
  - simpl in Hex. unfold SmallImpl_copy in Hex.
    destruct (valid_storage h) eqn:Hv; [|done].
    destruct (bool_decide (handles s !! h = None)) eqn:Hf; [|done].
    apply bool_decide_eq_true in Hf. simpl in Hex.
    destruct (handles s !! item) as [i|] eqn:Hi; [|done].
    destruct (counter_ i) as [a|] eqn:Ha.
    2:{ simpl in Hex. destruct (shared_ptr_copy (owner_ i) s); simpl in Hex;
        rewrite ?Ha in Hex; done. }
    destruct (SmallImpl_copy_spec t h item i a s Hinv Hv Hf Hi Ha)
      as (c & P & Hm & HP & Hspec).
    unfold SmallImpl_copy in Hspec.
    rewrite Hv, bool_decide_true, Hi in Hspec by done. simpl in *.
    rewrite Hspec in Hex. simplify_eq.
    apply valid_storage_true in Hv as [? ?].
    by eapply copy_inv.
  - simpl in Hex.
    destruct (handles s !! h) as [i|] eqn:Hi;
      [|by unfold SmallImpl_dtor in Hex; rewrite Hi in Hex].
    destruct (counter_ i) as [a|] eqn:Ha;
      [|by unfold SmallImpl_dtor in Hex; rewrite Hi in Hex; simpl in Hex;
           rewrite Ha in Hex].
    destruct (SmallImpl_dtor_spec t h i a s Hinv Hi Ha)
      as (c & P & Hm & Ho & HP & _ & _ & Hspec).
    rewrite Hspec in Hex. simplify_eq. by apply dtor_result_inv.
  - rewrite exec_GetPool in Hex by done. simplify_eq.
    by apply thread_local_init_inv.
  - destruct (tls s !! (T, t)) as [p|] eqn:Ht;
      [|by simpl in Hex; rewrite Ht in Hex].
    destruct (exec_ThreadExit T t p s Hinv Ht) as (P & HP & Hspec).
    rewrite Hspec in Hex. simplify_eq.
    pose proof (pool_use_count _ (inv_pools _ Hinv) _ _ HP) as Huc.
    pose proof (locals_pos _ _ _ Ht).
    destruct (use_count P) as [|[|n]] eqn:Euc; [lia|by eapply exit_pool_inv|].
    rewrite <-Euc. eapply exit_inv; try done. lia.
Qed.

Lemma run_inv os s s' : inv s → run os s = Some s' → inv s'.
Proof.
  revert s. induction os as [|o os IH]; intros s Hinv Hrun; simpl in *.
  - by simplify_eq.
  - destruct (exec o s) as [s1|] eqn:E; [|done]. simpl in Hrun.
    eapply IH; [|exact Hrun]. by eapply exec_inv.
Qed.

Lemma reachable_inv limit os s : run os (init limit) = Some s → inv s.
Proof. apply run_inv, init_inv. Qed.

Lemma thread_local_init_frees T t s p a :
  occurrences (EvFree p a) (log (thread_local_init T t s))
  = occurrences (EvFree p a) (log s).
Proof.
  unfold thread_local_init. destruct (tls s !! (T, t)); [done|]. simpl.
  log_tac.
Qed.

Lemma exec_frees o s s' p a :
  inv s → exec o s = Some s' →
  occurrences (EvFree p a) (log s')
  = occurrences (EvFree p a) (log s)
    + (if last_reference o p a s then 1 else 0).
Proof.
  intros Hinv Hex. destruct o as [T t h v|t h item|t h|T t|T t]; simpl.
  - simpl in Hex. unfold SmallImpl_ctor in Hex.
    destruct (valid_storage h) eqn:Hv; [|done].
    destruct (bool_decide (handles s !! h = None)) eqn:Hf; [|done].
    apply bool_decide_eq_true in Hf.
    destruct (SmallImpl_ctor_spec T t h v s Hinv Hv Hf)
      as (q & P & Hp & HP & _ & _ & Hspec).
    unfold SmallImpl_ctor in Hspec.
    rewrite Hv, bool_decide_true in Hspec by done. simpl in *.
    rewrite Hspec in Hex. simplify_eq.
    rewrite <-(thread_local_init_frees T t s p a). unfold ctor_result.
    destruct (free_list P); [destruct (_ <? _)|]; simpl; log_tac.
  - simpl in Hex. unfold SmallImpl_copy in Hex.
    destruct (valid_storage h) eqn:Hv; [|done].
    destruct (bool_decide (handles s !! h = None)) eqn:Hf; [|done].
    apply bool_decide_eq_true in Hf. simpl in Hex.
    destruct (handles s !! item) as [i|] eqn:Hi; [|done].
    destruct (counter_ i) as [a'|] eqn:Ha.
    2:{ simpl in Hex. destruct (shared_ptr_copy (owner_ i) s); simpl in Hex;
        rewrite ?Ha in Hex; done. }
    destruct (SmallImpl_copy_spec t h item i a' s Hinv Hv Hf Hi Ha)
      as (c & P & Hm & HP & Hspec).
    unfold SmallImpl_copy in Hspec.
    rewrite Hv, bool_decide_true, Hi in Hspec by done. simpl in *.
    rewrite Hspec in Hex. simplify_eq. simpl. lia.
  - simpl in Hex.
    destruct (handles s !! h) as [i|] eqn:Hi;
      [|by unfold SmallImpl_dtor in Hex; rewrite Hi in Hex].
    destruct (counter_ i) as [a'|] eqn:Ha;
      [|by unfold SmallImpl_dtor in Hex; rewrite Hi in Hex; simpl in Hex;
           rewrite Ha in Hex].
    destruct (SmallImpl_dtor_spec t h i a' s Hinv Hi Ha)
      as (c & P & Hm & Ho & HP & Hn & Hr1 & Hspec).
    rewrite Hspec in Hex. simplify_eq. unfold dtor_result. rewrite Hn.
    destruct (N.of_nat (refs a' (handles s) - 1) =? 0)%N eqn:En.
    + apply N.eqb_eq in En.
      assert (refs a' (handles s) = 1) as Hone by lia.
      destruct (use_count P) as [|[|n]]; simpl; log_tac;
        try (rewrite bool_decide_true in * by done; lia);
        rewrite bool_decide_false in * by (intros (? & ? & ?); congruence);
        lia.
    + apply N.eqb_neq in En. simpl.
      rewrite bool_decide_false; [lia|].
      intros (? & ? & ?). simplify_eq. lia.
  - rewrite exec_GetPool in Hex by done. simplify_eq.
    rewrite thread_local_init_frees. lia.
  - destruct (tls s !! (T, t)) as [q|] eqn:Ht;
      [|by simpl in Hex; rewrite Ht in Hex].
    destruct (exec_ThreadExit T t q s Hinv Ht) as (P & HP & Hspec).
    rewrite Hspec in Hex. simplify_eq.
    destruct (use_count P) as [|[|n]]; simpl; log_tac.
Qed.


(** What a successful operation must have been. *)
Lemma exec_Construct_Some T t h v s s' :
  inv s → exec (Construct T t h v) s = Some s' →
  valid_storage h = true ∧ handles s !! h = None
  ∧ ∃ p P, tls (thread_local_init T t s) !! (T, t) = Some p
           ∧ pools (thread_local_init T t s) !! p = Some P
           ∧ elem P = T ∧ home P = t
           ∧ s' = ctor_result t h v p P (thread_local_init T t s).
Proof.
  intros Hinv Hex. simpl in Hex. unfold SmallImpl_ctor in Hex.
  destruct (valid_storage h) eqn:Hv; [|done].
  destruct (bool_decide (handles s !! h = None)) eqn:Hf; [|done].
  apply bool_decide_eq_true in Hf.
  destruct (SmallImpl_ctor_spec T t h v s Hinv Hv Hf)
    as (p & P & Hp & HP & ? & ? & Hspec).
  unfold SmallImpl_ctor in Hspec.
  rewrite Hv, bool_decide_true in Hspec by done. simpl in *.
  rewrite Hspec in Hex. simplify_eq. split_and!; try done.
  by exists p, P.
Qed.

Lemma exec_Copy_Some t h item s s' :
  inv s → exec (Copy t h item) s = Some s' →
  valid_storage h = true ∧ handles s !! h = None
  ∧ ∃ i a, handles s !! item = Some i ∧ counter_ i = Some a.
Proof.
  intros Hinv Hex. simpl in Hex. unfold SmallImpl_copy in Hex.
  destruct (valid_storage h) eqn:Hv; [|done].
  destruct (bool_decide (handles s !! h = None)) eqn:Hf; [|done].
  apply bool_decide_eq_true in Hf. simpl in Hex.
  destruct (handles s !! item) as [i|] eqn:Hi; [|done].
  destruct (counter_ i) as [a|] eqn:Ha; [by eauto 10|].
  simpl in Hex. destruct (shared_ptr_copy (owner_ i) s); simpl in Hex;
    rewrite ?Ha in Hex; done.
Qed.

Lemma exec_Destroy_Some t h s s' :
  exec (Destroy t h) s = Some s' →
  ∃ i a, handles s !! h = Some i ∧ counter_ i = Some a.
Proof.
  intros Hex. simpl in Hex. unfold SmallImpl_dtor in Hex.
  destruct (handles s !! h) as [i|] eqn:Hi; [|done]. simpl in Hex.
  destruct (counter_ i) as [a|] eqn:Ha; [by eauto|done].
Qed.

(** A copy never wraps the counter around. *)
Lemma copy_no_wrap s h item i a c :
  inv s → valid_storage h = true → handles s !! h = None →
  handles s !! item = Some i → counter_ i = Some a → mem s !! a = Some c →
  pre_increment (uses (obj c)) = (uses (obj c) + 1)%N.
Proof.
  intros Hinv Hv Hf Hi Ha Hm.
  destruct (live_handle _ _ _ _ Hinv Hi Ha)
    as (c' & P & Hm' & Ho & HP & Hmx & Hu & Hr1 & Hrb & Huc & Ho1).
  simplify_eq. apply valid_storage_true in Hv as [Hh0 Hhb].
  pose proof (copy_inv s h item i a c P Hinv Hi Ha Hm HP Hf Hh0 Hhb) as Hinv'.
  pose proof (cell_uses _ (inv_cells _ Hinv') a) as Hu'. simpl in Hu'.
  rewrite lookup_insert_eq in Hu'. specialize (Hu' _ eq_refl). simpl in Hu'.
  rewrite Hu', refs_insert, decide_True, Hu by done. lia.
Qed.

(** C2: a cell is constructed with use-count 1; after any sequence of
    operations the use-count of every cell equals the number of live
    handles on it and is not zero, in particular for every cell a live
    handle refers to; each construction of a cell is matched by exactly
    one release unless the cell is still alive; and an operation releases
    a cell exactly when it destroys the last handle on it. *)
Theorem use_count_counts_live_handles limit os s :
  run os (init limit) = Some s →
  (∀ T t h v s' i a,
      exec (Construct T t h v) s = Some s' →
      handles s' !! h = Some i → counter_ i = Some a →
      mem s' !! a = Some (mkCell (owner_ i) (mkAtomicCounter v 1))
      ∧ refs a (handles s') = 1)
  ∧ (∀ a c, mem s !! a = Some c →
      uses (obj c) = N.of_nat (refs a (handles s)) ∧ uses (obj c) ≠ 0%N)
  ∧ (∀ h i a, handles s !! h = Some i → counter_ i = Some a →
      ∃ c, mem s !! a = Some c ∧ uses (obj c) ≠ 0%N)
  ∧ (∀ p a,
      occurrences (EvNew p a) (log s)
      = occurrences (EvFree p a) (log s) + constructed p a s)
  ∧ (∀ o s' p a, exec o s = Some s' →
      occurrences (EvFree p a) (log s')
      = occurrences (EvFree p a) (log s)
        + (if last_reference o p a s then 1 else 0)).
Proof.
  intros Hrun. pose proof (reachable_inv _ _ _ Hrun) as Hinv.
  assert (∀ s0 a c, inv s0 → mem s0 !! a = Some c →
            uses (obj c) = N.of_nat (refs a (handles s0))
            ∧ uses (obj c) ≠ 0%N) as Hcell.
  { intros s0 a c Hinv0 Hc.
    pose proof (cell_uses _ (inv_cells _ Hinv0) _ _ Hc) as Hu.
    pose proof (cell_referenced _ (inv_cells _ Hinv0) _ _ Hc). split; [done|lia]. }
  split_and!.
  - intros T t h v s' i a Hex Hi Ha.
    pose proof (exec_inv _ _ _ Hinv Hex) as Hinv'.
    destruct (exec_Construct_Some _ _ _ _ _ _ Hinv Hex)
      as (Hv & Hf & p & P & Hp & HP & _ & _ & ->).
    destruct (live_handle _ _ _ _ Hinv' Hi Ha) as (c & _ & Hm & _ & _ & _ & Hu & _).
    revert Hi Hm Hu. unfold ctor_result.
    destruct (free_list P) as [|a' l];
      [destruct (_ <? _)|]; simpl; rewrite lookup_insert_eq;
      intros [= <-]; simpl in *; simplify_eq;
      rewrite lookup_insert_eq; intros [= <-]; simpl; intros Hu; split; try done; lia.
  - intros a c Hc. by apply Hcell.
  - intros h i a Hi Ha.
    destruct (handle_counter _ (inv_handles _ Hinv) _ _ _ Hi Ha) as (c & Hc & _).
    exists c. split; [done|]. by eapply Hcell.
  - apply (log_new_free _ (inv_log _ Hinv)).
  - intros o s' p a Hex. by apply exec_frees.
Qed.

(** C3: copying a handle that refers to a cell succeeds; the copy holds
    the source's pool reference, whose count grows by one, and the
    source's cell reference; the cell's use-count grows by exactly one
    and nothing else in memory changes: no cell is constructed, and the
    references returned by [data()] on source and copy are the same. *)
Theorem copy_shares_the_cell limit os s t h item i a :
  run os (init limit) = Some s →
  valid_storage h = true → handles s !! h = None →
  handles s !! item = Some i → counter_ i = Some a →
  ∃ c P s',
    mem s !! a = Some c ∧ pools s !! owner_ i = Some P
    ∧ exec (Copy t h item) s = Some s'
    ∧ handles s' !! h = Some (mkSmallImpl (owner_ i) (Some a))
    ∧ handles s' !! item = Some i
    ∧ pools s' !! owner_ i = Some (set_use_count (S (use_count P)) P)
    ∧ mem s' = <[a := set_uses (uses (obj c) + 1) c]> (mem s)
    ∧ dom (mem s') = dom (mem s)
    ∧ log s' = log s
    ∧ SmallImpl_data h s' = Some a ∧ SmallImpl_data item s' = Some a
    ∧ read h s' = Some (data (obj c))
    ∧ read item s' = Some (data (obj c)).
Proof.
  intros Hrun Hv Hf Hi Ha. pose proof (reachable_inv _ _ _ Hrun) as Hinv.
  destruct (SmallImpl_copy_spec t h item i a s Hinv Hv Hf Hi Ha)
    as (c & P & Hm & HP & Hspec).
  rewrite (copy_no_wrap s h item i a c) in Hspec by done.
  assert (item ≠ h) as Hne by congruence.
  match type of Hspec with _ = Some ?x => exists c, P, x end.
  split_and!; try done; simpl.
  - by rewrite lookup_insert_eq, Ha.
  - by rewrite lookup_insert_ne.
  - by rewrite lookup_insert_eq.
  - apply dom_insert_lookup_L. by rewrite Hm.
  - unfold SmallImpl_data. simpl. by rewrite lookup_insert_eq.
  - unfold SmallImpl_data. simpl. by rewrite lookup_insert_ne, Hi by done.
  - unfold read, SmallImpl_data, deref. simpl.
    rewrite lookup_insert_eq. simpl. rewrite Ha. simpl.
    by rewrite lookup_insert_eq.
  - unfold read, SmallImpl_data, deref. simpl.
    rewrite lookup_insert_ne, Hi by done. simpl. rewrite Ha. simpl.
    by rewrite lookup_insert_eq.
Qed.

(** C4: destroying a handle that refers to a cell succeeds and
    decrements the cell's use-count by one.  If the result is zero, the
    owning pool releases the cell: lock, destructor of the cell, chunk
    back on the free list, unlock, in this order and by the destroying
    thread; otherwise the cell stays with the decremented count and
    nothing is locked, destroyed or freed. *)
Theorem destroy_releases_on_zero limit os s t h i a :
  run os (init limit) = Some s →
  handles s !! h = Some i → counter_ i = Some a →
  ∃ c P s',
    mem s !! a = Some c ∧ owner c = owner_ i
    ∧ pools s !! owner_ i = Some P
    ∧ exec (Destroy t h) s = Some s'
    ∧ (1 ≤ uses (obj c))%N
    ∧ pre_decrement (uses (obj c)) = (uses (obj c) - 1)%N
    ∧ handles s' = delete h (handles s)
    ∧ if (uses (obj c) - 1 =? 0)%N then
        mem s' = delete a (mem s)
        ∧ (∃ tail,
             log s' = tail ++ [EvUnlock t (owner_ i); EvFree (owner_ i) a;
                               EvDtor (owner_ i) a; EvLock t (owner_ i)]
                           ++ log s
             ∧ (tail = [] ∨ tail = [EvPoolDtor (owner_ i)]))
        ∧ (∀ P', pools s' !! owner_ i = Some P' →
             free_list P' = ordered_free a (free_list P) ∧ a ∈ free_list P'
             ∧ mutex P' = false)
      else
        mem s' = <[a := set_uses (uses (obj c) - 1) c]> (mem s)
        ∧ log s' = log s
        ∧ (∀ P', pools s' !! owner_ i = Some P' →
             free_list P' = free_list P).
Proof.
  intros Hrun Hi Ha. pose proof (reachable_inv _ _ _ Hrun) as Hinv.
  destruct (SmallImpl_dtor_spec t h i a s Hinv Hi Ha)
    as (c & P & Hm & Ho & HP & Hn & Hr1 & Hspec).
  pose proof (cell_uses _ (inv_cells _ Hinv) _ _ Hm) as Hu.
  assert (pre_decrement (uses (obj c)) = (uses (obj c) - 1)%N) as Hdec.
  { rewrite Hn, Hu. lia. }
  exists c, P, (dtor_result t h i a c P s).
  split_and!; try done; [lia|by unfold dtor_result; repeat case_match|].
  unfold dtor_result. rewrite Hdec.
  destruct (uses (obj c) - 1 =? 0)%N eqn:En.
  - destruct (use_count P) as [|[|n]] eqn:Euc; simpl.
    + split_and!; [done|exists []; by split; [|left]|].
      intros P'. rewrite lookup_insert_eq. intros [= <-]. simpl.
      split_and!; [done|apply elem_of_ordered_free; by left|done].
    + split_and!; [done|exists [EvPoolDtor (owner_ i)]; by split; [|right]|].
      intros P'. by rewrite lookup_delete_eq.
    + split_and!; [done|exists []; by split; [|left]|].
      intros P'. rewrite lookup_insert_eq. intros [= <-]. simpl.
      split_and!; [done|apply elem_of_ordered_free; by left|done].
  - simpl. split_and!; try done.
    intros P'. rewrite lookup_insert_eq. by intros [= <-].
Qed.

Lemma thread_local_init_mem T t s : mem (thread_local_init T t s) = mem s.
Proof. unfold thread_local_init. by destruct (tls s !! (T, t)). Qed.

Lemma thread_local_init_tls T t s k q :
  tls s !! k = Some q → tls (thread_local_init T t s) !! k = Some q.
Proof.
  intros Hk. unfold thread_local_init.
  destruct (tls s !! (T, t)) as [p|] eqn:E; [done|]. simpl.
  rewrite lookup_insert_ne; [done|]. congruence.
Qed.

Lemma ctor_result_tls t h v p P s1 : tls (ctor_result t h v p P s1) = tls s1.
Proof. unfold ctor_result. by repeat case_match. Qed.

Lemma dtor_result_tls t h i a c P s : tls (dtor_result t h i a c P s) = tls s.
Proof. unfold dtor_result. by repeat case_match. Qed.

(** Only the end of a thread takes a pool out of its [thread_local]
    variable. *)
Lemma exec_tls o s s' T t p :
  inv s → exec o s = Some s' → o ≠ ThreadExit T t →
  tls s !! (T, t) = Some p → tls s' !! (T, t) = Some p.
Proof.
  intros Hinv Hex Hne Ht. destruct o as [T' t' h v|t' h item|t' h|T' t'|T' t'].
  - destruct (exec_Construct_Some _ _ _ _ _ _ Hinv Hex)
      as (_ & _ & q & P & _ & _ & _ & _ & ->).
    rewrite ctor_result_tls. by apply thread_local_init_tls.
  - destruct (exec_Copy_Some _ _ _ _ _ Hinv Hex) as (Hv & Hf & i & a & Hi & Ha).
    destruct (SmallImpl_copy_spec t' h item i a s Hinv Hv Hf Hi Ha)
      as (c & P & _ & _ & Hspec).
    simpl in Hex. rewrite Hspec in Hex. by simplify_eq.
  - destruct (exec_Destroy_Some _ _ _ _ Hex) as (i & a & Hi & Ha).
    destruct (SmallImpl_dtor_spec t' h i a s Hinv Hi Ha)
      as (c & P & _ & _ & _ & _ & _ & Hspec).
    simpl in Hex. rewrite Hspec in Hex. simplify_eq.
    by rewrite dtor_result_tls.
  - rewrite exec_GetPool in Hex by done. simplify_eq.
    by apply thread_local_init_tls.
  - destruct (tls s !! (T', t')) as [q|] eqn:Ht';
      [|by simpl in Hex; rewrite Ht' in Hex].
    destruct (exec_ThreadExit T' t' q s Hinv Ht') as (P & HP & Hspec).
    rewrite Hspec in Hex. simplify_eq.
    destruct (use_count P) as [|[|n]]; simpl;
      rewrite lookup_delete_ne; done || congruence.
Qed.

Lemma run_tls os s s' T t p :
  inv s → run os s = Some s' → ThreadExit T t ∉ os →
  tls s !! (T, t) = Some p → tls s' !! (T, t) = Some p.
Proof.
  revert s. induction os as [|o os IH]; intros s Hinv Hrun Hnin Ht; simpl in *.
  - by simplify_eq.
  - destruct (exec o s) as [s1|] eqn:E; [|done]. simpl in Hrun.
    apply not_elem_of_cons in Hnin as [Hne Hnin].
    eapply (IH s1); try done.
    + by eapply exec_inv.
    + eapply exec_tls; try done.
Qed.

(** A cell keeps its owner as long as it lives. *)
Lemma exec_owner o s s' a c c' :
  inv s → exec o s = Some s' →
  mem s !! a = Some c → mem s' !! a = Some c' → owner c' = owner c.
Proof.
  intros Hinv Hex Hc Hc'. destruct o as [T' t' h v|t' h item|t' h|T' t'|T' t'].
  - destruct (exec_Construct_Some _ _ _ _ _ _ Hinv Hex)
      as (_ & _ & q & P & _ & HP & _ & _ & ->).
    pose proof (thread_local_init_inv T' t' s Hinv) as Hinv1.
    rewrite <-(thread_local_init_mem T' t') in Hc.
    revert Hc'. unfold ctor_result.
    destruct (free_list P) as [|a' l] eqn:Efl;
      [destruct (_ <? _)|]; simpl; intros Hc'.
    + apply lookup_insert_Some in Hc' as [[<- <-]|[Hne Hc']]; [|congruence].
      apply (cell_below_brk _ (inv_cells _ Hinv1)) in Hc. lia.
    + congruence.
    + apply lookup_insert_Some in Hc' as [[<- <-]|[Hne Hc']]; [|congruence].
      assert (a' ∈ free_list P) as Hin by (rewrite Efl; left).
      destruct (pool_free_chunk _ (inv_pools _ Hinv1) _ _ _ HP Hin). congruence.
  - destruct (exec_Copy_Some _ _ _ _ _ Hinv Hex) as (Hv & Hf & i & a0 & Hi & Ha).
    destruct (SmallImpl_copy_spec t' h item i a0 s Hinv Hv Hf Hi Ha)
      as (c0 & P & Hm0 & _ & Hspec).
    simpl in Hex. rewrite Hspec in Hex. simplify_eq. simpl in Hc'.
    apply lookup_insert_Some in Hc' as [[<- <-]|[Hne Hc']]; [|congruence].
    simpl. congruence.
  - destruct (exec_Destroy_Some _ _ _ _ Hex) as (i & a0 & Hi & Ha).
    destruct (SmallImpl_dtor_spec t' h i a0 s Hinv Hi Ha)
      as (c0 & P & Hm0 & _ & _ & _ & _ & Hspec).
    simpl in Hex. rewrite Hspec in Hex. simplify_eq.
    revert Hc'. unfold dtor_result. repeat case_match; simpl; intros Hc';
      try (apply lookup_delete_Some in Hc' as [? ?]; congruence).
    apply lookup_insert_Some in Hc' as [[<- <-]|[Hne Hc']]; [|congruence].
    simpl. congruence.
  - rewrite exec_GetPool in Hex by done. simplify_eq.
    rewrite thread_local_init_mem in Hc'. congruence.
  - destruct (tls s !! (T', t')) as [q|] eqn:Ht';
      [|by simpl in Hex; rewrite Ht' in Hex].
    destruct (exec_ThreadExit T' t' q s Hinv Ht') as (P & HP & Hspec).
    rewrite Hspec in Hex. simplify_eq.
    destruct (use_count P) as [|[|n]]; simpl in *; congruence.
Qed.

(** C5: in every reachable state a handle on a cell holds the pool that
    owns the cell, that pool is alive, and its shared count counts the
    handle; a cell keeps its owner over every operation; the end of a
    thread leaves the pools of all live handles alive; and the release
    done by a destructor, on whatever thread, happens in the pool of
    the handle's [owner_] and leaves every other pool as it was. *)
Theorem owner_pool_fixed_and_kept_alive limit os s :
  run os (init limit) = Some s →
  (∀ h i a, handles s !! h = Some i → counter_ i = Some a →
      ∃ c P, mem s !! a = Some c ∧ owner c = owner_ i
             ∧ pools s !! owner_ i = Some P
             ∧ use_count P
               = owners (owner_ i) (handles s) + locals (owner_ i) (tls s)
             ∧ 1 ≤ owners (owner_ i) (handles s))
  ∧ (∀ o s' a c c', exec o s = Some s' →
      mem s !! a = Some c → mem s' !! a = Some c' → owner c' = owner c)
  ∧ (∀ T t s' h i, exec (ThreadExit T t) s = Some s' →
      handles s !! h = Some i →
      tls s' !! (T, t) = None
      ∧ handles s' !! h = Some i ∧ is_Some (pools s' !! owner_ i))
  ∧ (∀ t h i a s', handles s !! h = Some i → counter_ i = Some a →
      exec (Destroy t h) s = Some s' →
      (∃ new, log s' = new ++ log s
              ∧ ∀ e, e ∈ new → event_pool e = owner_ i)
      ∧ (∀ p', p' ≠ owner_ i → pools s' !! p' = pools s !! p')).
Proof.
  intros Hrun. pose proof (reachable_inv _ _ _ Hrun) as Hinv.
  split_and!.
  - intros h i a Hi Ha.
    destruct (live_handle _ _ _ _ Hinv Hi Ha)
      as (c & P & Hm & Ho & HP & Hmx & Hu & Hr1 & Hrb & Huc & Ho1).
    by exists c, P.
  - intros o s' a c c' Hex. by eapply exec_owner.
  - intros T t s' h i Hex Hi.
    pose proof (exec_inv _ _ _ Hinv Hex) as Hinv'.
    destruct (tls s !! (T, t)) as [q|] eqn:Ht;
      [|by simpl in Hex; rewrite Ht in Hex].
    destruct (exec_ThreadExit T t q s Hinv Ht) as (P & HP & Hspec).
    rewrite Hspec in Hex. simplify_eq.
    destruct (use_count P) as [|[|n]]; simpl in *;
      (split_and!;
       [apply lookup_delete_eq|done
       |by eapply (handle_owner _ (inv_handles _ Hinv'))]).
  - intros t h i a s' Hi Ha Hex.
    destruct (SmallImpl_dtor_spec t h i a s Hinv Hi Ha)
      as (c & P & Hm & Ho & HP & Hn & Hr1 & Hspec).
    simpl in Hex. rewrite Hspec in Hex. simplify_eq.
    unfold dtor_result. repeat case_match; simpl; split;
      try (intros p' Hne; by rewrite ?lookup_insert_ne, ?lookup_delete_ne by done).
    + exists [EvUnlock t (owner_ i); EvFree (owner_ i) a;
              EvDtor (owner_ i) a; EvLock t (owner_ i)].
      split; [done|]. intros e He. repeat (apply elem_of_cons in He as [->|He]; [done|]).
      by apply elem_of_nil in He.
    + exists [EvPoolDtor (owner_ i); EvUnlock t (owner_ i); EvFree (owner_ i) a;
              EvDtor (owner_ i) a; EvLock t (owner_ i)].
      split; [done|]. intros e He. repeat (apply elem_of_cons in He as [->|He]; [done|]).
      by apply elem_of_nil in He.
    + exists [EvUnlock t (owner_ i); EvFree (owner_ i) a;
              EvDtor (owner_ i) a; EvLock t (owner_ i)].
      split; [done|]. intros e He. repeat (apply elem_of_cons in He as [->|He]; [done|]).
      by apply elem_of_nil in He.
    + exists []. split; [done|]. intros e He. by apply elem_of_nil in He.
Qed.

Lemma pools_distinct s k k' p p' :
  inv s → k ≠ k' → tls s !! k = Some p → tls s !! k' = Some p' → p ≠ p'.
Proof.
  intros Hinv Hne Hk Hk' <-. destruct k as [T t], k' as [T' t'].
  destruct (pool_local _ (inv_pools _ Hinv) _ _ _ Hk) as (P & HP & ? & ?).
  destruct (pool_local _ (inv_pools _ Hinv) _ _ _ Hk') as (P' & HP' & ? & ?).
  congruence.
Qed.

(** C6: [getPool<T>()] on thread [t] always returns a pool.  If the
    thread's variable is not initialised yet, the call creates a new,
    empty pool for [(T, t)]; otherwise it returns the pool the variable
    holds and creates nothing.  Whatever runs afterwards, short of the
    end of the thread, later calls on [t] return this same pool.  The
    pools of different payload types or threads are different objects,
    whose free lists share no chunk. *)
Theorem getPool_same_instance limit os s T t :
  run os (init limit) = Some s →
  ∃ p s1,
    getPool T t s = Some (p, s1)
    ∧ exec (GetPool T t) s = Some (thread_local_init T t s)
    ∧ tls (thread_local_init T t s) !! (T, t) = Some p
    ∧ (tls s !! (T, t) = None →
         pools s !! p = None
         ∧ pools (thread_local_init T t s) !! p
           = Some (mkParallelPool T t 1 [] false)
         ∧ log (thread_local_init T t s) = EvMakeShared T t p :: log s)
    ∧ (∀ q, tls s !! (T, t) = Some q →
         p = q ∧ thread_local_init T t s = s)
    ∧ (∀ os' s2, run os' (thread_local_init T t s) = Some s2 →
         ThreadExit T t ∉ os' →
         tls s2 !! (T, t) = Some p
         ∧ ∃ P s3, pools s2 !! p = Some P ∧ elem P = T ∧ home P = t
                   ∧ getPool T t s2 = Some (p, s3))
    ∧ (∀ T' t' p', (T', t') ≠ (T, t) →
         tls (thread_local_init T t s) !! (T', t') = Some p' →
         p' ≠ p
         ∧ ∀ P P' a, pools (thread_local_init T t s) !! p = Some P →
             pools (thread_local_init T t s) !! p' = Some P' →
             a ∈ free_list P → a ∉ free_list P').
Proof.
  intros Hrun. pose proof (reachable_inv _ _ _ Hrun) as Hinv.
  pose proof (thread_local_init_inv T t s Hinv) as Hinv1.
  destruct (getPool_spec T t s Hinv) as (p & P & Hp & HP & He & Hh & Hmx & Huc & Hget).
  match type of Hget with _ = Some (_, ?x) => exists p, x end.
  split_and!; [exact Hget|by apply exec_GetPool|done|..].
  - intros Hnone. revert Hp HP. unfold thread_local_init. rewrite Hnone. simpl.
    rewrite lookup_insert_eq. intros [= <-]. rewrite lookup_insert_eq.
    intros _. split_and!; try done.
    destruct (pools s !! next_pool s) as [P0|] eqn:E; [|done].
    apply (pool_below_next _ (inv_pools _ Hinv)) in E. lia.
  - intros q Hq. revert Hp. unfold thread_local_init. rewrite Hq.
    rewrite Hq. by intros [= <-].
  - intros os' s2 Hrun2 Hnin.
    pose proof (run_inv _ _ _ Hinv1 Hrun2) as Hinv2.
    pose proof (run_tls _ _ _ _ _ _ Hinv1 Hrun2 Hnin Hp) as Hp2.
    split; [done|].
    destruct (getPool_spec T t s2 Hinv2)
      as (p2 & P2 & Hp2' & HP2 & ? & ? & _ & _ & Hget2).
    assert (thread_local_init T t s2 = s2) as Heq
      by (unfold thread_local_init; by rewrite Hp2).
    rewrite Heq in *. simplify_eq. by eexists P2, _.
  - intros T' t' p' Hne Hp'.
    assert (p' ≠ p) as Hpp by (eapply pools_distinct; [| |exact Hp'|exact Hp]; done).
    split; [done|]. intros P1 P' a HP1 HP' Hin.
    exact (pool_free_disjoint _ (inv_pools _ Hinv1) _ _ _ _ a
             (not_eq_sym Hpp) HP1 HP' Hin).
Qed.

(** The handle a constructor leaves, and its cell when there is one. *)
Lemma ctor_result_handle t h v p P s1 :
  inv s1 → pools s1 !! p = Some P →
  ∃ c, handles (ctor_result t h v p P s1)
       = <[h := mkSmallImpl p c]> (handles s1)
       ∧ (c = None → mem (ctor_result t h v p P s1) = mem s1
                     ∧ heap_limit s1 ≤ brk s1 ∧ free_list P = [])
       ∧ ∀ a, c = Some a →
           mem s1 !! a = None
           ∧ mem (ctor_result t h v p P s1)
             = <[a := mkCell p (mkAtomicCounter v 1)]> (mem s1).
Proof.
  intros Hinv HP. unfold ctor_result.
  destruct (free_list P) as [|a' l] eqn:Efl;
    [destruct (brk s1 <? heap_limit s1) eqn:Elim|]; simpl.
  - exists (Some (brk s1)). split_and!; [done|done|]. intros a [= <-].
    split; [|done]. destruct (mem s1 !! brk s1) as [c|] eqn:E; [|done].
    apply (cell_below_brk _ (inv_cells _ Hinv)) in E. lia.
  - exists None. split_and!; [done| |done]. intros _.
    apply Nat.ltb_ge in Elim. done.
  - exists (Some a'). split_and!; [done|done|]. intros a [= <-].
    split; [|done].
    assert (a' ∈ free_list P) as Hin by (rewrite Efl; left).
    by destruct (pool_free_chunk _ (inv_pools _ Hinv) _ _ _ HP Hin).
Qed.

Lemma SmallImpl_data_eq h s i :
  handles s !! h = Some i → SmallImpl_data h s = counter_ i.
Proof. intros Hi. unfold SmallImpl_data. by rewrite Hi. Qed.

Lemma read_eq h s i a c :
  handles s !! h = Some i → counter_ i = Some a → mem s !! a = Some c →
  read h s = Some (data (obj c)).
Proof.
  intros Hi Ha Hc. unfold read, deref. rewrite (SmallImpl_data_eq h s i Hi), Ha.
  simpl. by rewrite Hc.
Qed.

Lemma pre_increment_1 : pre_increment 1 = 2%N.
Proof. reflexivity. Qed.
Lemma pre_decrement_2 : pre_decrement 2 = 1%N.
Proof. reflexivity. Qed.
Lemma pre_decrement_1 : pre_decrement 1 = 0%N.
Proof. reflexivity. Qed.

(** C7: construction of a pooled handle [h1] always returns, with a cell
    whenever the backing allocator has a chunk left.  When [h1] has a
    cell: copying it to [h2] and destroying [h1] succeed, after which
    [h2.data()] still refers to the same cell and reads the payload the
    constructor built; destroying [h2] then releases the cell, whose
    chunk is back on the free list of its pool. *)
Theorem copy_outlives_original limit os s T t1 t2 t3 t4 h1 h2 v :
  run os (init limit) = Some s →
  valid_storage h1 = true → handles s !! h1 = None →
  valid_storage h2 = true → handles s !! h2 = None → h1 ≠ h2 →
  ∃ s1,
    exec (Construct T t1 h1 v) s = Some s1
    ∧ (brk s < heap_limit s → is_Some (SmallImpl_data h1 s1))
    ∧ ∀ a, SmallImpl_data h1 s1 = Some a →
        ∃ s2 s3 s4 p,
          exec (Copy t2 h2 h1) s1 = Some s2
          ∧ exec (Destroy t3 h1) s2 = Some s3
          ∧ SmallImpl_data h2 s3 = Some a
          ∧ read h2 s3 = Some v
          ∧ exec (Destroy t4 h2) s3 = Some s4
          ∧ mem s4 !! a = None
          ∧ handles s4 = handles s
          ∧ occurrences (EvFree p a) (log s4)
            = S (occurrences (EvFree p a) (log s))
          ∧ (∀ P', pools s4 !! p = Some P' → a ∈ free_list P').
Proof.
  intros Hrun Hv1 Hf1 Hv2 Hf2 Hne. pose proof (reachable_inv _ _ _ Hrun) as Hinv.
  destruct (SmallImpl_ctor_spec T t1 h1 v s Hinv Hv1 Hf1)
    as (p & P & Hp & HP & _ & _ & Hex1).
  pose proof (thread_local_init_inv T t1 s Hinv) as Hinv0.
  set (s1 := ctor_result t1 h1 v p P (thread_local_init T t1 s)) in *.
  assert (exec (Construct T t1 h1 v) s = Some s1) as Hexec1 by exact Hex1.
  pose proof (exec_inv _ _ _ Hinv Hexec1) as Hinv1.
  destruct (ctor_result_handle t1 h1 v p P _ Hinv0 HP) as (c0 & Hh1 & Hnull & Hcell).
  fold s1 in Hh1, Hnull, Hcell.
  rewrite thread_local_init_handles in Hh1.
  rewrite thread_local_init_mem in Hnull, Hcell.
  exists s1. split_and!; [done| |].
  { intros Hlt. unfold SmallImpl_data. rewrite Hh1, lookup_insert_eq. simpl.
    destruct c0 as [a|]; [done|]. destruct (Hnull eq_refl) as (_ & Hge & _).
    revert Hge. unfold thread_local_init. destruct (tls s !! (T, t1)); simpl; lia. }
  intros a Hdata. unfold SmallImpl_data in Hdata.
  rewrite Hh1, lookup_insert_eq in Hdata. simpl in Hdata. subst c0.
  destruct (Hcell a eq_refl) as [Hfresh Hm1].
  set (i1 := mkSmallImpl p (Some a)) in *.
  assert (handles s1 !! h1 = Some i1) as Hi1 by (by rewrite Hh1, lookup_insert_eq).
  assert (handles s1 !! h2 = None) as Hf2' by (by rewrite Hh1, lookup_insert_ne).
  (* the copy *)
  destruct (SmallImpl_copy_spec t2 h2 h1 i1 a s1 Hinv1 Hv2 Hf2' Hi1 eq_refl)
    as (c1 & P1 & Hc1 & HP1 & Hex2).
  rewrite Hm1, lookup_insert_eq in Hc1. injection Hc1 as <-.
  simpl in Hex2. rewrite pre_increment_1 in Hex2.
  match type of Hex2 with _ = Some ?x => set (s2 := x) in * end.
  assert (exec (Copy t2 h2 h1) s1 = Some s2) as Hexec2 by exact Hex2.
  pose proof (exec_inv _ _ _ Hinv1 Hexec2) as Hinv2.
  (* the original dies *)
  assert (handles s2 !! h1 = Some i1) as Hi1'
    by (simpl; by rewrite lookup_insert_ne).
  destruct (SmallImpl_dtor_spec t3 h1 i1 a s2 Hinv2 Hi1' eq_refl)
    as (c2 & P2 & Hc2 & _ & HP2 & _ & _ & Hex3).
  simpl in Hc2. rewrite lookup_insert_eq in Hc2. injection Hc2 as <-.
  unfold dtor_result in Hex3. simpl in Hex3.
  rewrite pre_decrement_2 in Hex3. simpl in Hex3.
  match type of Hex3 with _ = Some ?x => set (s3 := x) in * end.
  assert (exec (Destroy t3 h1) s2 = Some s3) as Hexec3 by exact Hex3.
  pose proof (exec_inv _ _ _ Hinv2 Hexec3) as Hinv3.
  (* the copy dies *)
  assert (handles s3 !! h2 = Some i1) as Hi2.
  { simpl. rewrite lookup_delete_ne, lookup_insert_eq; done. }
  assert (mem s3 !! a = Some (mkCell p (mkAtomicCounter v 1))) as Hm3.
  { simpl. by rewrite lookup_insert_eq. }
  destruct (SmallImpl_dtor_spec t4 h2 i1 a s3 Hinv3 Hi2 eq_refl)
    as (c3 & P3 & Hc3 & _ & HP3 & _ & _ & Hex4).
  rewrite Hm3 in Hc3. injection Hc3 as <-.
  assert (exec (Destroy t4 h2) s3
          = Some (dtor_result t4 h2 i1 a (mkCell p (mkAtomicCounter v 1)) P3 s3))
    as Hexec4 by exact Hex4.
  exists s2, s3, (dtor_result t4 h2 i1 a (mkCell p (mkAtomicCounter v 1)) P3 s3), p.
  split_and!; try done.
  - by rewrite (SmallImpl_data_eq _ _ _ Hi2).
  - by rewrite (read_eq _ _ _ _ _ Hi2 eq_refl Hm3).
  - unfold dtor_result. simpl. rewrite ?pre_decrement_1. simpl.
    destruct (use_count P3) as [|[|n]]; simpl; apply lookup_delete_eq.
  - assert (handles (dtor_result t4 h2 i1 a
                       (mkCell p (mkAtomicCounter v 1)) P3 s3)
            = delete h2 (handles s3)) as ->.
    { unfold dtor_result. by repeat case_match. }
    simpl. rewrite Hh1.
    rewrite delete_insert_ne, !delete_insert_eq by done.
    rewrite (delete_id _ h1) by done. by apply delete_id.
  - rewrite (exec_frees _ _ _ p a Hinv3 Hexec4).
    rewrite (exec_frees _ _ _ p a Hinv2 Hexec3).
    rewrite (exec_frees _ _ _ p a Hinv1 Hexec2).
    rewrite (exec_frees _ _ _ p a Hinv Hexec1).
    assert (refs a (handles s3) = 1) as Hr3.
    { apply Nat2N.inj.
      by rewrite <-(cell_uses _ (inv_cells _ Hinv3) _ _ Hm3). }
    assert (mem s2 !! a
            = Some (set_uses 2 (mkCell p (mkAtomicCounter v 1)))) as Hm2
      by apply lookup_insert_eq.
    assert (refs a (handles s2) = 2) as Hr2.
    { apply Nat2N.inj.
      by rewrite <-(cell_uses _ (inv_cells _ Hinv2) _ _ Hm2). }
    assert (last_reference (Destroy t4 h2) p a s3 = true) as ->.
    { unfold last_reference. rewrite Hi2. apply bool_decide_eq_true.
      split_and!; [done|done|exact Hr3]. }
    assert (last_reference (Destroy t3 h1) p a s2 = false) as ->.
    { unfold last_reference. rewrite Hi1'. apply bool_decide_eq_false.
      intros (_ & _ & ?). lia. }
    unfold last_reference. lia.
  - intros P'. unfold dtor_result. simpl. rewrite ?pre_decrement_1. simpl.
    destruct (use_count P3) as [|[|n]]; simpl;
      rewrite ?lookup_insert_eq, ?lookup_delete_eq; intros [= <-]; simpl;
      apply elem_of_ordered_free; by left.
Qed.

End Facts.

(** *** The runs of [main], and a construction without memory *)

Section Examples.
Local Open Scope nat_scope.
Local Open Scope string_scope.

(** After [Small<std::string> s("kek"); auto s1 = s;] the cell of
    ["kek"] has use-count [2], the number of its handles. *)
Lemma use_count_counts_live_handles_witness :
  run kek_copy_ops (init 4) = Some (after 4 kek_copy_ops)
  ∧ ∃ c, mem (after 4 kek_copy_ops) !! 1 = Some c
         ∧ uses (obj c) = 2%N
         ∧ uses (obj c) = N.of_nat (refs 1 (handles (after 4 kek_copy_ops))).
Proof.
  assert (run kek_copy_ops (init 4) = Some (after 4 kek_copy_ops)) as Hrun
    by (apply returns_default; vm_compute; reflexivity).
  split; [exact Hrun|].
  destruct (use_count_counts_live_handles 4 kek_copy_ops _ Hrun)
    as (_ & Hcells & _).
  exists (mkCell 0 (mkAtomicCounter "kek" 2)).
  assert (mem (after 4 kek_copy_ops) !! 1
          = Some (mkCell 0 (mkAtomicCounter "kek" 2))) as Hm
    by (vm_compute; reflexivity).
  split; [exact Hm|]. split; [reflexivity|].
  exact (proj1 (Hcells _ _ Hm)).
Defined.

(** [auto s1 = s;] in [main]: both handles refer to the cell at [1] and
    read ["kek"]. *)
Lemma copy_shares_the_cell_witness :
  run kek_ops (init 4) = Some (after 4 kek_ops)
  ∧ valid_storage 11 = true
  ∧ handles (after 4 kek_ops) !! 11 = None
  ∧ handles (after 4 kek_ops) !! 10 = Some (mkSmallImpl 0 (Some 1))
  ∧ ∃ s', exec (Copy 0 11 10) (after 4 kek_ops) = Some s'
          ∧ SmallImpl_data 11 s' = Some 1 ∧ SmallImpl_data 10 s' = Some 1
          ∧ read 11 s' = Some "kek".
Proof.
  assert (run kek_ops (init 4) = Some (after 4 kek_ops)) as Hrun
    by (apply returns_default; vm_compute; reflexivity).
  assert (valid_storage 11 = true) as Hv by (vm_compute; reflexivity).
  assert (handles (after 4 kek_ops) !! 11 = None) as Hf
    by (vm_compute; reflexivity).
  assert (handles (after 4 kek_ops) !! 10 = Some (mkSmallImpl 0 (Some 1))) as Hi
    by (vm_compute; reflexivity).
  split_and!; [exact Hrun|exact Hv|exact Hf|exact Hi|].
  destruct (copy_shares_the_cell 4 kek_ops _ 0 11 10 _ 1 Hrun Hv Hf Hi eq_refl)
    as (c & P & s' & Hm & _ & Hex & _ & _ & _ & _ & _ & _ & Hd1 & Hd2 & Hr & _).
  exists s'. split_and!; [exact Hex|exact Hd1|exact Hd2|].
  rewrite Hr. f_equal.
  assert (mem (after 4 kek_ops) !! 1
          = Some (mkCell 0 (mkAtomicCounter "kek" 1))) as Hm'
    by (vm_compute; reflexivity).
  rewrite Hm' in Hm. by injection Hm as <-.
Defined.

(** The only handle on ["kek"], destroyed by another thread, thread [7]:
    the cell is gone. *)
Lemma destroy_releases_on_zero_witness :
  run kek_ops (init 4) = Some (after 4 kek_ops)
  ∧ handles (after 4 kek_ops) !! 10 = Some (mkSmallImpl 0 (Some 1))
  ∧ ∃ s', exec (Destroy 7 10) (after 4 kek_ops) = Some s'
          ∧ handles s' = delete 10 (handles (after 4 kek_ops))
          ∧ mem s' = delete 1 (mem (after 4 kek_ops)).
Proof.
  assert (run kek_ops (init 4) = Some (after 4 kek_ops)) as Hrun
    by (apply returns_default; vm_compute; reflexivity).
  assert (handles (after 4 kek_ops) !! 10 = Some (mkSmallImpl 0 (Some 1))) as Hi
    by (vm_compute; reflexivity).
  split_and!; [exact Hrun|exact Hi|].
  destruct (destroy_releases_on_zero 4 kek_ops _ 7 10 _ 1 Hrun Hi eq_refl)
    as (c & P & s' & Hm & _ & _ & Hex & _ & _ & Hh & Hzero).
  exists s'. split_and!; [exact Hex|exact Hh|].
  assert (mem (after 4 kek_ops) !! 1
          = Some (mkCell 0 (mkAtomicCounter "kek" 1))) as Hm'
    by (vm_compute; reflexivity).
  rewrite Hm' in Hm. injection Hm as <-. exact (proj1 Hzero).
Defined.

(** The copy [s1] holds pool [0], which owns its cell and is alive. *)
Lemma owner_pool_fixed_and_kept_alive_witness :
  run kek_copy_ops (init 4) = Some (after 4 kek_copy_ops)
  ∧ handles (after 4 kek_copy_ops) !! 11 = Some (mkSmallImpl 0 (Some 1))
  ∧ ∃ c P, mem (after 4 kek_copy_ops) !! 1 = Some c ∧ owner c = 0
           ∧ pools (after 4 kek_copy_ops) !! 0 = Some P.
Proof.
  assert (run kek_copy_ops (init 4) = Some (after 4 kek_copy_ops)) as Hrun
    by (apply returns_default; vm_compute; reflexivity).
  assert (handles (after 4 kek_copy_ops) !! 11 = Some (mkSmallImpl 0 (Some 1)))
    as Hi by (vm_compute; reflexivity).
  split_and!; [exact Hrun|exact Hi|].
  destruct (owner_pool_fixed_and_kept_alive 4 kek_copy_ops _ Hrun) as (Hlive & _).
  destruct (Hlive _ _ _ Hi eq_refl) as (c & P & Hm & Ho & HP & _).
  exists c, P. split_and!; [exact Hm|exact Ho|exact HP].
Defined.

(** [getPool<std::string>()] on the main thread after [s] was constructed
    there. *)
Lemma getPool_same_instance_witness :
  run kek_ops (init 4) = Some (after 4 kek_ops)
  ∧ ∃ p s1, getPool Classifier.std_string 0 (after 4 kek_ops) = Some (p, s1)
            ∧ tls (thread_local_init Classifier.std_string 0 (after 4 kek_ops))
                !! (Classifier.std_string, 0) = Some p.
Proof.
  assert (run kek_ops (init 4) = Some (after 4 kek_ops)) as Hrun
    by (apply returns_default; vm_compute; reflexivity).
  split; [exact Hrun|].
  destruct (getPool_same_instance 4 kek_ops _ Classifier.std_string 0 Hrun)
    as (p & s1 & Hget & _ & Hp & _).
  exists p, s1. split; [exact Hget|exact Hp].
Defined.

(** The scenario from the start of the program, the copy made and destroyed
    by a second thread. *)
Lemma copy_outlives_original_witness :
  run [] (init 4) = Some (init (V := string) 4)
  ∧ valid_storage 10 = true ∧ handles (init (V := string) 4) !! 10 = None
  ∧ valid_storage 11 = true ∧ handles (init (V := string) 4) !! 11 = None
  ∧ 10 ≠ 11
  ∧ ∃ s1 a s2 s3 s4,
      exec (Construct Classifier.std_string 0 10
              "a string too long for the small buffer") (init 4) = Some s1
      ∧ SmallImpl_data 10 s1 = Some a
      ∧ exec (Copy 1 11 10) s1 = Some s2
      ∧ exec (Destroy 0 10) s2 = Some s3
      ∧ read 11 s3 = Some "a string too long for the small buffer"
      ∧ exec (Destroy 1 11) s3 = Some s4
      ∧ mem s4 !! a = None.
Proof.
  assert (valid_storage 10 = true) as Hv1 by (vm_compute; reflexivity).
  assert (valid_storage 11 = true) as Hv2 by (vm_compute; reflexivity).
  assert (10 ≠ 11) as Hne by lia.
  split_and!; [reflexivity|exact Hv1|reflexivity|exact Hv2|reflexivity|exact Hne|].
  destruct (copy_outlives_original 4 [] (init 4) Classifier.std_string 0 1 0 1 10 11
              "a string too long for the small buffer"
              eq_refl Hv1 eq_refl Hv2 eq_refl Hne)
    as (s1 & Hex & Hsome & Hrest).
  assert (brk (init (V := string) 4) < heap_limit (init (V := string) 4)) as Hlt
    by (simpl; lia).
  destruct (Hsome Hlt) as [a Ha].
  destruct (Hrest a Ha) as (s2 & s3 & s4 & p & H2 & H3 & _ & Hr & H4 & Hm & _).
  exists s1, a, s2, s3, s4.
  split_and!; [exact Hex|exact Ha|exact H2|exact H3|exact Hr|exact H4|exact Hm].
Defined.

(** C8 on the code: when the pool's free list is empty and the backing
    allocator has no chunk left, [boost::object_pool::construct] returns
    [nullptr] and the constructor of the handle returns normally; the handle
    it leaves holds a null cell pointer, on which [data()], the copy
    constructor and the destructor are undefined.  No cell was constructed,
    and the thread went on to release the pool's lock. *)
Theorem ctor_returns_null_handle_when_allocation_fails :
  exec (Construct Classifier.std_string 0 10 "Alien string") (init 1)
  = Some out_of_memory
  ∧ handles out_of_memory !! 10 = Some (mkSmallImpl 0 None)
  ∧ size (mem out_of_memory) = 0
  ∧ log out_of_memory
    = [EvUnlock 0 0; EvLock 0 0; EvMakeShared Classifier.std_string 0 0]
  ∧ SmallImpl_data 10 out_of_memory = None
  ∧ read 10 out_of_memory = None
  ∧ exec (Copy 0 11 10) out_of_memory = None
  ∧ exec (Destroy 0 10) out_of_memory = None.
Proof.
  split.
  - apply returns_default. vm_compute; reflexivity.
  - split_and!; vm_compute; reflexivity.
Qed.

End Examples.

End PooledFacts.

(** ** Racing destructors: one of them releases the cell *)

Module RaceFacts.
Import Pooled PooledFacts Race.
Local Open Scope nat_scope.

Lemma waiting_replace c t x y :
  pcs c !! t = Some x →
  waiting (mkConfig (cell c) (<[t := y]> (pcs c)))
    + (if decide (x = AtDecrement) then 1 else 0)
  = waiting c + (if decide (y = AtDecrement) then 1 else 0).
Proof.
  intros Ht. unfold waiting. simpl.
  exact (size_filter_replace (λ kv : nat * pc, kv.2 = AtDecrement) _ t x y Ht).
Qed.

Lemma waiting_le c : waiting c ≤ size (pcs c).
Proof. apply size_filter_le. Qed.

Lemma waiting_zero c t :
  waiting c = 0 → pcs c !! t ≠ Some AtDecrement.
Proof.
  intros Hw Ht. unfold waiting in Hw.
  exact (size_filter_pos (λ kv : nat * pc, kv.2 = AtDecrement) _ _ _ Ht eq_refl Hw).
Qed.

Lemma waiting_all c :
  (∀ t x, pcs c !! t = Some x → x = AtDecrement) → waiting c = size (pcs c).
Proof.
  intros Hall. unfold waiting. f_equal. apply map_filter_id.
  intros t x Ht. simpl. by eapply Hall.
Qed.

Lemma starting_inv p a n c : starting n c = true → race_inv p a n c.
Proof.
  unfold starting. rewrite !andb_true_iff, !bool_decide_eq_true.
  rewrite N.eqb_eq, N.ltb_lt, Nat.leb_le.
  intros [[[[[[[Hu Hb] Hl] Hm] Hlog] Hz] Hpcs] Hk].
  pose proof (waiting_all c Hpcs) as Hw.
  split.
  - done.
  - done.
  - rewrite Hu, Hw. f_equal. lia.
  - done.
  - intros Hzero Hne. by rewrite Hw in Hne.
  - intros t x Ht. rewrite (Hpcs _ _ Ht). done.
  - intros t. rewrite Hm. split; [done|].
    intros (x & Ht & Hx). rewrite (Hpcs _ _ Ht) in Hx. done.
  - rewrite Hl, Hz. split; [done|]. by intros (t & x & ? & _).
  - by rewrite Hlog, Hl.
Qed.

Lemma occurrences_cons_eq e (l : list event) :
  occurrences e (e :: l) = S (occurrences e l).
Proof. by rewrite occurrences_cons, decide_True. Qed.

Section Steps.
Variables (p : pid) (a : addr) (n : nat).

Lemma race_step_inv t c c' :
  race_inv p a n c → step p a t c = Next c' → race_inv p a n c'.
Proof.
  intros [Hk Hb Hu Hnone Hone Hrel Hmx Hlive Hlog] Hstep.
  unfold step in Hstep.
  destruct (pcs c !! t) as [x|] eqn:Ht; [|done].
  assert (∀ y, size (<[t := y]> (pcs c)) = size (pcs c)) as Hsize.
  { intros y. apply map_size_insert_Some. by rewrite Ht. }
  pose proof (waiting_le c) as Hwle.
  destruct x; try done.
  - (* the decrement *)
    destruct (cell_live (cell c)) eqn:Hl; [|done].
    assert (waiting c ≠ 0) as Hw by (intros Hw; by eapply waiting_zero).
    assert (uses (cell c) ≠ 0%N) as Hpos by (rewrite Hu; lia).
    pose proof (Hnone (or_introl Hpos)) as Hobs.
    assert (pre_decrement (uses (cell c))
            = N.of_nat (n + waiting c - size (pcs c) - 1)) as Hdec.
    { rewrite Hu. apply pre_decrement_of_nat; lia. }
    rewrite Hdec in Hstep.
    destruct (N.of_nat (n + waiting c - size (pcs c) - 1) =? 0)%N eqn:En;
      injection Hstep as <-.
    + apply N.eqb_eq in En.
      pose proof (waiting_replace c t _ AtLock Ht) as Hw'.
      rewrite decide_True, decide_False in Hw' by done.
      split; simpl.
      * by rewrite Hsize.
      * done.
      * rewrite Hsize. f_equal. unfold waiting in *. simpl in *. lia.
      * rewrite Hsize. unfold waiting in *. simpl in *. lia.
      * intros _ _. exists t, AtLock. rewrite Hobs, lookup_insert_eq. done.
      * intros t' x' [[<- <-]|[Hne Ht']]%lookup_insert_Some Hx'.
        -- by rewrite Hobs.
        -- pose proof (Hrel _ _ Ht' Hx'). congruence.
      * intros t'. rewrite Hmx. split.
        -- intros (x' & Ht' & Hx'). exists x'. split; [|done].
           rewrite lookup_insert_ne; [done|]. intros <-. by simplify_eq.
        -- intros (x' & [[<- <-]|[Hne Ht']]%lookup_insert_Some & Hx');
             [done|]. by exists x'.
      * split; [done|].
        intros (t' & x' & [= <-] & Ht' & Hx').
        rewrite lookup_insert_eq in Ht'. by simplify_eq.
      * done.
    + apply N.eqb_neq in En.
      pose proof (waiting_replace c t _ AtReleaseOwner Ht) as Hw'.
      rewrite decide_True, decide_False in Hw' by done.
      split; simpl.
      * by rewrite Hsize.
      * done.
      * rewrite Hsize. f_equal. unfold waiting in *. simpl in *. lia.
      * done.
      * intros Hz. lia.
      * intros t' x' [[<- <-]|[Hne Ht']]%lookup_insert_Some Hx'; [done|].
        by eapply Hrel.
      * intros t'. rewrite Hmx. split.
        -- intros (x' & Ht' & Hx'). exists x'. split; [|done].
           rewrite lookup_insert_ne; [done|]. intros <-. by simplify_eq.
        -- intros (x' & [[<- <-]|[Hne Ht']]%lookup_insert_Some & Hx');
             [done|]. by exists x'.
      * rewrite Hobs. split; [done|]. by intros (t' & x' & ? & _).
      * done.
  - (* the lock *)
    destruct (mutex (cell c)) as [t0|] eqn:Hm; [done|]. injection Hstep as <-.
    pose proof (waiting_replace c t _ AtDestroy Ht) as Hw'.
    rewrite !decide_False in Hw' by done.
    pose proof (Hrel _ _ Ht eq_refl) as Hobs.
    split; simpl.
    * by rewrite Hsize.
    * done.
    * rewrite Hsize. rewrite Hu. f_equal. unfold waiting in *.
      simpl in *. lia.
    * rewrite Hsize. unfold waiting in *. simpl in *.
      intros Hc. rewrite !Nat.add_0_r in Hw'. rewrite Hw' in Hc. by apply Hnone.
    * intros _ _. exists t, AtDestroy. by rewrite Hobs, lookup_insert_eq.
    * intros t' x' [[<- <-]|[Hne Ht']]%lookup_insert_Some Hx'; [done|].
      by eapply Hrel.
    * intros t'. split.
      -- intros [= <-]. exists AtDestroy. by rewrite lookup_insert_eq.
      -- intros (x' & [[<- <-]|[Hne Ht']]%lookup_insert_Some & Hx'); [done|].
         assert (None = Some t') as Hm' by (apply Hmx; by exists x').
         done.
    * rewrite Hlive, Hobs. split.
      -- intros (t' & x' & [= <-] & Ht' & Hx'). by simplify_eq.
      -- intros (t' & x' & [= <-] & Ht' & Hx').
         rewrite lookup_insert_eq in Ht'. by simplify_eq.
    * by rewrite !occurrences_cons_ne.
  - (* pool.destroy *)
    destruct (cell_live (cell c)) eqn:Hl; [|done]. injection Hstep as <-.
    pose proof (waiting_replace c t _ AtUnlock Ht) as Hw'.
    rewrite !decide_False in Hw' by done.
    pose proof (Hrel _ _ Ht eq_refl) as Hobs.
    split; simpl.
    * by rewrite Hsize.
    * done.
    * rewrite Hsize. rewrite Hu. f_equal. unfold waiting in *.
      simpl in *. lia.
    * rewrite Hsize. unfold waiting in *. simpl in *.
      intros Hc. rewrite !Nat.add_0_r in Hw'. rewrite Hw' in Hc. by apply Hnone.
    * intros _ _. exists t, AtUnlock. by rewrite Hobs, lookup_insert_eq.
    * intros t' x' [[<- <-]|[Hne Ht']]%lookup_insert_Some Hx'; [done|].
      by eapply Hrel.
    * intros t'. rewrite Hmx. split.
      -- intros (x' & Ht' & Hx'). destruct (decide (t' = t)) as [->|Hne].
         ++ exists AtUnlock. by rewrite lookup_insert_eq.
         ++ exists x'. by rewrite lookup_insert_ne.
      -- intros (x' & [[<- <-]|[Hne Ht']]%lookup_insert_Some & Hx').
         ++ by exists AtDestroy.
         ++ by exists x'.
    * split; [intros _|done]. exists t, AtUnlock.
      by rewrite Hobs, lookup_insert_eq.
    * rewrite occurrences_cons_ne, occurrences_cons_eq by done.
      rewrite occurrences_cons_eq, occurrences_cons_ne by done.
      destruct Hlog as [-> ->]. by rewrite ?Hl.
  - (* the unlock *)
    injection Hstep as <-.
    pose proof (waiting_replace c t _ AtReleaseOwner Ht) as Hw'.
    rewrite !decide_False in Hw' by done.
    pose proof (Hrel _ _ Ht eq_refl) as Hobs.
    assert (mutex (cell c) = Some t) as Hm by (apply Hmx; by exists AtUnlock).
    split; simpl.
    * by rewrite Hsize.
    * done.
    * rewrite Hsize. rewrite Hu. f_equal. unfold waiting in *.
      simpl in *. lia.
    * rewrite Hsize. unfold waiting in *. simpl in *.
      intros Hc. rewrite !Nat.add_0_r in Hw'. rewrite Hw' in Hc. by apply Hnone.
    * intros _ _. exists t, AtReleaseOwner. by rewrite Hobs, lookup_insert_eq.
    * intros t' x' [[<- <-]|[Hne Ht']]%lookup_insert_Some Hx'; [done|].
      by eapply Hrel.
    * intros t'. split; [done|].
      intros (x' & [[<- <-]|[Hne Ht']]%lookup_insert_Some & Hx'); [done|].
      assert (mutex (cell c) = Some t') as Hm' by (apply Hmx; by exists x').
      congruence.
    * rewrite Hlive, Hobs. split.
      -- intros _. exists t, AtReleaseOwner. by rewrite lookup_insert_eq.
      -- intros _. by exists t, AtUnlock.
    * by rewrite !occurrences_cons_ne.
  - (* the owner's release *)
    injection Hstep as <-.
    pose proof (waiting_replace c t _ Finished Ht) as Hw'.
    rewrite !decide_False in Hw' by done.
    split; simpl.
    * by rewrite Hsize.
    * done.
    * rewrite Hsize. rewrite Hu. f_equal. unfold waiting in *.
      simpl in *. lia.
    * rewrite Hsize. unfold waiting in *. simpl in *.
      intros Hc. rewrite !Nat.add_0_r in Hw'. rewrite Hw' in Hc. by apply Hnone.
    * intros Hz Hne. rewrite Hsize in Hne.
      unfold waiting in *. simpl in *. rewrite !Nat.add_0_r in Hw'.
      rewrite Hw' in Hne. destruct (Hone Hz Hne) as (t' & x' & Ho & Ht' & Hx').
      destruct (decide (t' = t)) as [->|Hnt].
      -- exists t, Finished. by rewrite lookup_insert_eq.
      -- exists t', x'. by rewrite lookup_insert_ne.
    * intros t' x' [[<- <-]|[Hne Ht']]%lookup_insert_Some Hx'; [done|].
      by eapply Hrel.
    * intros t'. rewrite Hmx. split.
      -- intros (x' & Ht' & Hx'). exists x'. split; [|done].
         rewrite lookup_insert_ne; [done|]. intros <-. by simplify_eq.
      -- intros (x' & [[<- <-]|[Hne Ht']]%lookup_insert_Some & Hx');
           [done|]. by exists x'.
    * rewrite Hlive. split.
      -- intros (t' & x' & Ho & Ht' & Hx'). destruct (decide (t' = t)) as [->|Hnt].
         ++ exists t, Finished. by rewrite lookup_insert_eq.
         ++ exists t', x'. by rewrite lookup_insert_ne.
      -- intros (t' & x' & Ho & [[<- <-]|[Hne Ht']]%lookup_insert_Some & Hx').
         ++ by exists t, AtReleaseOwner.
         ++ by exists t', x'.
    * done.
Qed.

Lemma step_size t c c' :
  step p a t c = Next c' → size (pcs c') = size (pcs c).
Proof.
  unfold step. intros Hstep.
  destruct (pcs c !! t) as [x|] eqn:Ht; [|done].
  assert (∀ y, size (<[t := y]> (pcs c)) = size (pcs c)) as Hsize.
  { intros y. apply map_size_insert_Some. by rewrite Ht. }
  destruct x; try done; repeat case_match; simplify_eq; simpl; apply Hsize.
Qed.

Lemma race_run_inv sched c c' :
  race_inv p a n c → run p a sched c = Some c' →
  race_inv p a n c' ∧ size (pcs c') = size (pcs c).
Proof.
  revert c. induction sched as [|t sched IH]; intros c Hinv Hrun; simpl in *.
  - by simplify_eq.
  - destruct (step p a t c) as [c1| | |] eqn:Hstep; try done.
    destruct (IH c1) as [Hinv' Hsize]; [by eapply race_step_inv|done|].
    split; [done|]. rewrite Hsize. by eapply step_size.
Qed.

(** No destructor touches the cell once it is destroyed. *)
Lemma step_defined t c : race_inv p a n c → step p a t c ≠ Undefined.
Proof.
  intros [Hk Hb Hu Hnone Hone Hrel Hmx Hlive Hlog]. unfold step.
  destruct (pcs c !! t) as [x|] eqn:Ht; [|done].
  destruct x; try done.
  - destruct (cell_live (cell c)) eqn:Hl; [by repeat case_match|].
    exfalso. destruct (proj1 Hlive eq_refl) as (t' & x' & Ho & Ht' & Hx').
    assert (waiting c ≠ 0) as Hw by (intros Hw; by eapply waiting_zero).
    pose proof (waiting_le c).
    assert (uses (cell c) ≠ 0%N) as Hpos by (rewrite Hu; lia).
    rewrite (Hnone (or_introl Hpos)) in Ho. done.
  - by destruct (mutex (cell c)).
  - destruct (cell_live (cell c)) eqn:Hl; [done|].
    exfalso. destruct (proj1 Hlive eq_refl) as (t' & x' & Ho & Ht' & Hx').
    rewrite (Hrel _ _ Ht eq_refl) in Ho. by simplify_eq.
Qed.

(** C9: [n] handles share a cell and some of them are destroyed
    concurrently, under any schedule.  At most one thread sees its
    decrement return zero; only that thread is ever between the test
    and the end of the release, so the cell is destroyed and freed at
    most once.  If all [n] handles are destroyed, then as soon as every
    thread has decremented exactly one has seen zero, and when all have
    finished the cell is released exactly once; if a handle stays, none
    sees zero and the cell lives on.  The decrement is one step that is
    enabled whoever holds the mutex and leaves the mutex alone; no step
    touches a destroyed cell, and some thread can always move until all
    have finished. *)
Theorem one_destructor_observes_zero c0 sched c :
  starting n c0 = true → run p a sched c0 = Some c →
  length (observed_zero (cell c)) ≤ 1
  ∧ (∀ t x, pcs c !! t = Some x → in_release x = true →
       observed_zero (cell c) = [t])
  ∧ occurrences (EvDtor p a) (log (cell c)) ≤ 1
  ∧ occurrences (EvFree p a) (log (cell c)) ≤ 1
  ∧ (size (pcs c0) = n → n ≠ 0 → waiting c = 0 →
       ∃ t, observed_zero (cell c) = [t])
  ∧ (size (pcs c0) = n → n ≠ 0 →
       (∀ t x, pcs c !! t = Some x → x = Finished) →
       cell_live (cell c) = false
       ∧ occurrences (EvDtor p a) (log (cell c)) = 1
       ∧ occurrences (EvFree p a) (log (cell c)) = 1
       ∧ mutex (cell c) = None)
  ∧ (size (pcs c0) < n →
       observed_zero (cell c) = [] ∧ cell_live (cell c) = true)
  ∧ (∀ t, pcs c !! t = Some AtDecrement →
       ∃ c', step p a t c = Next c'
             ∧ (1 ≤ uses (cell c))%N
             ∧ uses (cell c') = (uses (cell c) - 1)%N
             ∧ mutex (cell c') = mutex (cell c))
  ∧ (∀ t, step p a t c ≠ Undefined)
  ∧ ((∃ t x, pcs c !! t = Some x ∧ x ≠ Finished) →
       ∃ t c', step p a t c = Next c').
Proof.
  intros Hstart Hrun.
  destruct (race_run_inv _ _ _ (starting_inv p a n c0 Hstart) Hrun) as [Hinv Hsize].
  pose proof Hinv as [Hk Hb Hu Hnone Hone Hrel Hmx Hlive Hlog].
  pose proof (waiting_le c) as Hwle.
  assert (uses (cell c) = 0%N → waiting c ≠ size (pcs c) →
          ∃ t, observed_zero (cell c) = [t]) as Hone'.
  { intros Hz Hw. destruct (Hone Hz Hw) as (t & x & ? & _). by exists t. }
  split_and!.
  - destruct (decide (uses (cell c) = 0%N)) as [Hz|Hnz];
      [destruct (decide (waiting c = size (pcs c))) as [Hw|Hw]|].
    + rewrite Hnone by (by right). simpl. lia.
    + destruct (Hone' Hz Hw) as [t ->]. simpl. lia.
    + rewrite Hnone by (by left). simpl. lia.
  - done.
  - destruct Hlog as [-> _]. destruct (cell_live (cell c)); lia.
  - destruct Hlog as [_ ->]. destruct (cell_live (cell c)); lia.
  - intros Hall Hn Hw. apply Hone'; [rewrite Hu|]; lia.
  - intros Hall Hn Hfin.
    assert (waiting c = 0) as Hw.
    { apply size_filter_zero. intros t x Ht. simpl. by rewrite (Hfin _ _ Ht). }
    destruct Hone as (t & x & Ho & Ht & Hx); [rewrite Hu; lia|lia|].
    assert (cell_live (cell c) = false) as Hl.
    { apply Hlive. exists t, x. split_and!; try done. by rewrite (Hfin _ _ Ht). }
    destruct Hlog as [-> ->]. rewrite Hl. split_and!; try done.
    destruct (mutex (cell c)) as [t'|] eqn:Hm; [|done].
    destruct (proj1 (Hmx t') eq_refl) as (x' & Ht' & Hx').
    by rewrite (Hfin _ _ Ht') in Hx'.
  - intros Hlt.
    assert (uses (cell c) ≠ 0%N) as Hpos by (rewrite Hu; lia).
    pose proof (Hnone (or_introl Hpos)) as Ho. split; [done|].
    destruct (cell_live (cell c)) eqn:Hl; [done|].
    destruct (proj1 Hlive eq_refl) as (t' & x' & Ho' & _). congruence.
  - intros t Ht.
    assert (waiting c ≠ 0) as Hw by (intros Hw; by eapply waiting_zero).
    pose proof (step_defined t c Hinv) as Hdef. unfold step in *.
    rewrite Ht in *.
    destruct (cell_live (cell c)); [|done].
    assert (pre_decrement (uses (cell c)) = (uses (cell c) - 1)%N) as Hdec.
    { rewrite Hu, pre_decrement_of_nat by lia. lia. }
    rewrite Hdec.
    destruct (uses (cell c) - 1 =? 0)%N; eexists; (split; [done|]); simpl;
      (split_and!; [rewrite Hu; lia|done|done]).
  - intros t. by apply step_defined.
  - intros (t & x & Ht & Hx).
    assert (∀ t0 x0, pcs c !! t0 = Some x0 → x0 ≠ Finished → x0 ≠ AtLock →
              ∃ c', step p a t0 c = Next c') as Hfree.
    { intros t0 x0 Ht0 Hx0 Hx0'.
      pose proof (step_defined t0 c Hinv) as Hdef. unfold step in *.
      rewrite Ht0 in *.
      destruct x0; try done; repeat case_match; eauto; by destruct Hdef. }
    destruct (decide (x = AtLock)) as [->|Hnl]; [|by exists t; eapply Hfree].
    destruct (mutex (cell c)) as [t'|] eqn:Hm.
    + destruct (proj1 (Hmx t') eq_refl) as (x' & Ht' & Hx').
      exists t'. eapply Hfree; [exact Ht'|by destruct x'..].
    + exists t. unfold step. rewrite Ht, Hm. eauto.
Qed.
End Steps.

(** Three destructors that all decrement first: thread [3] alone observes
    zero, and the cell is destroyed and freed once. *)
Lemma one_destructor_observes_zero_witness :
  starting 3 three_destructors = true
  ∧ ∃ c, run 0 1 decrements_first three_destructors = Some c
         ∧ observed_zero (cell c) = [3]
         ∧ cell_live (cell c) = false
         ∧ occurrences (EvDtor 0 1) (log (cell c)) = 1
         ∧ occurrences (EvFree 0 1) (log (cell c)) = 1.
Proof.
  assert (starting 3 three_destructors = true) as Hstart
    by (vm_compute; reflexivity).
  split; [exact Hstart|].
  exists (default three_destructors (run 0 1 decrements_first three_destructors)).
  assert (run 0 1 decrements_first three_destructors
          = Some (default three_destructors
                    (run 0 1 decrements_first three_destructors))) as Hrun
    by (apply returns_default; vm_compute; reflexivity).
  split; [exact Hrun|].
  destruct (one_destructor_observes_zero 0 1 3 _ _ _ Hstart Hrun)
    as (_ & _ & _ & _ & _ & Hfin & _).
  split; [vm_compute; reflexivity|].
  assert (map_Forall (λ _ x, x = Finished)
            (pcs (default three_destructors
                    (run 0 1 decrements_first three_destructors)))) as Hall.
  { refine (bool_decide_eq_true_1 _ _). vm_compute; reflexivity. }
  destruct (Hfin eq_refl ltac:(lia) Hall) as (Hl & Hd & Hfr & _).
  split_and!; [exact Hl|exact Hd|exact Hfr].
Defined.

End RaceFacts.

(** ** Reads of the inline representation *)

Module InlineFacts.
Import Classifier Inline.

(** C10: for every inline-eligible payload type both
    [data()] and the conversion operator return by value an object equal
    to the stored payload, never a reference; for a trivially copyable
    payload nothing else happens; for a [std::shared_ptr] payload that
    owns a control block the read adds one owner to that block and
    changes no other; an empty [std::shared_ptr] is copied to an empty
    one and no count changes. *)
Theorem inline_read_returns_a_copy sizeof_shared_ptr T this w :
  Small sizeof_shared_ptr T = Some inline →
  has_type T (data_ this) = true →
  (data this w).1 = by_value (data_ this)
  ∧ (operator_T this w).1 = by_value (data_ this)
  ∧ (operator_T this w).2 = (data this w).2
  ∧ (∀ place, (data this w).1 ≠ by_reference place)
  ∧ (is_trivially_copyable_v T = true → (data this w).2 = w)
  ∧ (∀ U, T = SharedPtr U →
       ∃ block, data_ this = SharedPointer block
         ∧ match block with
           | None => (data this w).2 = w
           | Some b =>
               (data this w).2 = alter S b w
               ∧ (∀ k, w !! b = Some k → (data this w).2 !! b = Some (S k))
               ∧ (∀ b', b' ≠ b → (data this w).2 !! b' = w !! b')
               ∧ (is_Some (w !! b) →
                    use_count (data_ this) (data this w).2
                    = S (use_count (data_ this) w))
           end).
Proof.
  intros Hsmall Hty. unfold data, operator_T.
  destruct T as [name [] sz|U0|q T'], this as [[bits|[b|]]];
    simpl in *; try done.
  - split_and!; try done. intros U _. exists (Some b). split; [done|].
    split_and!; try done.
    + intros k Hk. by rewrite lookup_alter_eq, Hk.
    + intros b' Hne. by rewrite lookup_alter_ne.
    + intros [k Hk]. by rewrite lookup_alter_eq, Hk.
  - split_and!; try done. intros U _. by exists None.
Qed.

(** Reading an empty [std::shared_ptr] payload increments no reference
    count: the statement that every read of a [std::shared_ptr] payload
    does fails for [Small<std::shared_ptr<tt>>] holding [nullptr]. *)
Lemma empty_shared_ptr_read_increments_nothing :
  let this := SmallImpl_ctor (SharedPointer None) in
  let w : gmap nat nat := {[ 7%nat := 1%nat ]} in
  Small (λ _, 16) (SharedPtr tt) = Some inline
  ∧ has_type (SharedPtr tt) (data_ this) = true
  ∧ (data this w).2 = w
  ∧ ¬ (use_count (data_ this) (data this w).2 = S (use_count (data_ this) w))
  ∧ ¬ (∃ b k, w !! b = Some k ∧ (data this w).2 !! b = Some (S k)).
Proof.
  simpl. split_and!; try done.
  intros (b & k & Hb & Hb'). rewrite Hb in Hb'. injection Hb'. lia.
Qed.

(** Reading a [Small<std::shared_ptr<tt>>] whose pointer is the only owner
    of the block at [7]: the block has two owners afterwards. *)
Lemma inline_read_returns_a_copy_witness :
  let this := SmallImpl_ctor (SharedPointer (Some 7%nat)) in
  let w : gmap nat nat := {[ 7%nat := 1%nat ]} in
  Small (λ _, 16) (SharedPtr tt) = Some inline
  ∧ has_type (SharedPtr tt) (data_ this) = true
  ∧ (data this w).1 = by_value (data_ this)
  ∧ (data this w).2 !! 7%nat = Some 2%nat.
Proof.
  intros this w.
  assert (Small (λ _, 16) (SharedPtr tt) = Some inline) as Hsmall
    by reflexivity.
  assert (has_type (SharedPtr tt) (data_ this) = true) as Hty by reflexivity.
  split; [exact Hsmall|]. split; [exact Hty|].
  destruct (inline_read_returns_a_copy (λ _, 16) (SharedPtr tt) this w
              Hsmall Hty) as (H1 & _ & _ & _ & _ & H2).
  split; [exact H1|].
  destruct (H2 tt eq_refl) as (block & Hb & Hm).
  injection Hb as <-. destruct Hm as (_ & Hk & _).
  apply Hk. reflexivity.
Defined.
End InlineFacts.

(** ** More laws of the pooled machine *)

Module PooledLaws.
Import Pooled PooledFacts Scenarios.

Section Laws.
Context {V : Type}.
Implicit Types s : state V.
Local Open Scope nat_scope.

(** What a step that returns has done, by the operation. *)
Lemma exec_cases o s s' :
  inv s → exec o s = Some s' →
  (∃ T t h v p P,
      o = Construct T t h v ∧ valid_storage h = true ∧ handles s !! h = None
      ∧ tls (thread_local_init T t s) !! (T, t) = Some p
      ∧ pools (thread_local_init T t s) !! p = Some P
      ∧ s' = ctor_result t h v p P (thread_local_init T t s))
  ∨ (∃ t h item i a c P,
      o = Copy t h item ∧ valid_storage h = true ∧ handles s !! h = None
      ∧ handles s !! item = Some i ∧ counter_ i = Some a
      ∧ mem s !! a = Some c ∧ pools s !! owner_ i = Some P
      ∧ s' = mkState (tls s)
               (<[owner_ i := set_use_count (S (use_count P)) P]> (pools s))
               (<[a := set_uses (pre_increment (uses (obj c))) c]> (mem s))
               (<[h := mkSmallImpl (owner_ i) (counter_ i)]> (handles s))
               (next_pool s) (brk s) (heap_limit s) (log s))
  ∨ (∃ t h i a c P,
      o = Destroy t h ∧ handles s !! h = Some i ∧ counter_ i = Some a
      ∧ mem s !! a = Some c ∧ owner c = owner_ i
      ∧ pools s !! owner_ i = Some P
      ∧ s' = dtor_result t h i a c P s)
  ∨ (∃ T t, o = GetPool T t ∧ s' = thread_local_init T t s)
  ∨ (∃ T t p P,
      o = ThreadExit T t ∧ tls s !! (T, t) = Some p ∧ pools s !! p = Some P
      ∧ s' = match use_count P with
             | 1 =>
                 mkState (delete (T, t) (tls s)) (delete p (pools s))
                   (mem s) (handles s) (next_pool s) (brk s)
                   (heap_limit s) (EvPoolDtor p :: log s)
             | uc =>
                 mkState (delete (T, t) (tls s))
                   (<[p := set_use_count (pred uc) P]> (pools s))
                   (mem s) (handles s) (next_pool s) (brk s)
                   (heap_limit s) (log s)
             end).
Proof.
  intros Hinv Hex. destruct o as [T t h v|t h item|t h|T t|T t].
  - left. destruct (exec_Construct_Some _ _ _ _ _ _ Hinv Hex)
      as (Hv & Hf & p & P & Hp & HP & _ & _ & ->).
    by exists T, t, h, v, p, P.
  - right; left.
    destruct (exec_Copy_Some _ _ _ _ _ Hinv Hex) as (Hv & Hf & i & a & Hi & Ha).
    destruct (SmallImpl_copy_spec t h item i a s Hinv Hv Hf Hi Ha)
      as (c & P & Hm & HP & Hspec).
    simpl in Hex. rewrite Hspec in Hex. injection Hex as <-.
    by exists t, h, item, i, a, c, P.
  - right; right; left.
    destruct (exec_Destroy_Some _ _ _ _ Hex) as (i & a & Hi & Ha).
    destruct (SmallImpl_dtor_spec t h i a s Hinv Hi Ha)
      as (c & P & Hm & Ho & HP & _ & _ & Hspec).
    simpl in Hex. rewrite Hspec in Hex. injection Hex as <-.
    by exists t, h, i, a, c, P.
  - right; right; right; left.
    rewrite exec_GetPool in Hex by done. injection Hex as <-. by exists T, t.
  - right; right; right; right.
    destruct (tls s !! (T, t)) as [p|] eqn:Ht;
      [|by simpl in Hex; rewrite Ht in Hex].
    destruct (exec_ThreadExit T t p s Hinv Ht) as (P & HP & Hspec).
    rewrite Hspec in Hex. injection Hex as <-.
    by exists T, t, p, P.
Qed.

(** One step leaves a handle it does not destroy as it is, and the payload
    of that handle's cell as it is. *)
Lemma exec_keeps_payload o s s' h i :
  inv s → exec o s = Some s' → handles s !! h = Some i →
  (∀ t, o ≠ Destroy t h) →
  handles s' !! h = Some i
  ∧ ∀ a c, counter_ i = Some a → mem s !! a = Some c →
      ∃ c', mem s' !! a = Some c' ∧ data (obj c') = data (obj c).
Proof.
  intros Hinv Hex Hi Hnd.
  destruct (exec_cases o s s' Hinv Hex)
    as [(T & t & h0 & v & p & P & -> & Hv & Hf & Hp & HP & ->)
       |[(t & h0 & item & i0 & a0 & c0 & P & -> & Hv & Hf & Hi0 & Ha0 & Hm0 & HP & ->)
       |[(t & h0 & i0 & a0 & c0 & P & -> & Hi0 & Ha0 & Hm0 & Ho0 & HP & ->)
       |[(T & t & -> & ->)
       |(T & t & p & P & -> & Ht & HP & ->)]]]].
  - pose proof (thread_local_init_inv T t s Hinv) as Hinv1.
    assert (h ≠ h0) as Hne by congruence.
    destruct (ctor_result_handle t h0 v p P _ Hinv1 HP) as (c1 & Hh & Hnull & Hcell).
    rewrite thread_local_init_handles in Hh.
    rewrite thread_local_init_mem in Hnull, Hcell.
    split; [by rewrite Hh, lookup_insert_ne|].
    intros a c Ha Hc. exists c. split; [|done].
    destruct c1 as [a1|].
    + destruct (Hcell a1 eq_refl) as (Hfresh & ->).
      rewrite lookup_insert_ne; [done|congruence].
    + destruct (Hnull eq_refl) as (-> & _). done.
  - assert (h ≠ h0) as Hne by congruence. simpl.
    split; [by rewrite lookup_insert_ne|].
    intros a c Ha Hc. destruct (decide (a = a0)) as [->|Hna].
    + rewrite lookup_insert_eq. eexists. split; [done|]. simpl. congruence.
    + rewrite lookup_insert_ne by done. by exists c.
  - assert (h ≠ h0) as Hne by (intros ->; by eapply Hnd).
    assert (handles (dtor_result t h0 i0 a0 c0 P s) = delete h0 (handles s)) as Hh.
    { unfold dtor_result. by repeat case_match. }
    split; [by rewrite Hh, lookup_delete_ne|].
    intros a c Ha Hc. destruct (decide (a = a0)) as [->|Hna].
    + destruct (SmallImpl_dtor_spec t h0 i0 a0 s Hinv Hi0 Ha0)
        as (c0' & P' & Hm0' & _ & _ & Hpre & Hrefs & _).
      assert (c0' = c0) as -> by congruence. assert (c = c0) as -> by congruence.
      assert (refs a0 (handles s) ≠ 1) as Hn1.
      { intros H1. destruct (last_handle s h0 i0 a0 Hinv Hi0 Ha0 H1) as (Hu & _).
        by eapply Hu. }
      pose proof (live_handle s h0 i0 a0 Hinv Hi0 Ha0)
        as (c1 & P1 & Hc1 & _ & _ & _ & _ & _ & Hb & _).
      unfold dtor_result. rewrite Hpre.
      destruct (N.eqb_spec (N.of_nat (refs a0 (handles s) - 1)) 0%N) as [Hz|Hz];
        [lia|].
      simpl. rewrite lookup_insert_eq. eexists. split; [done|done].
    + exists c. split; [|done]. unfold dtor_result.
      repeat case_match; simpl;
        rewrite ?lookup_delete_ne, ?lookup_insert_ne by done; done.
  - rewrite thread_local_init_handles, thread_local_init_mem. split; [done|].
    intros a c _ Hc. by exists c.
  - destruct (use_count P) as [|[|n]]; simpl; (split; [done|]);
      intros a c _ Hc; by exists c.
Qed.

Lemma run_keeps_payload os s s' h i :
  inv s → run os s = Some s' → handles s !! h = Some i →
  (∀ t, Destroy t h ∉ os) →
  handles s' !! h = Some i
  ∧ ∀ a c, counter_ i = Some a → mem s !! a = Some c →
      ∃ c', mem s' !! a = Some c' ∧ data (obj c') = data (obj c).
Proof.
  revert s. induction os as [|o os IH]; intros s Hinv Hrun Hi Hnd.
  - injection Hrun as <-. split; [done|]. intros a c _ Hc. by exists c.
  - simpl in Hrun. destruct (exec o s) as [s1|] eqn:Hex; [|done]. simpl in Hrun.
    assert (∀ t, o ≠ Destroy t h) as Hno.
    { intros t ->. apply (Hnd t). left. }
    assert (∀ t, Destroy t h ∉ os) as Hnd'.
    { intros t Hin. apply (Hnd t). by right. }
    destruct (exec_keeps_payload o s s1 h i Hinv Hex Hi Hno) as (Hi1 & Hc1).
    destruct (IH s1 (exec_inv _ _ _ Hinv Hex) Hrun Hi1 Hnd') as (Hi' & Hc').
    split; [done|]. intros a c Ha Hc.
    destruct (Hc1 a c Ha Hc) as (c1 & Hm1 & Hd1).
    destruct (Hc' a c1 Ha Hm1) as (c' & Hm' & Hd').
    exists c'. split; [done|congruence].
Qed.

(** As long as a handle is not destroyed, it stays the same handle object:
    [data()] returns the same reference, and reading through it gives the
    same payload, whatever else is constructed, copied, destroyed or ended
    in between, on any thread. *)
Theorem live_handle_reads_never_change limit os s os' s' h i :
  run os (init limit) = Some s → run os' s = Some s' →
  handles s !! h = Some i → (∀ t, Destroy t h ∉ os') →
  handles s' !! h = Some i
  ∧ SmallImpl_data h s' = SmallImpl_data h s
  ∧ read h s' = read h s.
Proof.
  intros Hrun Hrun' Hi Hnd. pose proof (reachable_inv _ _ _ Hrun) as Hinv.
  destruct (run_keeps_payload os' s s' h i Hinv Hrun' Hi Hnd) as (Hi' & Hc).
  split; [done|].
  rewrite (SmallImpl_data_eq h s' i), (SmallImpl_data_eq h s i) by done.
  split; [done|].
  destruct (counter_ i) as [a|] eqn:Ha.
  - destruct (live_handle s h i a Hinv Hi Ha) as (c & _ & Hm & _).
    destruct (Hc a c eq_refl Hm) as (c' & Hm' & Hd).
    rewrite (read_eq h s' i a c'), (read_eq h s i a c) by done. by rewrite Hd.
  - unfold read. rewrite (SmallImpl_data_eq h s' i), (SmallImpl_data_eq h s i), Ha by done.
    done.
Qed.

(** A handle reads the payload it was constructed with until it is
    destroyed. *)
Theorem handle_reads_what_it_was_constructed_with
    limit os s T t h v s1 os' s' :
  run os (init limit) = Some s →
  exec (Construct T t h v) s = Some s1 →
  is_Some (SmallImpl_data h s1) →
  run os' s1 = Some s' → (∀ t', Destroy t' h ∉ os') →
  read h s1 = Some v ∧ read h s' = Some v.
Proof.
  intros Hrun Hex [a Ha] Hrun' Hnd.
  pose proof (reachable_inv _ _ _ Hrun) as Hinv.
  pose proof (exec_inv _ _ _ Hinv Hex) as Hinv1.
  destruct (exec_Construct_Some _ _ _ _ _ _ Hinv Hex)
    as (Hv & Hf & p & P & Hp & HP & _ & _ & Hs1).
  pose proof (thread_local_init_inv T t s Hinv) as Hinv0.
  destruct (ctor_result_handle t h v p P _ Hinv0 HP) as (c1 & Hh & _ & Hcell).
  rewrite <-Hs1 in Hh, Hcell.
  assert (handles s1 !! h = Some (mkSmallImpl p c1)) as Hi
    by (by rewrite Hh, lookup_insert_eq).
  rewrite (SmallImpl_data_eq h s1 _ Hi) in Ha. simpl in Ha. subst c1.
  destruct (Hcell a eq_refl) as (_ & Hm).
  assert (read h s1 = Some v) as Hr.
  { rewrite (read_eq h s1 _ a (mkCell p (mkAtomicCounter v 1)) Hi eq_refl); [done|].
    by rewrite Hm, lookup_insert_eq. }
  split; [done|].
  destruct (run_keeps_payload os' s1 s' h _ Hinv1 Hrun' Hi Hnd) as (Hi' & Hc).
  destruct (Hc a (mkCell p (mkAtomicCounter v 1)) eq_refl) as (c' & Hm' & Hd).
  { by rewrite Hm, lookup_insert_eq. }
  rewrite (read_eq h s' _ a c' Hi' eq_refl Hm'). by rewrite Hd.
Qed.

(** Copying a handle and destroying the copy, on whatever threads, leaves
    the whole state as it was: counts, free lists, cells and log. *)
Theorem copy_then_destroy_changes_nothing limit os s t t' h item i a :
  run os (init limit) = Some s →
  valid_storage h = true → handles s !! h = None →
  handles s !! item = Some i → counter_ i = Some a →
  run [Copy t h item; Destroy t' h] s = Some s.
Proof.
  intros Hrun Hv Hf Hi Ha. pose proof (reachable_inv _ _ _ Hrun) as Hinv.
  destruct (SmallImpl_copy_spec t h item i a s Hinv Hv Hf Hi Ha)
    as (c & P & Hm & HP & Hspec).
  rewrite (copy_no_wrap s h item i a c) in Hspec by done.
  match type of Hspec with _ = Some ?x => set (s1 := x) in * end.
  assert (exec (Copy t h item) s = Some s1) as Hex by exact Hspec.
  pose proof (exec_inv _ _ _ Hinv Hex) as Hinv1.
  assert (handles s1 !! h = Some (mkSmallImpl (owner_ i) (Some a))) as Hh.
  { unfold s1. simpl. by rewrite lookup_insert_eq, Ha. }
  destruct (SmallImpl_dtor_spec t' h _ a s1 Hinv1 Hh eq_refl)
    as (c1 & P1 & Hm1 & _ & HP1 & Hpre & Hrefs & Hspec1).
  unfold s1 in Hm1, HP1. simpl in Hm1, HP1.
  rewrite lookup_insert_eq in Hm1. rewrite lookup_insert_eq in HP1.
  injection Hm1 as <-. injection HP1 as <-.
  change (run [Copy t h item; Destroy t' h] s)
    with (exec (Copy t h item) s ≫= λ s0, exec (Destroy t' h) s0 ≫= λ s2, Some s2).
  rewrite Hex.
  change (SmallImpl_dtor t' h s1 ≫= (λ s2, Some s2) = Some s).
  rewrite Hspec1. change (Some (dtor_result t' h (mkSmallImpl (owner_ i) (Some a)) a
                                  (set_uses (uses (obj c) + 1)%N c)
                                  (set_use_count (S (use_count P)) P) s1) = Some s).
  f_equal.
  destruct (live_handle s item i a Hinv Hi Ha)
    as (c' & _ & Hm' & _ & _ & _ & Hu & Hr1 & _).
  assert (c' = c) as -> by congruence.
  assert (pre_decrement (uses (obj c) + 1)%N = uses (obj c)) as Hdec.
  { simpl in Hpre. rewrite Hpre. unfold s1. simpl.
    rewrite refs_insert by done. simpl. rewrite Ha, decide_True by done.
    rewrite Hu. f_equal. lia. }
  unfold dtor_result. simpl. rewrite Hdec.
  destruct (N.eqb_spec (uses (obj c)) 0%N) as [Hz|Hz]; [lia|].
  apply state_eq; simpl; try done.
  - rewrite insert_insert_eq. apply insert_id. by destruct P.
  - rewrite insert_insert_eq. apply insert_id. by destruct c as [? []].
  - rewrite delete_insert_eq. by apply delete_id.
Qed.

(** Every live pool has an owner: its use count is not zero. *)
Lemma thread_local_init_referenced T t s :
  (∀ p P, pools s !! p = Some P → use_count P ≠ 0) →
  ∀ p P, pools (thread_local_init T t s) !! p = Some P → use_count P ≠ 0.
Proof.
  intros Hs p P. unfold thread_local_init.
  destruct (tls s !! (T, t)); [apply Hs|]. simpl.
  intros [[<- <-]|[_ HP]]%lookup_insert_Some; [done|by eapply Hs].
Qed.

Lemma exec_referenced o s s' :
  inv s → (∀ p P, pools s !! p = Some P → use_count P ≠ 0) →
  exec o s = Some s' →
  ∀ p P, pools s' !! p = Some P → use_count P ≠ 0.
Proof.
  intros Hinv Hs Hex.
  destruct (exec_cases o s s' Hinv Hex)
    as [(T & t & h0 & v & p & P & -> & Hv & Hf & Hp & HP & ->)
       |[(t & h0 & item & i0 & a0 & c0 & P & -> & Hv & Hf & Hi0 & Ha0 & Hm0 & HP & ->)
       |[(t & h0 & i0 & a0 & c0 & P & -> & Hi0 & Ha0 & Hm0 & Ho0 & HP & ->)
       |[(T & t & -> & ->)
       |(T & t & p & P & -> & Ht & HP & ->)]]]]; intros q Q.
  - pose proof (thread_local_init_referenced T t s Hs) as Hs1.
    unfold ctor_result. repeat case_match; simpl;
      (intros [[<- <-]|[_ HQ]]%lookup_insert_Some; [done|by eapply Hs1]).
  - simpl. intros [[<- <-]|[_ HQ]]%lookup_insert_Some; [done|by eapply Hs].
  - destruct (SmallImpl_dtor_spec t h0 i0 a0 s Hinv Hi0 Ha0)
      as (c0' & P' & Hm0' & _ & HP' & Hpre & Hrefs & _).
    assert (c0' = c0) as -> by congruence.
    pose proof (Hs _ _ HP) as HP0.
    unfold dtor_result. rewrite Hpre.
    destruct (N.eqb_spec (N.of_nat (refs a0 (handles s) - 1)) 0%N) as [Hz|Hz].
    + destruct (use_count P) as [|[|n]] eqn:Euc; [done| |]; simpl.
      * intros [_ HQ]%lookup_delete_Some. by eapply Hs.
      * intros [[<- <-]|[_ HQ]]%lookup_insert_Some; [done|by eapply Hs].
    + simpl. intros [[<- <-]|[_ HQ]]%lookup_insert_Some; [|by eapply Hs].
      simpl. (* another handle on the cell holds the pool as well *)
      rewrite (refs_delete a0 (handles s) h0 i0), decide_True in Hz by done.
      assert (refs a0 (delete h0 (handles s)) ≠ 0) as Hother by lia.
      apply refs_witness in Hother as (h' & i' & Hi' & Ha').
      apply lookup_delete_Some in Hi' as [Hne Hi'].
      destruct (handle_counter _ (inv_handles _ Hinv) _ _ _ Hi' Ha')
        as (c' & Hc' & Ho').
      assert (c' = c0) as -> by congruence.
      pose proof (pool_use_count _ (inv_pools _ Hinv) _ _ HP) as Huc.
      rewrite (owners_delete _ (handles s) h0 i0), decide_True in Huc by done.
      assert (owners (owner_ i0) (delete h0 (handles s)) ≠ 0) as Hown.
      { eapply owners_pos; [by rewrite lookup_delete_ne|congruence]. }
      lia.
  - by apply thread_local_init_referenced.
  - pose proof (Hs _ _ HP) as HP0.
    destruct (use_count P) as [|[|n]] eqn:Euc; [done| |]; simpl.
    + intros [_ HQ]%lookup_delete_Some. by eapply Hs.
    + intros [[<- <-]|[_ HQ]]%lookup_insert_Some; [done|by eapply Hs].
Qed.

Lemma run_referenced os s s' :
  inv s → (∀ p P, pools s !! p = Some P → use_count P ≠ 0) →
  run os s = Some s' →
  ∀ p P, pools s' !! p = Some P → use_count P ≠ 0.
Proof.
  revert s. induction os as [|o os IH]; intros s Hinv Hs Hrun.
  - by injection Hrun as <-.
  - simpl in Hrun. destruct (exec o s) as [s1|] eqn:Hex; [|done].
    eapply (IH s1); [by eapply exec_inv|by eapply exec_referenced|done].
Qed.

(** Nothing leaks and nothing dangles: every constructed cell is referred
    to by a live handle of its own pool; a pool is alive exactly when a
    live handle or the [thread_local] variable of a running thread holds
    it.  So once every handle is destroyed no cell is left, and once every
    thread has ended as well no pool is left. *)
Theorem cells_and_pools_live_while_referenced limit os s :
  run os (init limit) = Some s →
  (∀ a c, mem s !! a = Some c →
      ∃ h i, handles s !! h = Some i ∧ counter_ i = Some a
             ∧ owner_ i = owner c)
  ∧ (∀ p, is_Some (pools s !! p) ↔
        (∃ h i, handles s !! h = Some i ∧ owner_ i = p)
        ∨ (∃ T t, tls s !! (T, t) = Some p))
  ∧ (handles s = ∅ → mem s = ∅)
  ∧ (handles s = ∅ → tls s = ∅ → pools s = ∅).
Proof.
  intros Hrun. pose proof (reachable_inv _ _ _ Hrun) as Hinv.
  assert (∀ p P, pools s !! p = Some P → use_count P ≠ 0) as Href.
  { eapply run_referenced; [apply init_inv| |exact Hrun]. intros p P. by simpl. }
  assert (∀ a c, mem s !! a = Some c →
            ∃ h i, handles s !! h = Some i ∧ counter_ i = Some a
                   ∧ owner_ i = owner c) as Hcells.
  { intros a c Hc.
    pose proof (cell_referenced _ (inv_cells _ Hinv) _ _ Hc) as Hr.
    apply refs_witness in Hr as (h & i & Hi & Ha).
    destruct (handle_counter _ (inv_handles _ Hinv) _ _ _ Hi Ha) as (c' & Hc' & Ho).
    exists h, i. split_and!; [done|done|congruence]. }
  assert (∀ p, is_Some (pools s !! p) ↔
            (∃ h i, handles s !! h = Some i ∧ owner_ i = p)
            ∨ (∃ T t, tls s !! (T, t) = Some p)) as Hpools.
  { intros p. split.
    - intros [P HP].
      pose proof (pool_use_count _ (inv_pools _ Hinv) _ _ HP) as Huc.
      pose proof (Href _ _ HP) as Hnz.
      destruct (decide (owners p (handles s) = 0)) as [Hz|Hnz'].
      + right. assert (locals p (tls s) ≠ 0) as Hl by lia.
        apply size_filter_witness in Hl as ([T t] & q & Hk & Hq).
        simpl in Hq. subst q. by exists T, t.
      + left. apply size_filter_witness in Hnz' as (h & i & Hi & Ho).
        by exists h, i.
    - intros [(h & i & Hi & <-)|(T & t & Ht)].
      + by eapply (handle_owner _ (inv_handles _ Hinv)).
      + destruct (pool_local _ (inv_pools _ Hinv) _ _ _ Ht) as (P & HP & _).
        by exists P. }
  split_and!; [done|done| |].
  - intros Hh. apply map_empty. intros a.
    destruct (mem s !! a) as [c|] eqn:Hc; [|done].
    destruct (Hcells a c Hc) as (h & i & Hi & _). by rewrite Hh in Hi.
  - intros Hh Ht. apply map_empty. intros p.
    destruct (pools s !! p) as [P|] eqn:HP; [|done].
    destruct (proj1 (Hpools p)) as [(h & i & Hi & _)|(T & t & Hk)];
      [by rewrite HP|by rewrite Hh in Hi|by rewrite Ht in Hk].
Qed.

Lemma thread_local_init_log T t s :
  log (thread_local_init T t s) = log s
  ∨ ∃ p, log (thread_local_init T t s) = EvMakeShared T t p :: log s.
Proof.
  unfold thread_local_init. destruct (tls s !! (T, t)); [by left|].
  right. by eexists.
Qed.

Lemma exec_locks o s s' t p :
  inv s → exec o s = Some s' →
  occurrences (EvLock t p) (log s) = occurrences (EvUnlock t p) (log s) →
  occurrences (EvLock t p) (log s') = occurrences (EvUnlock t p) (log s').
Proof.
  intros Hinv Hex Hbal.
  assert (∀ T0 t0, occurrences (EvLock t p) (log (thread_local_init T0 t0 s))
                   = occurrences (EvUnlock t p) (log (thread_local_init T0 t0 s)))
    as Hbal1.
  { intros T0 t0. destruct (thread_local_init_log T0 t0 s) as [->|[q ->]]; [done|].
    by rewrite !occurrences_cons_ne by discriminate. }
  destruct (exec_cases o s s' Hinv Hex)
    as [(T & t0 & h0 & v & q & P & -> & Hv & Hf & Hp & HP & ->)
       |[(t0 & h0 & item & i0 & a0 & c0 & P & -> & Hv & Hf & Hi0 & Ha0 & Hm0 & HP & ->)
       |[(t0 & h0 & i0 & a0 & c0 & P & -> & Hi0 & Ha0 & Hm0 & Ho0 & HP & ->)
       |[(T & t0 & -> & ->)
       |(T & t0 & q & P & -> & Ht & HP & ->)]]]].
  - specialize (Hbal1 T t0). unfold ctor_result. repeat case_match; simpl;
      repeat first [ rewrite occurrences_cons_ne by discriminate
                   | rewrite occurrences_cons ];
      repeat case_decide; simplify_eq; lia.
  - done.
  - unfold dtor_result. repeat case_match; simpl;
      repeat first [ rewrite occurrences_cons_ne by discriminate
                   | rewrite occurrences_cons ];
      repeat case_decide; simplify_eq; lia.
  - apply Hbal1.
  - repeat case_match; simpl;
      repeat first [ rewrite occurrences_cons_ne by discriminate
                   | rewrite occurrences_cons ];
      repeat case_decide; simplify_eq; lia.
Qed.

Lemma run_locks os s s' t p :
  inv s → run os s = Some s' →
  occurrences (EvLock t p) (log s) = occurrences (EvUnlock t p) (log s) →
  occurrences (EvLock t p) (log s') = occurrences (EvUnlock t p) (log s').
Proof.
  revert s. induction os as [|o os IH]; intros s Hinv Hrun Hbal.
  - by injection Hrun as <-.
  - simpl in Hrun. destruct (exec o s) as [s1|] eqn:Hex; [|done].
    eapply (IH s1); [by eapply exec_inv|done|by eapply exec_locks].
Qed.

(** No operation returns holding a lock: between operations every pool's
    mutex is free, and each thread has unlocked each pool as often as it
    has locked it. *)
Theorem every_lock_is_released limit os s :
  run os (init limit) = Some s →
  (∀ p P, pools s !! p = Some P → mutex P = false)
  ∧ (∀ t p, occurrences (EvLock t p) (log s)
            = occurrences (EvUnlock t p) (log s)).
Proof.
  intros Hrun. pose proof (reachable_inv _ _ _ Hrun) as Hinv. split.
  - apply (pool_unlocked _ (inv_pools _ Hinv)).
  - intros t p. eapply run_locks; [apply init_inv|exact Hrun|done].
Qed.

(** No handle dangles into a free list: a chunk on the free list of a pool
    holds no cell, no live handle refers to it, it is not on the list
    twice and not on the list of another pool. *)
Theorem free_chunks_are_unused limit os s p P a :
  run os (init limit) = Some s →
  pools s !! p = Some P → a ∈ free_list P →
  mem s !! a = None
  ∧ (∀ h i, handles s !! h = Some i → counter_ i ≠ Some a)
  ∧ a < brk s
  ∧ NoDup (free_list P)
  ∧ (∀ q Q, q ≠ p → pools s !! q = Some Q → a ∉ free_list Q).
Proof.
  intros Hrun HP Hin. pose proof (reachable_inv _ _ _ Hrun) as Hinv.
  destruct (pool_free_chunk _ (inv_pools _ Hinv) _ _ _ HP Hin) as [Hlt Hnone].
  split_and!; [done| |done| |].
  - intros h i Hi Ha.
    destruct (handle_counter _ (inv_handles _ Hinv) _ _ _ Hi Ha) as (c & Hc & _).
    congruence.
  - by apply (pool_free_NoDup _ (inv_pools _ Hinv) p).
  - intros q Q Hne HQ.
    by apply (pool_free_disjoint _ (inv_pools _ Hinv) p q P Q).
Qed.

Lemma thread_local_init_brk T t s :
  brk (thread_local_init T t s) = brk s
  ∧ heap_limit (thread_local_init T t s) = heap_limit s.
Proof. unfold thread_local_init. by destruct (tls s !! (T, t)). Qed.

Lemma run_app (os1 os2 : list (op V)) s :
  run (os1 ++ os2) s = run os1 s ≫= run os2.
Proof.
  revert s. induction os1 as [|o os1 IH]; intros s; [done|].
  simpl. destruct (exec o s) as [s1|]; [|done]. apply IH.
Qed.

(** A construction that finds memory. *)
Lemma construct_with_memory T t h v s :
  inv s → valid_storage h = true → handles s !! h = None →
  brk s < heap_limit s ∨ has_free_chunk T t s →
  ∃ p P a s1,
    exec (Construct T t h v) s = Some s1
    ∧ tls (thread_local_init T t s) !! (T, t) = Some p
    ∧ pools (thread_local_init T t s) !! p = Some P
    ∧ 1 ≤ use_count P
    ∧ tls s1 = tls (thread_local_init T t s)
    ∧ pools s1 = <[p := mkParallelPool (elem P) (home P) (S (use_count P))
                          (tail (free_list P)) false]>
                   (pools (thread_local_init T t s))
    ∧ mem s !! a = None
    ∧ mem s1 = <[a := mkCell p (mkAtomicCounter v 1)]> (mem s)
    ∧ handles s1 = <[h := mkSmallImpl p (Some a)]> (handles s)
    ∧ heap_limit s1 = heap_limit s
    ∧ next_pool s1 = next_pool (thread_local_init T t s)
    ∧ log s1 = EvUnlock t p :: EvNew p a :: EvLock t p
                 :: log (thread_local_init T t s)
    ∧ (match free_list P with
       | [] => a = brk s ∧ brk s1 = S (brk s)
       | a' :: _ => a = a' ∧ brk s1 = brk s
       end).
Proof.
  intros Hinv Hv Hf Hmem.
  destruct (thread_local_init_lookup T t s Hinv)
    as (p & P & Hp & HP & _ & _ & _ & Huc).
  destruct (SmallImpl_ctor_spec T t h v s Hinv Hv Hf)
    as (p' & P' & Hp' & HP' & _ & _ & Hspec).
  assert (p' = p) as -> by congruence. assert (P' = P) as -> by congruence.
  pose proof (thread_local_init_inv T t s Hinv) as Hinv0.
  destruct (thread_local_init_brk T t s) as [Hbrk Hlim].
  destruct (ctor_result_handle t h v p P _ Hinv0 HP) as (c1 & Hh & Hnull & Hcell).
  rewrite thread_local_init_handles in Hh.
  rewrite thread_local_init_mem in Hnull, Hcell.
  assert (free_list P = [] → brk s < heap_limit s) as Hroom.
  { intros Hfl. destruct Hmem as [|(q & Q & Hq & HQ & Hne)]; [done|].
    exfalso. unfold thread_local_init in Hp, HP. rewrite Hq in Hp, HP.
    congruence. }
  revert Hspec Hh Hnull Hcell. unfold ctor_result.
  destruct (free_list P) as [|a' l] eqn:Efl.
  - rewrite Hbrk, Hlim. destruct (Nat.ltb_spec (brk s) (heap_limit s)) as [_|Hge];
      [|specialize (Hroom eq_refl); lia].
    simpl. intros Hspec Hh Hnull Hcell.
    exists p, P, (brk s). eexists. split; [exact Hspec|]. simpl.
    rewrite thread_local_init_handles, thread_local_init_mem, Efl.
    split_and!; try done.
    destruct (mem s !! brk s) as [c|] eqn:Hc; [|done].
    apply (cell_below_brk _ (inv_cells _ Hinv)) in Hc. lia.
  - simpl. intros Hspec Hh Hnull Hcell.
    exists p, P, a'. eexists. split; [exact Hspec|]. simpl.
    rewrite thread_local_init_handles, thread_local_init_mem, Efl.
    split_and!; try done.
    assert (a' ∈ free_list P) as Hin by (rewrite Efl; left).
    destruct (pool_free_chunk _ (inv_pools _ Hinv0) _ _ _ HP Hin) as [_ Hnone].
    by rewrite thread_local_init_mem in Hnone.
Qed.

(** The destruction of the only handle on a cell. *)
Lemma destroy_only_handle t h p a c P s :
  inv s → handles s !! h = Some (mkSmallImpl p (Some a)) →
  mem s !! a = Some c → uses (obj c) = 1%N → pools s !! p = Some P →
  ∃ s2,
    exec (Destroy t h) s = Some s2
    ∧ tls s2 = tls s ∧ handles s2 = delete h (handles s)
    ∧ mem s2 = delete a (mem s)
    ∧ brk s2 = brk s ∧ heap_limit s2 = heap_limit s
    ∧ next_pool s2 = next_pool s
    ∧ (if decide (use_count P = 1) then
         pools s2 = delete p (pools s)
         ∧ log s2 = EvPoolDtor p :: EvUnlock t p :: EvFree p a :: EvDtor p a
                      :: EvLock t p :: log s
       else
         pools s2 = <[p := mkParallelPool (elem P) (home P) (pred (use_count P))
                              (ordered_free a (free_list P)) false]> (pools s)
         ∧ log s2 = EvUnlock t p :: EvFree p a :: EvDtor p a
                      :: EvLock t p :: log s).
Proof.
  intros Hinv Hi Hc Hu HP.
  destruct (SmallImpl_dtor_spec t h _ a s Hinv Hi eq_refl)
    as (c' & P' & Hc' & _ & HP' & _ & _ & Hspec).
  simpl in HP'. assert (c' = c) as -> by congruence.
  assert (P' = P) as -> by congruence.
  eexists. split; [exact Hspec|].
  unfold dtor_result. rewrite Hu, pre_decrement_1. simpl.
  destruct (use_count P) as [|[|n]] eqn:Euc; simpl;
    repeat case_decide; try lia; split_and!; done.
Qed.

(** One round of the loop. *)
Lemma bigTest_round T t h v s :
  inv s → valid_storage h = true → handles s !! h = None →
  brk s < heap_limit s ∨ has_free_chunk T t s →
  ∃ s2,
    run [Construct T t h v; Destroy t h] s = Some s2
    ∧ handles s2 = handles s ∧ mem s2 = mem s
    ∧ heap_limit s2 = heap_limit s
    ∧ has_free_chunk T t s2
    ∧ (brk s2 = brk s ∨ (¬ has_free_chunk T t s ∧ brk s2 = S (brk s))).
Proof.
  intros Hinv Hv Hf Hmem.
  destruct (construct_with_memory T t h v s Hinv Hv Hf Hmem)
    as (p & P & a & s1 & Hex & Hp & HP & Huc & Htls1 & Hpools1 & Hfresh & Hmem1
          & Hh1 & Hlim1 & _ & _ & Hbrk1).
  pose proof (exec_inv _ _ _ Hinv Hex) as Hinv1.
  assert (handles s1 !! h = Some (mkSmallImpl p (Some a))) as Hi
    by (by rewrite Hh1, lookup_insert_eq).
  assert (mem s1 !! a = Some (mkCell p (mkAtomicCounter v 1))) as Hc
    by (by rewrite Hmem1, lookup_insert_eq).
  assert (pools s1 !! p = Some (mkParallelPool (elem P) (home P) (S (use_count P))
                                  (tail (free_list P)) false)) as HP1
    by (by rewrite Hpools1, lookup_insert_eq).
  destruct (destroy_only_handle t h p a _ _ s1 Hinv1 Hi Hc eq_refl HP1)
    as (s2 & Hex2 & Htls2 & Hh2 & Hmem2 & Hbrk2 & Hlim2 & _ & Hpools2).
  simpl in Hpools2. rewrite decide_False in Hpools2 by lia.
  destruct Hpools2 as [Hpools2 _].
  exists s2. split_and!.
  - change (run [Construct T t h v; Destroy t h] s)
      with (exec (Construct T t h v) s ≫= λ s0, exec (Destroy t h) s0 ≫= λ s3, Some s3).
    rewrite Hex.
    change (exec (Destroy t h) s1 ≫= (λ s3, Some s3) = Some s2).
    by rewrite Hex2.
  - rewrite Hh2, Hh1, delete_insert_eq. by apply delete_id.
  - rewrite Hmem2, Hmem1, delete_insert_eq. by apply delete_id.
  - congruence.
  - exists p. eexists. split_and!.
    + by rewrite Htls2, Htls1.
    + by rewrite Hpools2, lookup_insert_eq.
    + simpl. intros Hnil.
      assert (a ∈ ordered_free a (tail (free_list P))) as Hin
        by (apply elem_of_ordered_free; by left).
      rewrite Hnil in Hin. by apply elem_of_nil in Hin.
  - rewrite Hbrk2. destruct (free_list P) as [|a' l] eqn:Efl.
    + right. split; [|by destruct Hbrk1].
      intros (q & Q & Hq & HQ & Hne).
      unfold thread_local_init in Hp, HP. rewrite Hq in Hp, HP. congruence.
    + left. by destruct Hbrk1.
Qed.

Lemma bigTest_rounds T t h v n s :
  inv s → valid_storage h = true → handles s !! h = None →
  brk s < heap_limit s ∨ has_free_chunk T t s →
  ∃ s',
    run (bigTest_loop T t h v n) s = Some s'
    ∧ handles s' = handles s ∧ mem s' = mem s
    ∧ heap_limit s' = heap_limit s
    ∧ (n ≠ 0 → has_free_chunk T t s')
    ∧ (brk s' = brk s ∨ (¬ has_free_chunk T t s ∧ brk s' = S (brk s))).
Proof.
  revert s. induction n as [|n IH]; intros s Hinv Hv Hf Hmem.
  - exists s. split_and!; try done. by left.
  - destruct (bigTest_round T t h v s Hinv Hv Hf Hmem)
      as (s2 & Hrun2 & Hh2 & Hm2 & Hl2 & Hfree2 & Hbrk2).
    assert (inv s2) as Hinv2 by (by eapply run_inv).
    destruct (IH s2 Hinv2 Hv) as (s' & Hrun' & Hh' & Hm' & Hl' & _ & Hbrk');
      [by rewrite Hh2|by right|].
    exists s'. split_and!.
    + change (bigTest_loop T t h v (S n))
        with ([Construct T t h v; Destroy t h] ++ bigTest_loop T t h v n).
      by rewrite run_app, Hrun2.
    + congruence.
    + congruence.
    + congruence.
    + intros _. destruct n as [|n'].
      * simpl in Hrun'. by injection Hrun' as <-.
      * destruct (IH s2 Hinv2 Hv) as (s'' & Hrun'' & _ & _ & _ & Hfree'' & _);
          [by rewrite Hh2|by right|].
        rewrite Hrun' in Hrun''. injection Hrun'' as <-. by apply Hfree''.
    + destruct Hbrk' as [Hb|[Hno _]]; [|done].
      rewrite Hb. done.
Qed.

(** The loop of [bigTest], however long, takes at most one chunk from the
    backing allocator: each round finds the chunk of the round before on
    the free list of the thread's pool.  It leaves the handles and cells
    of the program as they were. *)
Theorem bigTest_loop_reuses_one_chunk limit os s T t h v n :
  run os (init limit) = Some s →
  valid_storage h = true → handles s !! h = None →
  brk s < heap_limit s →
  ∃ s',
    run (bigTest_loop T t h v n) s = Some s'
    ∧ handles s' = handles s ∧ mem s' = mem s
    ∧ brk s ≤ brk s' ≤ S (brk s)
    ∧ (n ≠ 0 → ∃ p P, tls s' !! (T, t) = Some p ∧ pools s' !! p = Some P
                      ∧ free_list P ≠ []).
Proof.
  intros Hrun Hv Hf Hlt. pose proof (reachable_inv _ _ _ Hrun) as Hinv.
  destruct (bigTest_rounds T t h v n s Hinv Hv Hf (or_introl Hlt))
    as (s' & Hrun' & Hh & Hm & _ & Hfree & Hbrk).
  exists s'. split_and!; try done; destruct Hbrk as [->|[_ ->]]; lia.
Qed.

(** A handle constructed by a thread that had no pool yet and ended right
    after: the pool outlives the thread, the handle still reads its
    payload, and the destruction of the handle by another thread releases
    the cell and then destroys the pool, the handle having been its last
    owner. *)
Theorem pool_outlives_its_thread_and_dies_with_last_handle
    limit os s T t t' h v :
  run os (init limit) = Some s →
  valid_storage h = true → handles s !! h = None →
  tls s !! (T, t) = None → brk s < heap_limit s →
  ∃ s1 s2 s3,
    exec (Construct T t h v) s = Some s1
    ∧ tls s1 !! (T, t) = Some (next_pool s)
    ∧ exec (ThreadExit T t) s1 = Some s2
    ∧ tls s2 = tls s
    ∧ (∃ P, pools s2 !! next_pool s = Some P ∧ use_count P = 1)
    ∧ read h s2 = Some v
    ∧ exec (Destroy t' h) s2 = Some s3
    ∧ tls s3 = tls s ∧ pools s3 = pools s ∧ mem s3 = mem s
    ∧ handles s3 = handles s
    ∧ log s3 = EvPoolDtor (next_pool s) :: EvUnlock t' (next_pool s)
                 :: EvFree (next_pool s) (brk s) :: EvDtor (next_pool s) (brk s)
                 :: EvLock t' (next_pool s) :: EvUnlock t (next_pool s)
                 :: EvNew (next_pool s) (brk s) :: EvLock t (next_pool s)
                 :: EvMakeShared T t (next_pool s) :: log s.
Proof.
  intros Hrun Hv Hf Hnone Hlt. pose proof (reachable_inv _ _ _ Hrun) as Hinv.
  destruct (construct_with_memory T t h v s Hinv Hv Hf (or_introl Hlt))
    as (p & P & a & s1 & Hex & Hp & HP & Huc & Htls1 & Hpools1 & Hfresh & Hmem1
          & Hh1 & Hlim1 & Hnext1 & Hlog1 & Hbrk1).
  assert (pools s !! next_pool s = None) as Hnew.
  { destruct (pools s !! next_pool s) as [Q|] eqn:HQ; [|done].
    apply (pool_below_next _ (inv_pools _ Hinv)) in HQ. lia. }
  revert Hp HP Htls1 Hpools1 Hnext1 Hlog1. unfold thread_local_init.
  rewrite Hnone. simpl. rewrite lookup_insert_eq. intros [= <-].
  rewrite lookup_insert_eq. intros [= <-]. simpl in *.
  intros Htls1 Hpools1 Hnext1 Hlog1. destruct Hbrk1 as [-> Hbrk1].
  rewrite insert_insert_eq in Hpools1.
  set (p := next_pool s) in *.
  pose proof (exec_inv (Construct T t h v) _ _ Hinv Hex) as Hinv1.
  assert (tls s1 !! (T, t) = Some p) as Ht1
    by (by rewrite Htls1, lookup_insert_eq).
  destruct (exec_ThreadExit T t p s1 Hinv1 Ht1) as (P1 & HP1 & Hex2).
  rewrite Hpools1, lookup_insert_eq in HP1. injection HP1 as <-.
  simpl in Hex2.
  match type of Hex2 with _ = Some ?x => set (s2 := x) in * end.
  assert (exec (ThreadExit T t) s1 = Some s2) as Hexec2 by exact Hex2.
  pose proof (exec_inv _ _ _ Hinv1 Hexec2) as Hinv2.
  assert (handles s2 !! h = Some (mkSmallImpl p (Some (brk s)))) as Hi2.
  { unfold s2. simpl. by rewrite Hh1, lookup_insert_eq. }
  assert (mem s2 !! brk s = Some (mkCell p (mkAtomicCounter v 1))) as Hc2.
  { unfold s2. simpl. by rewrite Hmem1, lookup_insert_eq. }
  assert (pools s2 !! p = Some (mkParallelPool T t 1 [] false)) as HP2.
  { unfold s2. simpl. by rewrite lookup_insert_eq. }
  destruct (destroy_only_handle t' h p (brk s) _ _ s2 Hinv2 Hi2 Hc2 eq_refl HP2)
    as (s3 & Hex3 & Htls3 & Hh3 & Hmem3 & _ & _ & _ & Hpools3).
  simpl in Hpools3. destruct Hpools3 as [Hpools3 Hlog3].
  assert (tls s2 = tls s) as Htls2.
  { unfold s2. simpl. rewrite Htls1, delete_insert_eq. by apply delete_id. }
  exists s1, s2, s3. split_and!; try done.
  - by exists (mkParallelPool T t 1 [] false).
  - by rewrite (read_eq h s2 _ _ _ Hi2 eq_refl Hc2).
  - congruence.
  - rewrite Hpools3. unfold s2. simpl. rewrite Hpools1.
    rewrite delete_insert_eq, delete_insert_eq. by apply delete_id.
  - rewrite Hmem3. unfold s2. simpl. rewrite Hmem1, delete_insert_eq.
    by apply delete_id.
  - rewrite Hh3. unfold s2. simpl. rewrite Hh1, delete_insert_eq.
    by apply delete_id.
  - rewrite Hlog3. unfold s2. simpl. by rewrite Hlog1.
Qed.

End Laws.

Section LawExamples.
Local Open Scope nat_scope.
Local Open Scope string_scope.

Lemma second_thread_keeps_10 t : Destroy t 10 ∉ second_thread.
Proof.
  unfold second_thread. intros Hin.
  repeat (apply elem_of_cons in Hin as [Hin|Hin]; [discriminate Hin|]).
  by apply elem_of_nil in Hin.
Qed.

(** While a second thread copies [s] and uses a handle of its own, [s]
    still reads ["kek"]. *)
Lemma live_handle_reads_never_change_witness :
  run kek_ops (init 4) = Some (after 4 kek_ops)
  ∧ run second_thread (after 4 kek_ops)
    = Some (after_run second_thread (after 4 kek_ops))
  ∧ handles (after 4 kek_ops) !! 10 = Some (mkSmallImpl 0 (Some 1))
  ∧ (∀ t, Destroy t 10 ∉ second_thread)
  ∧ read 10 (after_run second_thread (after 4 kek_ops)) = Some "kek".
Proof.
  assert (run kek_ops (init 4) = Some (after 4 kek_ops)) as Hrun
    by (apply returns_default; vm_compute; reflexivity).
  assert (run second_thread (after 4 kek_ops)
          = Some (after_run second_thread (after 4 kek_ops))) as Hrun'
    by (apply returns_default; vm_compute; reflexivity).
  assert (handles (after 4 kek_ops) !! 10 = Some (mkSmallImpl 0 (Some 1))) as Hi
    by (vm_compute; reflexivity).
  split_and!; [exact Hrun|exact Hrun'|exact Hi|exact second_thread_keeps_10|].
  destruct (live_handle_reads_never_change 4 kek_ops _ second_thread _ 10 _
              Hrun Hrun' Hi second_thread_keeps_10) as (_ & _ & ->).
  vm_compute; reflexivity.
Defined.

(** [Small<std::string>("lol")] still reads ["lol"] after the second
    thread is done. *)
Lemma handle_reads_what_it_was_constructed_with_witness :
  run [] (init 4) = Some (init (V := string) 4)
  ∧ exec (Construct Classifier.std_string 0 10 "lol") (init 4) = Some lol_state
  ∧ is_Some (SmallImpl_data 10 lol_state)
  ∧ run second_thread lol_state = Some (after_run second_thread lol_state)
  ∧ (∀ t, Destroy t 10 ∉ second_thread)
  ∧ read 10 lol_state = Some "lol"
  ∧ read 10 (after_run second_thread lol_state) = Some "lol".
Proof.
  assert (exec (Construct Classifier.std_string 0 10 "lol") (init 4)
          = Some lol_state) as Hex
    by (apply returns_default; vm_compute; reflexivity).
  assert (is_Some (SmallImpl_data 10 lol_state)) as Hsome
    by (exists 1; vm_compute; reflexivity).
  assert (run second_thread lol_state
          = Some (after_run second_thread lol_state)) as Hrun'
    by (apply returns_default; vm_compute; reflexivity).
  split_and!;
    [reflexivity|exact Hex|exact Hsome|exact Hrun'|exact second_thread_keeps_10
    | |];
    by destruct (handle_reads_what_it_was_constructed_with 4 [] (init 4)
                   Classifier.std_string 0 10 "lol" lol_state second_thread _
                   eq_refl Hex Hsome Hrun' second_thread_keeps_10).
Defined.

(** A temporary copy of [s], made by one thread and destroyed by another. *)
Lemma copy_then_destroy_changes_nothing_witness :
  run kek_ops (init 4) = Some (after 4 kek_ops)
  ∧ valid_storage 11 = true
  ∧ handles (after 4 kek_ops) !! 11 = None
  ∧ handles (after 4 kek_ops) !! 10 = Some (mkSmallImpl 0 (Some 1))
  ∧ run [Copy 0 11 10; Destroy 1 11] (after 4 kek_ops) = Some (after 4 kek_ops).
Proof.
  assert (run kek_ops (init 4) = Some (after 4 kek_ops)) as Hrun
    by (apply returns_default; vm_compute; reflexivity).
  assert (valid_storage 11 = true) as Hv by (vm_compute; reflexivity).
  assert (handles (after 4 kek_ops) !! 11 = None) as Hf
    by (vm_compute; reflexivity).
  assert (handles (after 4 kek_ops) !! 10 = Some (mkSmallImpl 0 (Some 1))) as Hi
    by (vm_compute; reflexivity).
  split_and!; [exact Hrun|exact Hv|exact Hf|exact Hi|].
  exact (copy_then_destroy_changes_nothing 4 kek_ops _ 0 1 11 10 _ 1
           Hrun Hv Hf Hi eq_refl).
Defined.

(** After [auto s1 = s;] the cell of ["kek"] has a handle. *)
Lemma cells_and_pools_live_while_referenced_witness :
  run kek_copy_ops (init 4) = Some (after 4 kek_copy_ops)
  ∧ ∃ h i, handles (after 4 kek_copy_ops) !! h = Some i
           ∧ counter_ i = Some 1 ∧ owner_ i = 0.
Proof.
  assert (run kek_copy_ops (init 4) = Some (after 4 kek_copy_ops)) as Hrun
    by (apply returns_default; vm_compute; reflexivity).
  split; [exact Hrun|].
  destruct (cells_and_pools_live_while_referenced 4 kek_copy_ops _ Hrun)
    as (Hcells & _).
  assert (mem (after 4 kek_copy_ops) !! 1
          = Some (mkCell 0 (mkAtomicCounter "kek" 2))) as Hm
    by (vm_compute; reflexivity).
  destruct (Hcells _ _ Hm) as (h & i & Hi & Ha & Ho).
  exists h, i. split_and!; [exact Hi|exact Ha|exact Ho].
Defined.

Lemma every_lock_is_released_witness :
  run kek_copy_ops (init 4) = Some (after 4 kek_copy_ops)
  ∧ occurrences (EvLock 0 0) (log (after 4 kek_copy_ops))
    = occurrences (EvUnlock 0 0) (log (after 4 kek_copy_ops)).
Proof.
  assert (run kek_copy_ops (init 4) = Some (after 4 kek_copy_ops)) as Hrun
    by (apply returns_default; vm_compute; reflexivity).
  split; [exact Hrun|].
  exact (proj2 (every_lock_is_released 4 kek_copy_ops _ Hrun) 0 0).
Defined.

(** After one round of [bigTest] the chunk [1] is on the free list of the
    main thread's pool, and holds no cell. *)
Lemma free_chunks_are_unused_witness :
  run (bigTest_loop Classifier.std_string 0 10 "s1" 1) (init 4) = Some one_round
  ∧ pools one_round !! 0
    = Some (mkParallelPool Classifier.std_string 0 1 [1] false)
  ∧ 1 ∈ [1]
  ∧ mem one_round !! 1 = None.
Proof.
  assert (run (bigTest_loop Classifier.std_string 0 10 "s1" 1) (init 4)
          = Some one_round) as Hrun
    by (apply returns_default; vm_compute; reflexivity).
  assert (pools one_round !! 0
          = Some (mkParallelPool Classifier.std_string 0 1 [1] false)) as HP
    by (vm_compute; reflexivity).
  assert (1 ∈ [1]) as Hin by left.
  split_and!; [exact Hrun|exact HP|exact Hin|].
  exact (proj1 (free_chunks_are_unused 4 _ _ 0 _ 1 Hrun HP Hin)).
Defined.

(** A thousand rounds of [bigTest] from the start of the program. *)
Lemma bigTest_loop_reuses_one_chunk_witness :
  run [] (init 4) = Some (init (V := string) 4)
  ∧ valid_storage 10 = true
  ∧ handles (init (V := string) 4) !! 10 = None
  ∧ (brk (init (V := string) 4) < heap_limit (init (V := string) 4))%nat
  ∧ ∃ s', run (bigTest_loop Classifier.std_string 0 10 "s1" 1000) (init 4)
          = Some s'
          ∧ (brk s' ≤ 2)%nat ∧ handles s' = ∅ ∧ mem s' = ∅.
Proof.
  assert (valid_storage 10 = true) as Hv by (vm_compute; reflexivity).
  assert (brk (init (V := string) 4) < heap_limit (init (V := string) 4))%nat
    as Hlt by (simpl; lia).
  split_and!; [reflexivity|exact Hv|reflexivity|exact Hlt|].
  destruct (bigTest_loop_reuses_one_chunk 4 [] (init 4) Classifier.std_string
              0 10 "s1" 1000 eq_refl Hv eq_refl Hlt)
    as (s' & Hrun' & Hh & Hm & Hb & _).
  exists s'. split_and!; [exact Hrun'| |exact Hh|exact Hm].
  simpl in Hb. lia.
Defined.

(** [alienSmall] (lines 176-181): constructed by a thread of its own,
    destroyed by [main]. *)
Lemma pool_outlives_its_thread_and_dies_with_last_handle_witness :
  run kek_ops (init 4) = Some (after 4 kek_ops)
  ∧ valid_storage 12 = true
  ∧ handles (after 4 kek_ops) !! 12 = None
  ∧ tls (after 4 kek_ops) !! (Classifier.std_string, 1) = None
  ∧ (brk (after 4 kek_ops) < heap_limit (after 4 kek_ops))%nat
  ∧ ∃ s1 s2 s3,
      exec (Construct Classifier.std_string 1 12 "Alien string")
           (after 4 kek_ops) = Some s1
      ∧ exec (ThreadExit Classifier.std_string 1) s1 = Some s2
      ∧ read 12 s2 = Some "Alien string"
      ∧ exec (Destroy 0 12) s2 = Some s3
      ∧ pools s3 = pools (after 4 kek_ops).
Proof.
  assert (run kek_ops (init 4) = Some (after 4 kek_ops)) as Hrun
    by (apply returns_default; vm_compute; reflexivity).
  assert (valid_storage 12 = true) as Hv by (vm_compute; reflexivity).
  assert (handles (after 4 kek_ops) !! 12 = None) as Hf
    by (vm_compute; reflexivity).
  assert (tls (after 4 kek_ops) !! (Classifier.std_string, 1) = None) as Ht
    by (vm_compute; reflexivity).
  assert (brk (after 4 kek_ops) = 2) as Hb by (vm_compute; reflexivity).
  assert (heap_limit (after 4 kek_ops) = 4) as Hl by (vm_compute; reflexivity).
  assert (brk (after 4 kek_ops) < heap_limit (after 4 kek_ops))%nat as Hlt
    by (rewrite Hb, Hl; lia).
  split_and!; [exact Hrun|exact Hv|exact Hf|exact Ht|exact Hlt|].
  destruct (pool_outlives_its_thread_and_dies_with_last_handle
              4 kek_ops _ Classifier.std_string 1 0 12 "Alien string"
              Hrun Hv Hf Ht Hlt)
    as (s1 & s2 & s3 & H1 & _ & H2 & _ & _ & Hr & H3 & _ & Hp & _).
  exists s1, s2, s3. split_and!; [exact H1|exact H2|exact Hr|exact H3|exact Hp].
Defined.

End LawExamples.

End PooledLaws.

(** ** Racing copies and destructions keep the count *)

Module SharingFacts.
Import Pooled PooledFacts Sharing.
Local Open Scope nat_scope.

Section Total.
Context (f : thread → nat).
Implicit Types ths : gmap nat thread.

Lemma total_empty : total f ∅ = 0.
Proof. done. Qed.

Lemma total_insert ths t th :
  ths !! t = None → total f (<[t := th]> ths) = f th + total f ths.
Proof.
  intros Ht. unfold total. apply (map_fold_insert_L (λ _ th acc, f th + acc)); [|done].
  intros. lia.
Qed.

Lemma total_delete ths t th :
  ths !! t = Some th → total f ths = f th + total f (delete t ths).
Proof.
  intros Ht. rewrite <-(insert_delete_id ths t th) at 1 by done.
  apply total_insert, lookup_delete_eq.
Qed.

Lemma total_replace ths t th th' :
  ths !! t = Some th →
  total f (<[t := th']> ths) + f th = total f ths + f th'.
Proof.
  intros Ht. rewrite <-insert_delete_eq.
  rewrite total_insert by apply lookup_delete_eq.
  rewrite (total_delete ths t th) by done. lia.
Qed.

Lemma total_lookup ths t th : ths !! t = Some th → f th ≤ total f ths.
Proof. intros Ht. rewrite (total_delete ths t th) by done. lia. Qed.
End Total.

Lemma total_le f g (ths : gmap nat thread) :
  (∀ th, f th ≤ g th) → total f ths ≤ total g ths.
Proof.
  intros Hfg. induction ths as [|t th ths Ht IH] using map_ind; [done|].
  rewrite !total_insert by done. specialize (Hfg th). lia.
Qed.

Lemma own_le_potential th : own th ≤ potential th.
Proof. unfold potential. lia. Qed.

Lemma own_le_busy th : own th ≤ own th + busy th.
Proof. lia. Qed.

Lemma starting_sharing_inv p a c : starting c = true → sharing_inv p a c.
Proof.
  unfold starting. rewrite !andb_true_iff, !bool_decide_eq_true, negb_true_iff.
  rewrite N.eqb_eq, N.ltb_lt, !Nat.eqb_eq, Nat.eqb_neq.
  intros [[[[[[[[[Hu Hl] Hb] Hcl] Hpl] Hpc] Hm] Hlog] Hz] Hths].
  split.
  - done.
  - done.
  - done.
  - rewrite Hpl. symmetry. apply negb_true_iff, Nat.eqb_neq.
    rewrite Hpc. unfold pool_owners, live_handles in *.
    pose proof (total_le _ _ (threads c) own_le_busy). lia.
  - intros t th Ht. destruct (Hths _ _ Ht) as [Hat Hwf].
    unfold well_formed_thread. by rewrite Hat.
  - done.
  - done.
  - done.
  - intros t th Ht. destruct (Hths _ _ Ht) as [-> _]. done.
  - intros t. rewrite Hm. split; [done|].
    intros (th & Ht & Hh). destruct (Hths _ _ Ht) as [Hat _].
    by rewrite Hat in Hh.
  - by rewrite Hlog, Hcl, Hpl.
Qed.

Section Steps.
Variables (p : pid) (a : addr).

Lemma live_handles_update t th th' m c :
  threads c !! t = Some th →
  live_handles (update t th' m c) + own th = live_handles c + own th'.
Proof.
  intros Ht. unfold live_handles, update. simpl.
  pose proof (total_replace own _ t th th' Ht). lia.
Qed.

Lemma pool_owners_update t th th' m c :
  threads c !! t = Some th →
  pool_owners (update t th' m c) + (own th + busy th)
  = pool_owners c + (own th' + busy th').
Proof.
  intros Ht. unfold pool_owners, update. simpl.
  pose proof (total_replace (λ th, own th + busy th) _ t th th' Ht).
  simpl in *. lia.
Qed.

Lemma potential_update t th th' m c :
  threads c !! t = Some th →
  pinned (update t th' m c) + total potential (threads (update t th' m c))
    + potential th
  = pinned c + total potential (threads c) + potential th'.
Proof.
  intros Ht. unfold update. simpl.
  pose proof (total_replace potential _ t th th' Ht). lia.
Qed.

Lemma live_le_potential c :
  live_handles c ≤ pinned c + total potential (threads c).
Proof.
  unfold live_handles. pose proof (total_le _ _ (threads c) own_le_potential). lia.
Qed.

Lemma own_le_live t th c : threads c !! t = Some th → own th ≤ live_handles c.
Proof.
  intros Ht. unfold live_handles. pose proof (total_lookup own _ _ _ Ht). lia.
Qed.

Lemma busy_le_owners t th c :
  threads c !! t = Some th → own th + busy th ≤ pool_owners c.
Proof.
  intros Ht. unfold pool_owners.
  pose proof (total_lookup (λ th, own th + busy th) _ _ _ Ht). simpl in *. lia.
Qed.

Lemma live_le_owners c : live_handles c ≤ pool_owners c.
Proof.
  unfold live_handles, pool_owners.
  pose proof (total_le _ _ (threads c) own_le_busy). lia.
Qed.

(** The programs of the other threads stay well formed. *)
Lemma programs_update t th' k (ths : gmap nat thread) :
  (∀ t0 th0, ths !! t0 = Some th0 → well_formed_thread k th0 = true) →
  well_formed_thread k th' = true →
  ∀ t0 th0, <[t := th']> ths !! t0 = Some th0 →
    well_formed_thread k th0 = true.
Proof.
  intros Hall Hth' t0 th0.
  intros [[<- <-]|[_ Ht0]]%lookup_insert_Some; [done|by eapply Hall].
Qed.

Local Arguments live_handles : simpl never.
Local Arguments pool_owners : simpl never.
Local Arguments total : simpl never.

Ltac counts Ht :=
  lazymatch type of Ht with
  | threads ?c !! ?t = Some ?th =>
      lazymatch goal with
      | |- sharing_inv _ _ (update _ ?th' ?m _) =>
          pose proof (live_handles_update t th th' m c Ht);
          pose proof (pool_owners_update t th th' m c Ht);
          pose proof (potential_update t th th' m c Ht);
          pose proof (live_le_potential (update t th' m c));
          pose proof (live_le_owners (update t th' m c))
      end
  end;
  unfold potential, busy, live_handles, pool_owners in *; simpl in *.

Ltac bound Hb :=
  unfold potential in *; simpl in *; eapply N.le_lt_trans; [|exact Hb]; lia.

Ltac mutex_unchanged t Ht Hmx :=
  let t0 := fresh "t0" in let th0 := fresh "th0" in
  let Ht0 := fresh "Ht0" in let Hh := fresh "Hh" in let Hne0 := fresh "Hne0" in
  intros t0; rewrite Hmx; split;
  [ intros (th0 & Ht0 & Hh); destruct (decide (t0 = t)) as [->|Hne0];
    [ rewrite Ht in Ht0; injection Ht0 as <-; done
    | exists th0; by rewrite lookup_insert_ne ]
  | intros (th0 & [[<- <-]|[Hne0 Ht0]]%lookup_insert_Some & Hh);
    [ done | by exists th0 ] ].

Ltac others_not_releasing Hrel :=
  let t0 := fresh "t0" in let th0 := fresh "th0" in
  let Ht0 := fresh "Ht0" in let Hr := fresh "Hr" in let Hne0 := fresh "Hne0" in
  intros t0 th0 [[<- <-]|[Hne0 Ht0]]%lookup_insert_Some Hr; [done|];
  destruct (Hrel _ _ Ht0 Hr) as [? ?]; first [lia | split; [done|lia]].

Lemma sharing_step_inv t c c' :
  sharing_inv p a c → step p a t c = Next c' → sharing_inv p a c'.
Proof.
  intros [Hu Hb Hpc Hpl Hwf Halive Hquiet Hzero Hrel Hmx Hlog] Hstep.
  unfold step in Hstep.
  destruct (threads c !! t) as [th|] eqn:Ht; [|done].
  pose proof (Hwf _ _ Ht) as Hwft. unfold well_formed_thread in Hwft.
  pose proof (own_le_live _ _ _ Ht) as Hown.
  pose proof (busy_le_owners _ _ _ Ht) as Hbusy.
  pose proof (live_le_potential c) as Hlp.
  destruct th as [x k prog]. unfold busy in Hbusy. simpl in *.
  destruct x; simpl in *.
  - (* between two actions *)
    destruct prog as [|[] rest]; [done| |].
    + (* the copy constructor initialises owner_ *)
      simpl in Hwft. apply andb_true_iff in Hwft as [Hsrc Hwft].
      rewrite (negb_true_iff _) in Hsrc. rewrite Hsrc in Hstep.
      destruct (pool_live (cell c)) eqn:Hlive; [|done].
      injection Hstep as <-.
      assert (live_handles c ≠ 0) as Hne.
      { apply andb_false_iff in Hsrc as [?%Nat.eqb_neq|?%Nat.eqb_neq];
          unfold live_handles in *; lia. }
      counts Ht. split; simpl; unfold live_handles, pool_owners; simpl.
      * rewrite Hu. f_equal. lia.
      * bound Hb.
      * lia.
      * done.
      * apply programs_update; [done|].
        unfold well_formed_thread. simpl. by rewrite Hsrc.
      * intros _. by apply Halive.
      * done.
      * intros Hz. lia.
      * others_not_releasing Hrel.
      * mutex_unchanged t Ht Hmx.
      * done.
    + (* the destructor decrements *)
      destruct k as [|k]; [done|].
      assert (live_handles c ≠ 0) as Hne by lia.
      destruct (Halive Hne) as [Hobs Hcl]. rewrite Hcl in Hstep.
      assert (pre_decrement (uses (cell c)) = N.of_nat (live_handles c - 1)) as Hdec.
      { rewrite Hu. apply pre_decrement_of_nat; [lia|]. bound Hb. }
      rewrite Hdec in Hstep.
      destruct (N.eqb_spec (N.of_nat (live_handles c - 1)) 0%N) as [Hz|Hz];
        injection Hstep as <-; counts Ht; (split; simpl; unfold live_handles, pool_owners; simpl).
      * f_equal. lia.
      * bound Hb.
      * lia.
      * done.
      * by apply programs_update.
      * intros Hnz. lia.
      * done.
      * intros _. eexists t, _. rewrite Hobs, lookup_insert_eq. done.
      * intros t0 th0 [[<- <-]|[Hne0 Ht0]]%lookup_insert_Some Hr.
        -- rewrite Hobs. split; [done|lia].
        -- destruct (Hrel _ _ Ht0 Hr) as [? ?]. lia.
      * mutex_unchanged t Ht Hmx.
      * by rewrite Hcl in Hlog.
      * f_equal. lia.
      * bound Hb.
      * lia.
      * done.
      * by apply programs_update.
      * done.
      * done.
      * intros Hz'. lia.
      * others_not_releasing Hrel.
      * mutex_unchanged t Ht Hmx.
      * by rewrite Hcl in Hlog.
  - (* the copy constructor increments *)
    apply andb_true_iff in Hwft as [Hsrc Hwft].
    rewrite (negb_true_iff _) in Hsrc.
    assert (live_handles c ≠ 0) as Hne.
    { apply andb_false_iff in Hsrc as [?%Nat.eqb_neq|?%Nat.eqb_neq];
        unfold live_handles in *; lia. }
    destruct (Halive Hne) as [Hobs Hcl]. rewrite Hcl in Hstep.
    injection Hstep as <-. counts Ht.
    assert (N.of_nat (S (pinned c + total own (threads c))) < SIZE_MODULUS)%N
      as Hroom by bound Hb.
    split; simpl; unfold live_handles, pool_owners; simpl.
    + rewrite Hu, pre_increment_of_nat by done. f_equal. lia.
    + bound Hb.
    + lia.
    + done.
    + by apply programs_update.
    + done.
    + done.
    + intros Hz. lia.
    + others_not_releasing Hrel.
    + mutex_unchanged t Ht Hmx.
    + by rewrite Hcl in Hlog.
  - (* the lock *)
    destruct (pool_live (cell c)) eqn:Hlive; [|done].
    destruct (mutex (cell c)) as [t'|] eqn:Hm; [done|].
    injection Hstep as <-.
    destruct (Hrel _ _ Ht eq_refl) as [Hobs Hl0].
    destruct (Hzero Hl0) as (t0 & th0 & Hobs0 & Ht0 & Hcl0).
    rewrite Hobs in Hobs0. injection Hobs0 as <-.
    rewrite Ht in Ht0. injection Ht0 as <-. simpl in Hcl0.
    counts Ht. split; simpl; unfold live_handles, pool_owners; simpl.
    + rewrite Hu. f_equal. lia.
    + bound Hb.
    + lia.
    + done.
    + by apply programs_update.
    + intros Hnz. lia.
    + by rewrite Hobs.
    + intros _. eexists t, _. by rewrite lookup_insert_eq.
    + intros t1 th1 [[<- <-]|[Hne1 Ht1]]%lookup_insert_Some Hr.
      * split; [done|lia].
      * destruct (Hrel _ _ Ht1 Hr) as [? ?]. split; [done|lia].
    + intros t1. split.
      * intros [= <-]. eexists. by rewrite lookup_insert_eq.
      * intros (th1 & [[<- <-]|[Hne1 Ht1]]%lookup_insert_Some & Hh); [done|].
        discriminate (proj2 (Hmx t1) (ex_intro _ th1 (conj Ht1 Hh))).
    + destruct Hlog as (Hd & Hf & Hpd).
      rewrite !occurrences_cons_ne by discriminate. done.
  - (* the release of the cell *)
    destruct (pool_live (cell c)) eqn:Hlive; [|done].
    destruct (cell_live (cell c)) eqn:Hcl; [|done].
    injection Hstep as <-.
    destruct (Hrel _ _ Ht eq_refl) as [Hobs Hl0].
    counts Ht. split; simpl; unfold live_handles, pool_owners; simpl.
    + rewrite Hu. f_equal. lia.
    + bound Hb.
    + lia.
    + done.
    + by apply programs_update.
    + intros Hnz. lia.
    + by rewrite Hobs.
    + intros _. eexists t, _. by rewrite lookup_insert_eq.
    + intros t1 th1 [[<- <-]|[Hne1 Ht1]]%lookup_insert_Some Hr.
      * split; [done|lia].
      * destruct (Hrel _ _ Ht1 Hr) as [? ?]. split; [done|lia].
    + intros t1. rewrite Hmx. split.
      * intros (th1 & Ht1 & Hh). destruct (decide (t1 = t)) as [->|Hne1].
        -- eexists. by rewrite lookup_insert_eq.
        -- exists th1. by rewrite lookup_insert_ne.
      * intros (th1 & [[<- <-]|[Hne1 Ht1]]%lookup_insert_Some & Hh).
        -- eexists. split; [exact Ht|done].
        -- by exists th1.
    + rewrite ?Hcl in Hlog. destruct Hlog as (Hd & Hf & Hpd).
      repeat first [ rewrite occurrences_cons_ne by discriminate
                   | rewrite occurrences_cons, decide_True by done ].
      rewrite Hd, Hf, Hpd. done.
  - (* the unlock *)
    destruct (pool_live (cell c)) eqn:Hlive; [|done].
    injection Hstep as <-.
    destruct (Hrel _ _ Ht eq_refl) as [Hobs Hl0].
    destruct (Hzero Hl0) as (t0 & th0 & Hobs0 & Ht0 & Hcl0).
    rewrite Hobs in Hobs0. injection Hobs0 as <-.
    rewrite Ht in Ht0. injection Ht0 as <-. simpl in Hcl0.
    counts Ht. split; simpl; unfold live_handles, pool_owners; simpl.
    + rewrite Hu. f_equal. lia.
    + bound Hb.
    + lia.
    + done.
    + by apply programs_update.
    + intros Hnz. lia.
    + by rewrite Hobs.
    + intros _. eexists t, _. by rewrite lookup_insert_eq.
    + intros t1 th1 [[<- <-]|[Hne1 Ht1]]%lookup_insert_Some Hr; [done|].
      destruct (Hrel _ _ Ht1 Hr) as [? ?]. split; [done|lia].
    + intros t1. split; [done|].
      intros (th1 & [[<- <-]|[Hne1 Ht1]]%lookup_insert_Some & Hh); [done|].
      assert (in_release (at_pc th1) = true) as Hr by (by destruct (at_pc th1)).
      destruct (Hrel _ _ Ht1 Hr) as [Hobs1 _]. congruence.
    + destruct Hlog as (Hd & Hf & Hpd).
      rewrite !occurrences_cons_ne by discriminate. done.
  - (* the release of the pool *)
    destruct (pool_live (cell c)) eqn:Hlive; [|done].
    assert (∃ m, c' = update t (mkThread Idle k prog) m c
                 ∧ uses m = uses (cell c) ∧ cell_live m = cell_live (cell c)
                 ∧ mutex m = mutex (cell c)
                 ∧ observed_zero m = observed_zero (cell c)
                 ∧ pool_count m = pred (pool_count (cell c))
                 ∧ pool_live m = negb (pool_count m =? 0)
                 ∧ (pool_live m = true → log m = log (cell c))
                 ∧ (pool_live m = false →
                      log m = EvPoolDtor p :: log (cell c))) as (m & -> & Hm).
    { destruct (pool_count (cell c)) as [|[|n]] eqn:Epc.
      - lia.
      - injection Hstep as <-. eexists. split; [done|]. simpl. by split_and!.
      - injection Hstep as <-. eexists. split; [done|]. simpl. by split_and!. }
    destruct Hm as (Hmu & Hmcl & Hmmx & Hmobs & Hmpc & Hmpl & Hmlog1 & Hmlog2).
    counts Ht. split; simpl; unfold live_handles, pool_owners; simpl.
    + rewrite Hmu, Hu. f_equal. lia.
    + bound Hb.
    + lia.
    + done.
    + by apply programs_update.
    + rewrite Hmobs, Hmcl. intros Hnz. apply Halive. lia.
    + rewrite Hmobs. intros Hobs. destruct (pool_live m) eqn:Hpm.
      * rewrite Hmlog1 by done. by apply Hquiet.
      * exfalso. symmetry in Hmpl. apply negb_false_iff, Nat.eqb_eq in Hmpl.
        assert (pinned c + total own (threads c) = 0) as Hl0 by lia.
        destruct (Hzero Hl0) as (t0 & th0 & Hobs0 & _). congruence.
    + rewrite Hmobs, Hmcl. intros Hz.
      assert (pinned c + total own (threads c) = 0) as Hl0 by lia.
      destruct (Hzero Hl0) as (t0 & th0 & Hobs0 & Ht0 & Hcl0).
      destruct (decide (t0 = t)) as [->|Hne0].
      * rewrite Ht in Ht0. injection Ht0 as <-.
        eexists t, _. by rewrite lookup_insert_eq.
      * exists t0, th0. by rewrite lookup_insert_ne.
    + rewrite Hmobs.
      intros t1 th1 [[<- <-]|[Hne1 Ht1]]%lookup_insert_Some Hr; [done|].
      destruct (Hrel _ _ Ht1 Hr) as [? ?]. split; [done|lia].
    + intros t0. rewrite Hmmx, Hmx. split.
      * intros (th0 & Ht0 & Hh). destruct (decide (t0 = t)) as [->|Hne0].
        -- rewrite Ht in Ht0. injection Ht0 as <-. done.
        -- exists th0. by rewrite lookup_insert_ne.
      * intros (th0 & [[<- <-]|[Hne0 Ht0]]%lookup_insert_Some & Hh); [done|].
        by exists th0.
    + destruct Hlog as (Hd & Hf & Hpd). rewrite Hmcl.
      destruct (pool_live m) eqn:Hpm.
      * rewrite Hmlog1 by done. done.
      * rewrite Hmlog2 by done.
        rewrite !occurrences_cons_ne by discriminate.
        rewrite occurrences_cons, decide_True by done. rewrite Hpd. done.
Qed.

Lemma sharing_run_inv sched c c' :
  sharing_inv p a c → run p a sched c = Some c' → sharing_inv p a c'.
Proof.
  revert c. induction sched as [|t sched IH]; intros c Hinv Hrun.
  - by injection Hrun as <-.
  - simpl in Hrun. destruct (step p a t c) as [c1| | | |] eqn:Hstep; try done.
    eapply IH; [|done]. by eapply sharing_step_inv.
Qed.

(** No step touches a destroyed cell or pool, uses a handle the thread
    does not have, or finds the mutex taken. *)
Lemma sharing_step_defined t c :
  sharing_inv p a c →
  step p a t c ≠ Undefined ∧ step p a t c ≠ Misuse ∧ step p a t c ≠ Blocked.
Proof.
  intros [Hu Hb Hpc Hpl Hwf Halive Hquiet Hzero Hrel Hmx Hlog].
  unfold step. destruct (threads c !! t) as [th|] eqn:Ht; [|done].
  pose proof (Hwf _ _ Ht) as Hwft. unfold well_formed_thread in Hwft.
  pose proof (own_le_live _ _ _ Ht) as Hown.
  pose proof (busy_le_owners _ _ _ Ht) as Hbusy.
  pose proof (live_le_owners c) as Hlo.
  assert (pool_owners c ≠ 0 → pool_live (cell c) = true) as Hpool.
  { intros Hne. rewrite Hpl. apply negb_true_iff, Nat.eqb_neq. lia. }
  destruct th as [x k prog]. unfold busy in Hbusy. simpl in *.
  destruct x; simpl in *.
  - destruct prog as [|[] rest]; [done| |].
    + simpl in Hwft. apply andb_true_iff in Hwft as [Hsrc Hwft].
      rewrite (negb_true_iff _) in Hsrc. rewrite Hsrc.
      rewrite Hpool; [done|].
      apply andb_false_iff in Hsrc as [?%Nat.eqb_neq|?%Nat.eqb_neq];
        unfold pool_owners, live_handles in *; lia.
    + destruct k as [|k]; [done|].
      destruct (Halive ltac:(lia)) as [_ ->].
      by destruct (pre_decrement (uses (cell c)) =? 0)%N; split_and!.
  - apply andb_true_iff in Hwft as [Hsrc Hwft].
    rewrite (negb_true_iff _) in Hsrc.
    assert (live_handles c ≠ 0) as Hne.
    { apply andb_false_iff in Hsrc as [?%Nat.eqb_neq|?%Nat.eqb_neq];
        unfold live_handles in *; lia. }
    destruct (Halive Hne) as [_ ->]. done.
  - rewrite Hpool by lia.
    destruct (mutex (cell c)) as [t'|] eqn:Hm; [|done]. exfalso.
    destruct (proj1 (Hmx t') eq_refl) as (th' & Ht' & Hh).
    assert (in_release (at_pc th') = true) as Hr by (by destruct (at_pc th')).
    destruct (Hrel _ _ Ht' Hr) as [Hobs' _].
    destruct (Hrel _ _ Ht eq_refl) as [Hobs _].
    rewrite Hobs in Hobs'. injection Hobs' as <-.
    rewrite Ht in Ht'. injection Ht' as <-. done.
  - rewrite Hpool by lia.
    destruct (Hrel _ _ Ht eq_refl) as [Hobs Hl0].
    destruct (Hzero Hl0) as (t0 & th0 & Hobs0 & Ht0 & Hcl0).
    rewrite Hobs in Hobs0. injection Hobs0 as <-.
    rewrite Ht in Ht0. injection Ht0 as <-. simpl in Hcl0. by rewrite Hcl0.
  - by rewrite Hpool by lia.
  - rewrite Hpool by lia. by destruct (pool_count (cell c)) as [|[|n]]; split_and!.
Qed.

Lemma sharing_step_ended t c :
  step p a t c = Ended →
  threads c !! t = None
  ∨ ∃ th, threads c !! t = Some th ∧ at_pc th = Idle ∧ todo th = [].
Proof.
  unfold step. destruct (threads c !! t) as [[x k prog]|] eqn:Ht; [|by left].
  intros Hstep. right. eexists. split; [done|]. simpl in *.
  destruct x; simpl in *; repeat case_match; done.
Qed.

Lemma sharing_step_work t c c' :
  step p a t c = Next c' →
  total work (threads c') < total work (threads c).
Proof.
  unfold step. destruct (threads c !! t) as [[x k prog]|] eqn:Ht; [|done].
  simpl. intros Hstep.
  assert (∀ th' m, c' = update t th' m c →
            work th' < work (mkThread x k prog) →
            total work (threads c') < total work (threads c)) as Hless.
  { intros th' m -> Hw. simpl.
    pose proof (total_replace work _ t _ th' Ht). lia. }
  destruct x; simpl in *; repeat case_match; try done;
    injection Hstep as <-; (eapply Hless; [done|]);
    unfold work; simpl; lia.
Qed.

Lemma sharing_run_work sched c c' :
  run p a sched c = Some c' →
  length sched + total work (threads c') ≤ total work (threads c).
Proof.
  revert c. induction sched as [|t sched IH]; intros c Hrun.
  - injection Hrun as <-. simpl. lia.
  - simpl in Hrun. destruct (step p a t c) as [c1| | | |] eqn:Hstep; try done.
    pose proof (sharing_step_work _ _ _ Hstep). specialize (IH _ Hrun).
    simpl. lia.
Qed.

(** Threads copy and destroy handles on one cell, in any interleaving of
    their atomic steps.  The cell's counter is the number of complete
    handles; while there is one, the cell is alive and no thread has locked
    anything; the cell is destroyed and freed at most once, and only when no
    handle is left; the pool is alive exactly while it has an owner; and no
    step touches a destroyed cell or pool or waits for the mutex. *)
Theorem handles_racing_on_one_cell c0 sched c :
  starting c0 = true → run p a sched c0 = Some c →
  uses (cell c) = N.of_nat (live_handles c)
  ∧ (live_handles c ≠ 0 →
       cell_live (cell c) = true ∧ observed_zero (cell c) = []
       ∧ log (cell c) = [])
  ∧ (live_handles c = 0 → ∃ t, observed_zero (cell c) = [t])
  ∧ occurrences (EvDtor p a) (log (cell c)) ≤ 1
  ∧ occurrences (EvFree p a) (log (cell c)) ≤ 1
  ∧ (cell_live (cell c) = false →
       live_handles c = 0
       ∧ occurrences (EvDtor p a) (log (cell c)) = 1
       ∧ occurrences (EvFree p a) (log (cell c)) = 1)
  ∧ pool_count (cell c) = pool_owners c
  ∧ (pool_live (cell c) = true ↔ pool_owners c ≠ 0)
  ∧ (∀ t, step p a t c ≠ Undefined ∧ step p a t c ≠ Misuse
          ∧ step p a t c ≠ Blocked).
Proof.
  intros Hstart Hrun.
  pose proof (sharing_run_inv _ _ _ (starting_sharing_inv p a _ Hstart) Hrun)
    as Hinv.
  pose proof Hinv as [Hu Hb Hpc Hpl Hwf Halive Hquiet Hzero Hrel Hmx Hlog].
  destruct Hlog as (Hd & Hf & Hpd).
  split_and!.
  - done.
  - intros Hne. destruct (Halive Hne) as [Hobs Hcl]. split_and!; [done|done|].
    by apply Hquiet.
  - intros Hz. destruct (Hzero Hz) as (t & _ & Hobs & _). by exists t.
  - rewrite Hd. destruct (cell_live (cell c)); lia.
  - rewrite Hf. destruct (cell_live (cell c)); lia.
  - intros Hcl. rewrite Hd, Hf, Hcl. split_and!; [|done|done].
    destruct (decide (live_handles c = 0)) as [|Hne]; [done|].
    destruct (Halive Hne) as [_ Hcl']. congruence.
  - done.
  - rewrite Hpl, Hpc. rewrite negb_true_iff, Nat.eqb_neq. done.
  - intros t. by apply sharing_step_defined.
Qed.

(** Such a race ends: a schedule that runs is no longer than the work the
    threads started with, a thread that has something left to do can always
    take its next step, and when nothing is left to do the mutex is free
    and the cell is gone if and only if no handle on it is left. *)
Theorem racing_handles_finish c0 sched c :
  starting c0 = true → run p a sched c0 = Some c →
  length sched + total work (threads c) ≤ total work (threads c0)
  ∧ (∀ t th, threads c !! t = Some th →
       at_pc th ≠ Idle ∨ todo th ≠ [] → ∃ c', step p a t c = Next c')
  ∧ (quiescent c = true →
       mutex (cell c) = None
       ∧ (cell_live (cell c) = false ↔ live_handles c = 0)).
Proof.
  intros Hstart Hrun.
  pose proof (sharing_run_inv _ _ _ (starting_sharing_inv p a _ Hstart) Hrun)
    as Hinv.
  pose proof Hinv as [Hu Hb Hpc Hpl Hwf Halive Hquiet Hzero Hrel Hmx Hlog].
  split_and!.
  - by apply sharing_run_work.
  - intros t th Ht Hbusy.
    destruct (sharing_step_defined t c Hinv) as (Hu' & Hm' & Hb').
    destruct (step p a t c) as [c'| | | |] eqn:Hstep; try done; [by exists c'|].
    apply sharing_step_ended in Hstep as [Hn|(th' & Ht' & Hat & Htodo)];
      [congruence|].
    rewrite Ht in Ht'. injection Ht' as <-. by destruct Hbusy.
  - intros Hq. unfold quiescent in Hq. apply bool_decide_eq_true in Hq.
    split.
    + destruct (mutex (cell c)) as [t|] eqn:Hm; [|done].
      destruct (proj1 (Hmx t) eq_refl) as (th & Ht & Hh).
      destruct (Hq _ _ Ht) as [Hat _]. by rewrite Hat in Hh.
    + split.
      * intros Hcl. destruct (decide (live_handles c = 0)) as [|Hne]; [done|].
        destruct (Halive Hne) as [_ Hcl']. congruence.
      * intros Hz. destruct (Hzero Hz) as (t & th & _ & Ht & Hcl).
        destruct (Hq _ _ Ht) as [Hat _]. by rewrite Hcl, Hat.
Qed.

End Steps.

(** [sharedTest]: thread [1] is [t1], thread [2] is [main]. *)
Lemma handles_racing_on_one_cell_witness :
  starting sharedTest = true
  ∧ ∃ c, run 0 1 sharedTest_schedule sharedTest = Some c
         ∧ uses (cell c) = 1%N
         ∧ cell_live (cell c) = true
         ∧ log (cell c) = [].
Proof.
  assert (starting sharedTest = true) as Hstart by (vm_compute; reflexivity).
  split; [exact Hstart|].
  exists (default sharedTest (run 0 1 sharedTest_schedule sharedTest)).
  assert (run 0 1 sharedTest_schedule sharedTest
          = Some (default sharedTest (run 0 1 sharedTest_schedule sharedTest)))
    as Hrun by (apply returns_default; vm_compute; reflexivity).
  split; [exact Hrun|].
  destruct (handles_racing_on_one_cell 0 1 _ _ _ Hstart Hrun)
    as (Hu & Halive & _).
  assert (live_handles (default sharedTest
                          (run 0 1 sharedTest_schedule sharedTest)) = 1) as Hl
    by (vm_compute; reflexivity).
  rewrite Hl in Hu, Halive. destruct Halive as (Hcl & _ & Hlog); [lia|].
  split_and!; [exact Hu|exact Hcl|exact Hlog].
Defined.

Lemma racing_handles_finish_witness :
  starting sharedTest = true
  ∧ ∃ c, run 0 1 sharedTest_schedule sharedTest = Some c
         ∧ length sharedTest_schedule + total work (threads c)
           ≤ total work (threads sharedTest)
         ∧ mutex (cell c) = None.
Proof.
  assert (starting sharedTest = true) as Hstart by (vm_compute; reflexivity).
  split; [exact Hstart|].
  exists (default sharedTest (run 0 1 sharedTest_schedule sharedTest)).
  assert (run 0 1 sharedTest_schedule sharedTest
          = Some (default sharedTest (run 0 1 sharedTest_schedule sharedTest)))
    as Hrun by (apply returns_default; vm_compute; reflexivity).
  split; [exact Hrun|].
  destruct (racing_handles_finish 0 1 _ _ _ Hstart Hrun) as (Hw & _ & Hq).
  split; [exact Hw|].
  assert (quiescent (default sharedTest
                       (run 0 1 sharedTest_schedule sharedTest)) = true) as Hqt
    by (vm_compute; reflexivity).
  exact (proj1 (Hq Hqt)).
Defined.

End SharingFacts.

(** ** [malloc] and [free] on raw chunks *)

Module RawChunksFacts.
Import Pooled PooledFacts RawChunks.

Section Facts.
Context {V : Type}.
Implicit Types s : state V.
Local Open Scope nat_scope.

Lemma ordered_free_perm a (l : list nat) : ordered_free a l ≡ₚ a :: l.
Proof.
  induction l as [|b l IH]; simpl; [done|].
  case_match; [done|]. rewrite IH. apply Permutation_swap.
Qed.

(** What [malloc] does in a state of the program. *)
Lemma ParallelPool_malloc_spec t p P s rw :
  inv s → pools s !! p = Some P →
  ParallelPool_malloc t p (mkRaw s rw)
  = Some (match free_list P with
          | a :: l =>
              (Some a,
               mkRaw (mkState (tls s)
                        (<[p := mkParallelPool (elem P) (home P) (use_count P)
                                  l false]> (pools s))
                        (mem s) (handles s) (next_pool s) (brk s)
                        (heap_limit s) (EvUnlock t p :: EvLock t p :: log s))
                     (<[a := p]> rw))
          | [] =>
              if brk s <? heap_limit s then
                (Some (brk s),
                 mkRaw (mkState (tls s)
                          (<[p := mkParallelPool (elem P) (home P) (use_count P)
                                    [] false]> (pools s))
                          (mem s) (handles s) (next_pool s) (S (brk s))
                          (heap_limit s) (EvUnlock t p :: EvLock t p :: log s))
                       (<[brk s := p]> rw))
              else
                (None,
                 mkRaw (mkState (tls s)
                          (<[p := mkParallelPool (elem P) (home P) (use_count P)
                                    [] false]> (pools s))
                          (mem s) (handles s) (next_pool s) (brk s)
                          (heap_limit s) (EvUnlock t p :: EvLock t p :: log s))
                       rw)
          end).
Proof.
  intros Hinv HP.
  pose proof (pool_unlocked _ (inv_pools _ Hinv) _ _ HP) as Hmx.
  unfold ParallelPool_malloc, lock, pool_malloc, unlock. simpl.
  rewrite HP. simpl. rewrite Hmx. simpl. rewrite lookup_insert_eq. simpl.
  destruct (free_list P) as [|a l] eqn:Efl; simpl.
  - destruct (brk s <? heap_limit s); simpl; rewrite lookup_insert_eq; simpl;
      rewrite !insert_insert_eq; unfold set_mutex; simpl; by rewrite ?Efl.
  - rewrite lookup_insert_eq. simpl. rewrite !insert_insert_eq.
    unfold set_mutex, set_free_list. simpl. done.
Qed.

(** [ParallelPool::malloc] on a live pool returns with the mutex released.
    It returns null exactly when the free list is empty and the backing
    allocator has nothing left; otherwise the chunk it hands out holds no
    cell, no handle refers to it, and it is on no free list any more.  It
    constructs nothing: cells and handles are as before. *)
Theorem malloc_hands_out_an_unused_chunk limit os s t p P :
  run os (init limit) = Some s → pools s !! p = Some P →
  ∃ ret r',
    ParallelPool_malloc t p (mkRaw s ∅) = Some (ret, r')
    ∧ (ret = None ↔ free_list P = [] ∧ heap_limit s ≤ brk s)
    ∧ mem (program r') = mem s ∧ handles (program r') = handles s
    ∧ log (program r') = EvUnlock t p :: EvLock t p :: log s
    ∧ (∃ P', pools (program r') !! p = Some P' ∧ mutex P' = false
             ∧ free_list P' = tail (free_list P))
    ∧ (∀ a, ret = Some a →
         raw r' = {[a := p]}
         ∧ mem s !! a = None
         ∧ (∀ h i, handles s !! h = Some i → counter_ i ≠ Some a)
         ∧ (∀ q Q, pools (program r') !! q = Some Q → a ∉ free_list Q)).
Proof.
  intros Hrun HP. pose proof (reachable_inv _ _ _ Hrun) as Hinv.
  rewrite (ParallelPool_malloc_spec t p P s ∅ Hinv HP).
  assert (∀ a, mem s !! a = None →
            ∀ h i, handles s !! h = Some i → counter_ i ≠ Some a) as Hnoh.
  { intros a Hnone h i Hi Ha.
    destruct (handle_counter _ (inv_handles _ Hinv) _ _ _ Hi Ha) as (c & Hc & _).
    congruence. }
  destruct (free_list P) as [|a l] eqn:Efl.
  - destruct (Nat.ltb_spec (brk s) (heap_limit s)) as [Hlt|Hge].
    + eexists _, _. split; [done|]. simpl. split_and!; try done.
      * split; [done|]. intros [_ ?]. lia.
      * eexists. rewrite lookup_insert_eq. done.
      * intros a [= <-].
        assert (mem s !! brk s = None) as Hnone.
        { destruct (mem s !! brk s) as [c|] eqn:Hc; [|done].
          apply (cell_below_brk _ (inv_cells _ Hinv)) in Hc. lia. }
        split_and!; [done|done|by apply Hnoh|].
        intros q Q [[<- <-]|[Hne HQ]]%lookup_insert_Some; simpl.
        -- apply not_elem_of_nil.
        -- intros Hin.
           destruct (pool_free_chunk _ (inv_pools _ Hinv) _ _ _ HQ Hin). lia.
    + eexists _, _. split; [done|]. simpl. split_and!; try done.
      eexists. rewrite lookup_insert_eq. done.
  - assert (a ∈ free_list P) as Hin by (rewrite Efl; left).
    destruct (pool_free_chunk _ (inv_pools _ Hinv) _ _ _ HP Hin) as [Hlt Hnone].
    pose proof (pool_free_NoDup _ (inv_pools _ Hinv) _ _ HP) as Hnd.
    rewrite Efl in Hnd. pose proof (NoDup_cons_1_1 _ _ Hnd) as Hnotin.
    eexists _, _. split; [done|]. simpl. split_and!; try done.
    + split; [done|]. by intros [? _].
    + eexists. rewrite lookup_insert_eq. done.
    + intros a' [= <-]. split_and!; [done|done|by apply Hnoh|].
      intros q Q [[<- <-]|[Hne HQ]]%lookup_insert_Some; simpl; [done|].
      by apply (pool_free_disjoint _ (inv_pools _ Hinv) p q P Q).
Qed.

(** A chunk from [malloc] given back with [free], by whatever thread:
    the chunk is on the pool's free list again, which holds what it held
    before (and the chunk, if it was new); no constructor or destructor
    has run; and the next [malloc] is served from the free list, without
    the backing allocator. *)
Theorem malloc_then_free_returns_the_chunk limit os s t t' p P a r1 :
  run os (init limit) = Some s → pools s !! p = Some P →
  ParallelPool_malloc t p (mkRaw s ∅) = Some (Some a, r1) →
  ∃ r2 P2,
    ParallelPool_free t' p a r1 = Some r2
    ∧ raw r2 = ∅
    ∧ mem (program r2) = mem s ∧ handles (program r2) = handles s
    ∧ pools (program r2) !! p = Some P2 ∧ mutex P2 = false
    ∧ a ∈ free_list P2
    ∧ free_list P2 ≡ₚ (if decide (free_list P = []) then [a] else free_list P)
    ∧ log (program r2)
      = EvUnlock t' p :: EvFree p a :: EvLock t' p
          :: EvUnlock t p :: EvLock t p :: log s
    ∧ ∃ a' r3, ParallelPool_malloc t p r2 = Some (Some a', r3)
               ∧ brk (program r3) = brk (program r1).
Proof.
  intros Hrun HP. pose proof (reachable_inv _ _ _ Hrun) as Hinv.
  rewrite (ParallelPool_malloc_spec t p P s ∅ Hinv HP).
  assert (∀ l (rest : state V) rw,
            pools rest !! p = Some (mkParallelPool (elem P) (home P) (use_count P)
                                      l false) →
            rw !! a = Some p →
            ParallelPool_free t' p a (mkRaw rest rw)
            = Some (mkRaw (mkState (tls rest)
                             (<[p := mkParallelPool (elem P) (home P) (use_count P)
                                       (ordered_free a l) false]> (pools rest))
                             (mem rest) (handles rest) (next_pool rest) (brk rest)
                             (heap_limit rest)
                             (EvUnlock t' p :: EvFree p a :: EvLock t' p
                                :: log rest))
                          (delete a rw))) as Hfree.
  { intros l rest rw Hp Hrw. unfold ParallelPool_free, lock, pool_free, unlock.
    simpl. rewrite Hp. simpl. rewrite lookup_insert_eq. simpl.
    rewrite bool_decide_true by done. simpl. rewrite lookup_insert_eq. simpl.
    by rewrite !insert_insert_eq. }
  assert (∀ b l (rest : state V) rw,
            pools rest !! p = Some (mkParallelPool (elem P) (home P) (use_count P)
                                      (b :: l) false) →
            ∃ r3, ParallelPool_malloc t p (mkRaw rest rw) = Some (Some b, r3)
                  ∧ brk (program r3) = brk rest) as Hagain.
  { intros b l rest rw Hp. unfold ParallelPool_malloc, lock, pool_malloc, unlock.
    simpl. rewrite Hp. simpl. rewrite lookup_insert_eq. simpl.
    rewrite lookup_insert_eq. simpl. eexists. split; [done|done]. }
  destruct (free_list P) as [|a0 l] eqn:Efl.
  - destruct (Nat.ltb_spec (brk s) (heap_limit s)) as [Hlt|Hge]; [|done].
    intros [= <- <-]. simpl.
    rewrite (Hfree []); [|simpl; by rewrite lookup_insert_eq|simpl; by rewrite lookup_insert_eq].
    eexists _, _. split; [done|]. simpl.
    rewrite lookup_insert_eq, insert_insert_eq.
    split_and!; try done.
    + by rewrite delete_insert_eq, delete_empty.
    + left.
    + edestruct (Hagain (brk s) []) as (r3 & Hr3 & Hb3); [|eauto].
      simpl. by rewrite lookup_insert_eq.
  - intros [= <- <-]. simpl.
    rewrite (Hfree l); [|simpl; by rewrite lookup_insert_eq|simpl; by rewrite lookup_insert_eq].
    eexists _, _. split; [done|]. simpl.
    rewrite lookup_insert_eq, insert_insert_eq.
    split_and!; try done.
    + by rewrite delete_insert_eq, delete_empty.
    + apply elem_of_ordered_free. by left.
    + apply ordered_free_perm.
    + destruct (ordered_free a0 l) as [|b l'] eqn:Eof.
      { pose proof (ordered_free_perm a0 l) as Hperm. rewrite Eof in Hperm.
        by apply Permutation_nil_cons in Hperm. }
      edestruct (Hagain b l') as (r3 & Hr3 & Hb3); [|eauto].
      simpl. by rewrite lookup_insert_eq.
Qed.

(** Two [malloc]s in a row never hand out the same chunk. *)
Theorem successive_mallocs_differ limit os s t t' p P a a' r1 r2 :
  run os (init limit) = Some s → pools s !! p = Some P →
  ParallelPool_malloc t p (mkRaw s ∅) = Some (Some a, r1) →
  ParallelPool_malloc t' p r1 = Some (Some a', r2) →
  a ≠ a' ∧ raw r2 = <[a' := p]> {[a := p]}.
Proof.
  intros Hrun HP. pose proof (reachable_inv _ _ _ Hrun) as Hinv.
  rewrite (ParallelPool_malloc_spec t p P s ∅ Hinv HP).
  pose proof (pool_free_NoDup _ (inv_pools _ Hinv) _ _ HP) as Hnd.
  assert (∀ a0, a0 ∈ free_list P → a0 < brk s) as Hbelow.
  { intros a0 Hin. by destruct (pool_free_chunk _ (inv_pools _ Hinv) _ _ _ HP Hin). }
  unfold ParallelPool_malloc, lock, pool_malloc, unlock.
  destruct (free_list P) as [|a0 l] eqn:Efl.
  - destruct (Nat.ltb_spec (brk s) (heap_limit s)) as [Hlt|Hge]; [|done].
    intros [= <- <-]. simpl. rewrite lookup_insert_eq. simpl.
    rewrite lookup_insert_eq. simpl.
    destruct (S (brk s) <? heap_limit s); simpl; rewrite ?lookup_insert_eq;
      simpl; intros H2; [|discriminate H2].
    injection H2 as <- <-. simpl. split; [lia|done].
  - intros [= <- <-]. simpl. rewrite lookup_insert_eq. simpl.
    rewrite lookup_insert_eq. simpl.
    pose proof (NoDup_cons_1_1 _ _ Hnd) as Hnotin.
    destruct l as [|b l]; simpl.
    + destruct (brk s <? heap_limit s); simpl; rewrite ?lookup_insert_eq;
        simpl; intros H2; [|discriminate H2].
      injection H2 as <- <-. simpl.
      split; [|done]. specialize (Hbelow a0 ltac:(left)). lia.
    + rewrite lookup_insert_eq. simpl. intros [= <- <-]. simpl.
      split; [|done]. intros ->. apply Hnotin. left.
Qed.

End Facts.

Section RawExamples.
Local Open Scope nat_scope.

Lemma kek_malloc_eq :
  ParallelPool_malloc 0 0 (mkRaw (after 4 kek_ops) ∅)
  = Some (Some 2, kek_malloc.2).
Proof.
  change (mkRaw (after 4 kek_ops) ∅) with kek_raw.
  rewrite (returns_default (None, kek_raw) (ParallelPool_malloc 0 0 kek_raw))
    by (vm_compute; reflexivity).
  fold kek_malloc. rewrite (surjective_pairing kek_malloc) at 1.
  assert (kek_malloc.1 = Some 2) as -> by (vm_compute; reflexivity). done.
Qed.

Lemma kek_malloc_again_eq :
  ParallelPool_malloc 1 0 kek_malloc.2 = Some (Some 3, kek_malloc_again.2).
Proof.
  rewrite (returns_default (None, kek_raw) (ParallelPool_malloc 1 0 kek_malloc.2))
    by (vm_compute; reflexivity).
  fold kek_malloc_again. rewrite (surjective_pairing kek_malloc_again) at 1.
  assert (kek_malloc_again.1 = Some 3) as -> by (vm_compute; reflexivity). done.
Qed.

Lemma kek_pool :
  pools (after 4 kek_ops) !! 0
  = Some (mkParallelPool Classifier.std_string 0 2 [] false).
Proof. vm_compute; reflexivity. Qed.

Lemma kek_returns : run kek_ops (init 4) = Some (after 4 kek_ops).
Proof. apply returns_default. vm_compute; reflexivity. Qed.

(** [malloc] on the pool of the main thread, which has [s] in it. *)
Lemma malloc_hands_out_an_unused_chunk_witness :
  run kek_ops (init 4) = Some (after 4 kek_ops)
  ∧ pools (after 4 kek_ops) !! 0
    = Some (mkParallelPool Classifier.std_string 0 2 [] false)
  ∧ ∃ ret r',
      ParallelPool_malloc 0 0 (mkRaw (after 4 kek_ops) ∅) = Some (ret, r')
      ∧ mem (program r') = mem (after 4 kek_ops)
      ∧ handles (program r') = handles (after 4 kek_ops).
Proof.
  split; [exact kek_returns|]. split; [exact kek_pool|].
  destruct (malloc_hands_out_an_unused_chunk 4 kek_ops _ 0 0 _
              kek_returns kek_pool) as (ret & r' & Hm & _ & Hmem & Hh & _).
  exists ret, r'. split_and!; [exact Hm|exact Hmem|exact Hh].
Defined.

(** The chunk [2] handed out to the main thread and given back by thread
    [1]. *)
Lemma malloc_then_free_returns_the_chunk_witness :
  run kek_ops (init 4) = Some (after 4 kek_ops)
  ∧ pools (after 4 kek_ops) !! 0
    = Some (mkParallelPool Classifier.std_string 0 2 [] false)
  ∧ ParallelPool_malloc 0 0 (mkRaw (after 4 kek_ops) ∅)
    = Some (Some 2, kek_malloc.2)
  ∧ ∃ r2 P2,
      ParallelPool_free 1 0 2 kek_malloc.2 = Some r2
      ∧ raw r2 = ∅
      ∧ pools (program r2) !! 0 = Some P2
      ∧ 2 ∈ free_list P2.
Proof.
  split; [exact kek_returns|]. split; [exact kek_pool|].
  split; [exact kek_malloc_eq|].
  destruct (malloc_then_free_returns_the_chunk 4 kek_ops _ 0 1 0 _ 2 _
              kek_returns kek_pool kek_malloc_eq)
    as (r2 & P2 & Hf & Hraw & _ & _ & HP2 & _ & Hin & _).
  exists r2, P2. split_and!; [exact Hf|exact Hraw|exact HP2|exact Hin].
Defined.

(** Two [malloc]s on that pool: chunks [2] and [3]. *)
Lemma successive_mallocs_differ_witness :
  run kek_ops (init 4) = Some (after 4 kek_ops)
  ∧ pools (after 4 kek_ops) !! 0
    = Some (mkParallelPool Classifier.std_string 0 2 [] false)
  ∧ ParallelPool_malloc 0 0 (mkRaw (after 4 kek_ops) ∅)
    = Some (Some 2, kek_malloc.2)
  ∧ ParallelPool_malloc 1 0 kek_malloc.2 = Some (Some 3, kek_malloc_again.2)
  ∧ 2 ≠ 3
  ∧ raw kek_malloc_again.2 = <[3 := 0]> {[2 := 0]}.
Proof.
  split; [exact kek_returns|]. split; [exact kek_pool|].
  split; [exact kek_malloc_eq|]. split; [exact kek_malloc_again_eq|].
  exact (successive_mallocs_differ 4 kek_ops _ 0 1 0 _ 2 3 _ _
           kek_returns kek_pool kek_malloc_eq kek_malloc_again_eq).
Defined.

End RawExamples.

End RawChunksFacts.
